(** * CBS ingest pipeline and growth features: a shallow embedding

    The development follows [backend/utils.py] and the dashboard pages that
    share its feature-engineering helpers.

    - [Py]        exceptions as an error monad;
    - [Xml]       feed entries and the response flattener ([find_in_schema]);
    - [ElementPath] the path expression that [find_in_schema] hands to
                  [Element.find];
    - [Store]     the relational store and its upsert;
    - [Fetch]     the bulk fact fetcher: N workers around one shared cursor;
    - [Metadata]  the sequential metadata sync;
    - [Frames]    data frames with typed columns and the growth-rate and
                  relative-share helpers of the dashboard pages;
    - [Load]      the load stage, from a chunk file to the upsert;
    - [Pages]     the five-year growth of the municipalities page
                  ([extract_top5]). *)

From Stdlib Require Import ZArith List Floats.
From stdpp Require Import gmap strings list fin_maps.

Local Open Scope Z_scope.

(** ** Python exceptions *)

Module Py.

(** The exceptions the modelled code can raise. *)
Inductive exn :=
| RequestError          (* requests.exceptions.RequestException *)
| ParseError            (* xml.etree.ElementTree.ParseError *)
| AttributeError
| ColumnNotFoundError   (* polars.exceptions.ColumnNotFoundError *)
| InvalidOperationError (* polars: arithmetic on a non-numeric column *)
| FileNotFoundError
| SyntaxError           (* xml.etree.ElementPath: a path it cannot parse *)
| KeyError
| TypeError.

Inductive result (A : Type) :=
| Ok (a : A)
| Raise (e : exn).
Arguments Ok {A} a.
Arguments Raise {A} e.

Definition bind {A B} (r : result A) (k : A → result B) : result B :=
  match r with
  | Ok a => k a
  | Raise e => Raise e
  end.

Definition result_map {A B} (f : A → B) (r : result A) : result B :=
  match r with
  | Ok a => Ok (f a)
  | Raise e => Raise e
  end.

#[global] Instance result_fmap : FMap result := @result_map.
#[global] Instance result_ret : MRet result := λ A a, Ok a.
#[global] Instance result_bind : MBind result := λ A B k r, bind r k.

End Py.

(** ** Feed entries and the response flattener *)

Module Xml.
Import Py.

(** An [xml.etree.ElementTree.Element]: tag, text (None for an element with no
    character data) and the child elements in document order. *)
Inductive Element :=
| Elem (tag : string) (text : option string) (children : list Element).

Definition tag (e : Element) : string :=
  match e with Elem t _ _ => t end.
Definition text (e : Element) : option string :=
  match e with Elem _ x _ => x end.
Definition children (e : Element) : list Element :=
  match e with Elem _ _ cs => cs end.

(** [Element.iter(tag)]: the element and its descendants in document order;
    [iter_first] is the first of them carrying the tag. *)
Fixpoint iter_first (t : string) (e : Element) : option Element :=
  match e with
  | Elem t' _ cs =>
      if String.eqb t' t then Some e
      else (fix first_of (l : list Element) : option Element :=
              match l with
              | [] => None
              | c :: l' =>
                  match iter_first t c with
                  | Some r => Some r
                  | None => first_of l'
                  end
              end) cs
  end.

(** [entry.find(".//" + t)]: the first proper descendant with tag [t]. *)
Fixpoint find_first (t : string) (cs : list Element) : option Element :=
  match cs with
  | [] => None
  | c :: cs' =>
      match iter_first t c with
      | Some r => Some r
      | None => find_first t cs'
      end
  end.

Definition find_descendant (t : string) (entry : Element) : option Element :=
  find_first t (children entry).

(** The proper descendants of an element, in document order. *)
Fixpoint iter (e : Element) : list Element :=
  match e with
  | Elem _ _ cs =>
      e :: (fix each (l : list Element) : list Element :=
              match l with
              | [] => []
              | c :: l' => iter c ++ each l'
              end) cs
  end.

Definition descendants (e : Element) : list Element :=
  flat_map iter (children e).

Definition schema : string :=
  "{http://schemas.microsoft.com/ado/2007/08/dataservices}".

(** Attribute access [param.text]: on Python's [None] it raises. *)
Definition attr_text (param : option Element) : result (option string) :=
  match param with
  | None => Raise AttributeError
  | Some p => Ok (text p)
  end.

(** [find_in_schema(entry, key)], with its guard on a missing field, for a
    key that is a plain tag name, as the field names of the model classes
    are: the path of line 96 then selects the proper descendants that carry
    the tag. [ElementPath] below follows the path expression itself, for any
    key, and [find_in_schema_path_plain] there ties the two. *)
Definition find_in_schema (entry : Element) (key : string)
  : result (option string) :=
  let param := find_descendant (schema +:+ key) entry in
  match param with
  | None => Ok None
  | Some _ => attr_text param
  end.

(** A flat record: internal attribute name to text value, [None] being the
    null marker. *)
Abbreviation Record := (gmap string (option string)).

(** The inner loop of both parsers,
    [for key, value in object.__resp_keys__().items(): row[value] = find_in_schema(entry, key)],
    over the dictionary [row] that the caller keeps across entries. *)
Fixpoint fill_row (row : Record) (entry : Element)
    (resp_keys : list (string * string)) : result Record :=
  match resp_keys with
  | [] => Ok row
  | (key, value) :: rest =>
      param ← find_in_schema entry key;
      fill_row (<[value := param]> row) entry rest
  end.

(** Flattening one entry, from an empty row. *)
Definition flatten (entry : Element) (resp_keys : list (string * string))
  : result Record :=
  fill_row ∅ entry resp_keys.

(** The loop over the entries of a page. [row] is created once, before the
    loop, and every record appended to [lijst] is built from its current
    contents ([object( **row)] copies the keyword arguments; the model
    classes live outside this file and are taken to store them as given). *)
Fixpoint parse_entries (row : Record) (lijst : list Record)
    (entries : list Element) (resp_keys : list (string * string))
  : result (Record * list Record) :=
  match entries with
  | [] => Ok (row, lijst)
  | entry :: rest =>
      row' ← fill_row row entry resp_keys;
      parse_entries row' (lijst ++ [row']) rest resp_keys
  end.

(** *** Facts about the flattener *)

Lemma Element_rect_list (P : Element → Prop) :
  (∀ t x cs, Forall P cs → P (Elem t x cs)) → ∀ e, P e.
Proof.
  intros step. fix IH 1. intros [t x cs]. apply step.
  induction cs as [|c cs IHcs]; constructor; [apply IH | exact IHcs].
Qed.

Lemma iter_first_unfold t t' x cs :
  iter_first t (Elem t' x cs)
  = if String.eqb t' t then Some (Elem t' x cs) else find_first t cs.
Proof.
  simpl. destruct (String.eqb t' t); [reflexivity|].
  induction cs as [|c cs IHcs]; simpl; [reflexivity|].
  destruct (iter_first t c); [reflexivity | exact IHcs].
Qed.

Lemma iter_unfold t x cs :
  iter (Elem t x cs) = Elem t x cs :: flat_map iter cs.
Proof.
  reflexivity.
Qed.

(** [iter_first] finds nothing exactly when no element of the subtree carries
    the tag. *)
Lemma iter_first_None t e :
  iter_first t e = None ↔ Forall (λ d, tag d ≠ t) (iter e).
Proof.
  induction e as [t' x cs IH] using Element_rect_list.
  rewrite iter_first_unfold, iter_unfold, Forall_cons. simpl.
  destruct (String.eqb_spec t' t) as [->|Hne].
  - split; [discriminate | intros [H _]; done].
  - assert (find_first t cs = None ↔ Forall (λ d, tag d ≠ t) (flat_map iter cs))
      as ->; [|tauto].
    induction IH as [|c cs Hc _ IHcs]; simpl; [by split; constructor|].
    rewrite Forall_app, <- Hc, <- IHcs.
    destruct (iter_first t c); [split; [discriminate | intros [? _]; done]|tauto].
Qed.

Lemma find_descendant_None t entry :
  find_descendant t entry = None
  ↔ Forall (λ d, tag d ≠ t) (descendants entry).
Proof.
  unfold find_descendant, descendants.
  induction (children entry) as [|c cs IHcs]; simpl; [by split; constructor|].
  rewrite Forall_app, <- IHcs, <- iter_first_None.
  destruct (iter_first t c); [split; [discriminate | intros [? _]; done]|tauto].
Qed.

(** What [find_in_schema] computes, as a total function. *)
Definition field (entry : Element) (key : string) : option string :=
  match find_descendant (schema +:+ key) entry with
  | None => None
  | Some p => text p
  end.

Lemma find_in_schema_Ok entry key :
  find_in_schema entry key = Ok (field entry key).
Proof.
  unfold find_in_schema, field.
  by destruct (find_descendant (schema +:+ key) entry).
Qed.

Definition fill (row : Record) (entry : Element)
    (resp_keys : list (string * string)) : Record :=
  foldl (λ r kv, <[kv.2 := field entry kv.1]> r) row resp_keys.

Lemma fill_cons row entry k v rest :
  fill row entry ((k, v) :: rest) = fill (<[v:=field entry k]> row) entry rest.
Proof. reflexivity. Qed.

Lemma fill_row_Ok row entry resp_keys :
  fill_row row entry resp_keys = Ok (fill row entry resp_keys).
Proof.
  revert row. induction resp_keys as [|[k v] rest IH]; intros row; simpl;
    [reflexivity|].
  rewrite find_in_schema_Ok. simpl. apply IH.
Qed.

(** A slot of the filled row comes from the mapping table when the table
    names it, and is left as it was otherwise. *)
Lemma lookup_fill row entry resp_keys (v : string) :
  fill row entry resp_keys !! v
  = if decide (v ∈ resp_keys.*2) then fill ∅ entry resp_keys !! v
    else row !! v.
Proof.
  revert row. induction resp_keys as [|[k v0] rest IH]; intros row.
  - case_decide as Hin; [by apply elem_of_nil in Hin | reflexivity].
  - rewrite !fill_cons, fmap_cons, IH, (IH (<[v0:=_]> ∅)). simpl.
    destruct (decide (v ∈ rest.*2)) as [Hr|Hr].
    + rewrite decide_True by (by right). reflexivity.
    + destruct (decide (v = v0)) as [->|Hne].
      * rewrite decide_True by (by left). by rewrite !lookup_insert_eq.
      * rewrite decide_False by (by intros [?|?]%elem_of_cons).
        by rewrite lookup_insert_ne.
Qed.

Lemma fill_overwrites row entry resp_keys :
  dom row ⊆ list_to_set resp_keys.*2 →
  fill row entry resp_keys = fill ∅ entry resp_keys.
Proof.
  intros Hdom. apply map_eq. intros v. rewrite lookup_fill.
  case_decide as Hin; [reflexivity|].
  rewrite (lookup_fill ∅), decide_False, lookup_empty by done.
  apply not_elem_of_dom. intros Hv. apply Hin.
  apply Hdom in Hv. by apply elem_of_list_to_set in Hv.
Qed.

Lemma dom_fill row entry resp_keys :
  dom (fill row entry resp_keys) = dom row ∪ list_to_set resp_keys.*2.
Proof.
  revert row. induction resp_keys as [|[k v] rest IH]; intros row.
  - simpl. set_solver.
  - rewrite fill_cons, fmap_cons, IH, dom_insert_L. set_solver.
Qed.

(** The last pair of the table that writes slot [value] decides it. *)
Lemma lookup_fill_last row entry rest1 key value rest2 :
  value ∉ rest2.*2 →
  fill row entry (rest1 ++ (key, value) :: rest2) !! value
  = Some (field entry key).
Proof.
  intros Hlast. unfold fill. rewrite foldl_app. simpl.
  fold (fill (<[value:=field entry key]>
                (foldl (λ r kv, <[kv.2:=field entry kv.1]> r) row rest1))
             entry rest2).
  rewrite lookup_fill, decide_False by done. apply lookup_insert_eq.
Qed.

Lemma parse_entries_Ok row lijst entries resp_keys :
  dom row ⊆ list_to_set resp_keys.*2 →
  ∃ row', dom row' ⊆ list_to_set resp_keys.*2 ∧
    parse_entries row lijst entries resp_keys
    = Ok (row', lijst ++ map (λ e, fill ∅ e resp_keys) entries).
Proof.
  revert row lijst. induction entries as [|e rest IH]; intros row lijst Hdom.
  - exists row. simpl. by rewrite app_nil_r.
  - simpl. rewrite fill_row_Ok. simpl.
    rewrite (fill_overwrites row) by done.
    destruct (IH (fill ∅ e resp_keys) (lijst ++ [fill ∅ e resp_keys]))
      as (row' & Hrow' & ->).
    { rewrite dom_fill. set_solver. }
    exists row'. split; [done|]. by rewrite <- app_assoc.
Qed.

Lemma parse_entries_returns row lijst entries resp_keys :
  ∃ out, parse_entries row lijst entries resp_keys = Ok out.
Proof.
  revert row lijst. induction entries as [|e rest IH]; intros row lijst;
    simpl; [by eexists|].
  rewrite fill_row_Ok. simpl. apply IH.
Qed.

(** *** Document order *)

Lemma head_app {A} (l k : list A) :
  head (l ++ k) = match head l with Some x => Some x | None => head k end.
Proof. by destruct l. Qed.

(** [iter_first] is the first element of the subtree, in document order,
    that carries the tag. *)
Lemma iter_first_head t e :
  iter_first t e = head (filter (λ d, tag d = t) (iter e)).
Proof.
  induction e as [t' x cs IH] using Element_rect_list.
  rewrite iter_first_unfold, iter_unfold, filter_cons. simpl.
  destruct (String.eqb_spec t' t) as [->|Hne].
  - by rewrite decide_True.
  - rewrite decide_False by done.
    induction IH as [|c cs Hc _ IHcs]; simpl; [done|].
    rewrite filter_app, head_app, <- Hc, <- IHcs.
    by destruct (iter_first t c).
Qed.

Lemma find_descendant_head t entry :
  find_descendant t entry
  = head (filter (λ d, tag d = t) (descendants entry)).
Proof.
  unfold find_descendant, descendants.
  induction (children entry) as [|c cs IHcs]; simpl; [done|].
  rewrite filter_app, head_app, <- iter_first_head, <- IHcs.
  by destruct (iter_first t c).
Qed.

End Xml.

(** ** The path expression of [find_in_schema] *)

Module ElementPath.
Import Py Xml.

Import Stdlib.Strings.Ascii.

(** [xml.etree.ElementPath], which [Element.find] calls on a path such as
    [".//{namespace}Key"], followed on paths of ASCII characters made of
    self, child and descendant steps. Where a definition below returns
    [None] the path leaves that part of the language (a closed predicate
    [[...]], a parent step [..], the wildcard [{}*], a character outside
    ASCII) and the model says nothing about the call. *)

(** *** The tokenizer *)

(** A token of [xpath_tokenizer_re.findall]: the two groups of the regular
    expression, an operator or a name; white space gives two empty groups. *)
Definition Token : Type := string * string.

Definition ttype (t : Token) : string := t.1.

Definition is_in (a : Ascii.ascii) (s : string) : bool :=
  existsb (Ascii.eqb a) (String.list_ascii_of_string s).

(** [\s] on ASCII: tab to carriage return, the four separators, space. *)
Definition is_space (a : Ascii.ascii) : bool :=
  let n := Ascii.nat_of_ascii a in
  (Nat.leb 9 n && Nat.leb n 13) || (Nat.leb 28 n && Nat.leb n 32).

(** [[^/\[\]\(\)@!=\s]]. *)
Definition name_char (a : Ascii.ascii) : bool :=
  negb (is_in a "/[]()@!=") && negb (is_space a).

(** The longest prefix of characters in a class, and the rest. *)
Fixpoint span (p : Ascii.ascii → bool) (s : string) : string * string :=
  match s with
  | String a s' =>
      if p a then let (l, r) := span p s' in (String a l, r) else ("", s)
  | EmptyString => ("", "")
  end.

(** [s] without its prefix [p]. *)
Fixpoint strip (p s : string) : option string :=
  match p, s with
  | EmptyString, _ => Some s
  | String a p', String b s' => if Ascii.eqb a b then strip p' s' else None
  | String _ _, EmptyString => None
  end.

(** ['[^']*'] and its twin with double quotes, after the opening quote [q]. *)
Definition quoted (q : Ascii.ascii) (s : string) : option (string * string) :=
  let (body, rest) := span (λ a, negb (Ascii.eqb a q)) s in
  match rest with
  | String _ rest' => Some (String q (body +:+ String q ""), rest')
  | EmptyString => None
  end.

(** The alternatives of the first group that are literal, in their order:
    [::], [//?], [\.\.], [\(\)], [!=] and the class [[/.*:\[\]\(\)@=]]. *)
Definition operators : list string :=
  ["::"; "//"; "/"; ".."; "()"; "!=";
   "/"; "."; "*"; ":"; "["; "]"; "("; ")"; "@"; "="].

Fixpoint first_of (ops : list string) (s : string)
  : option (string * string) :=
  match ops with
  | [] => None
  | op :: ops' =>
      match strip op s with
      | Some rest => Some (op, rest)
      | None => first_of ops' s
      end
  end.

(** The single and the double quote. *)
Definition is_quote (a : Ascii.ascii) : bool :=
  Ascii.eqb a "'" || Ascii.eqb a (Ascii.ascii_of_nat 34).

Definition operator (s : string) : option (string * string) :=
  let literal := first_of operators s in
  match s with
  | String a s' =>
      if is_quote a then
        match quoted a s' with
        | Some r => Some r
        | None => literal
        end
      else literal
  | EmptyString => None
  end.

(** [\{[^}]+\}]. *)
Definition braced (s : string) : option (string * string) :=
  match strip "{" s with
  | Some s' =>
      match span (λ a, negb (Ascii.eqb a "}"%char)) s' with
      | (String b body, String _ rest) =>
          Some ("{" +:+ String b body +:+ "}", rest)
      | _ => None
      end
  | None => None
  end.

(** The second group, [(?:\{[^}]+\})?[^/\[\]\(\)@!=\s]+]: with the braces
    when a name character follows them, without them otherwise. *)
Definition name (s : string) : option (string * string) :=
  let bare :=
    match span name_char s with
    | (String a n, rest) => Some (String a n, rest)
    | _ => None
    end in
  match braced s with
  | Some (b, s') =>
      match span name_char s' with
      | (String a n, rest) => Some (b +:+ String a n, rest)
      | _ => bare
      end
  | None => bare
  end.

(** One match of the expression at the head of [s]. *)
Definition lex (s : string) : option (Token * string) :=
  match operator s with
  | Some (op, rest) => Some ((op, ""), rest)
  | None =>
      match name s with
      | Some (n, rest) => Some (("", n), rest)
      | None =>
          match span is_space s with
          | (String _ _, rest) => Some (("", ""), rest)
          | _ => None
          end
      end
  end.

(** [findall]: the matches from left to right; a character at which nothing
    matches is passed over. Every match takes a character, so the length of
    the pattern is fuel enough. *)
Fixpoint findall (fuel : nat) (s : string) : list Token :=
  match fuel, s with
  | S fuel', String _ s' =>
      match lex s with
      | Some (t, rest) => t :: findall fuel' rest
      | None => findall fuel' s'
      end
  | _, _ => []
  end.

(** [xpath_tokenizer(pattern)] without a prefix map: what each [next()]
    gives. A name with a colon and no braces in front is a prefix nobody
    declared. *)
Definition xpath_tokenizer (pattern : string) : list (result Token) :=
  map (λ t : Token,
         match t.2 with
         | String a _ =>
             if negb (Ascii.eqb a "{"%char) && is_in ":"%char t.2
             then Raise SyntaxError else Ok t
         | EmptyString => Ok t
         end)
    (findall (String.length pattern) pattern).

(** *** The selectors *)

(** A [select] function, from the elements found so far to the next ones. *)
Definition Select : Type := list Element → list Element.

(** Whether some tail of [s] is [suf]: [s[-len(suf):] == suf]. *)
Fixpoint ends_with (suf s : string) : bool :=
  String.eqb suf s
  || match s with
     | String _ s' => ends_with suf s'
     | EmptyString => false
     end.

Definition drop_last (s : string) : string :=
  String.substring 0 (String.length s - 1) s.

Definition is_wildcard_tag (tag : string) : bool :=
  String.prefix "{*}" tag || ends_with "}*" tag.

(** [_prepare_tag(tag)] on a wildcard tag, as the test of one element. *)
Definition prepare_tag (tag : string) : option (Element → bool) :=
  if String.eqb tag "{*}*" then Some (λ _, true)
  else if String.eqb tag "{}*" then None
  else if String.prefix "{*}" tag then
    let suffix := String.substring 2 (String.length tag) tag in
    let name := String.substring 3 (String.length tag) tag in
    Some (λ e, String.eqb (Xml.tag e) name || ends_with suffix (Xml.tag e))
  else
    let ns := drop_last tag in
    Some (λ e, String.prefix ns (Xml.tag e)).

(** ['{}tag' == 'tag']. *)
Definition no_namespace (tag : string) : string :=
  if String.prefix "{}" tag
  then String.substring 2 (String.length tag) tag else tag.

Definition prepare_child (tag : string) : option Select :=
  if is_wildcard_tag tag then
    test ← prepare_tag tag;
    Some (λ result,
            filter (λ e, test e = true) (flat_map children result))
  else
    Some (λ result,
            flat_map (λ elem,
                        filter (λ e, Xml.tag e = no_namespace tag)
                          (children elem)) result).

Definition prepare_star : Select := flat_map children.

Definition prepare_self : Select := id.

(** [elem.iter(tag)] without [elem] itself; the tag ["*"] is every
    element. *)
Definition iter_tag (tag : string) (elem : Element) : list Element :=
  filter (λ e, tag = "*" ∨ Xml.tag e = tag) (descendants elem).

(** [prepare_descendant], once it has read the token after [//]. *)
Definition prepare_descendant (tag : string) : option Select :=
  if is_wildcard_tag tag then
    test ← prepare_tag tag;
    Some (λ result,
            filter (λ e, test e = true) (flat_map descendants result))
  else
    Some (flat_map (iter_tag (no_namespace tag))).

(** [prepare_predicate] reads up to the closing bracket. When the tokens
    end first it returns Python's [None]; a closed predicate is not
    followed. *)
Fixpoint prepare_predicate (rest : list (result Token))
  : option (result unit) :=
  match rest with
  | [] => Some (Ok ())
  | Raise e :: _ => Some (Raise e)
  | Ok t :: rest' =>
      if String.eqb (ttype t) "]" then None else prepare_predicate rest'
  end.

(** [selector.append(select)], seen from the end of the loop. *)
Definition push (select : option Select)
    (built : option (result (list (option Select))))
  : option (result (list (option Select))) :=
  match built with
  | Some (Ok selector) => Some (Ok (select :: selector))
  | _ => built
  end.

(** The loop of [iterfind] that builds the selector, [token] being the
    token in hand and [rest] what the tokenizer has left. An entry of the
    selector is [None] where the [prepare_] function returned Python's
    [None]. Every round takes a token, so the number of tokens is fuel
    enough. *)
Fixpoint compile (fuel : nat) (token : Token) (rest : list (result Token))
  : option (result (list (option Select))) :=
  match fuel with
  | O => None
  | S fuel' =>
      (* token = next(); if token[0] == "/": token = next() *)
      let continue (select : option Select) (rest : list (result Token)) :=
        match rest with
        | [] => Some (Ok [select])
        | Raise e :: _ => Some (Raise e)
        | Ok t :: rest' =>
            if String.eqb (ttype t) "/" then
              match rest' with
              | [] => Some (Ok [select])
              | Raise e :: _ => Some (Raise e)
              | Ok t' :: rest'' =>
                  push select (compile fuel' t' rest'')
              end
            else push select (compile fuel' t rest')
        end in
      if String.eqb (ttype token) "" then
        select ← prepare_child token.2; continue (Some select) rest
      else if String.eqb (ttype token) "*" then
        continue (Some prepare_star) rest
      else if String.eqb (ttype token) "." then
        continue (Some prepare_self) rest
      else if String.eqb (ttype token) ".." then None
      else if String.eqb (ttype token) "//" then
        match rest with
        | [] => continue None rest
        | Raise e :: _ => Some (Raise e)
        | Ok t :: rest' =>
            if String.eqb (ttype t) "*" then
              select ← prepare_descendant "*"; continue (Some select) rest'
            else if String.eqb (ttype t) "" then
              select ← prepare_descendant t.2; continue (Some select) rest'
            else Some (Raise SyntaxError)
        end
      else if String.eqb (ttype token) "[" then
        match prepare_predicate rest with
        | Some (Ok ()) => Some (Ok [None])
        | Some (Raise e) => Some (Raise e)
        | None => None
        end
      else Some (Raise KeyError)
  end.

(** [result = select(context, result)] for every entry of the selector:
    calling Python's [None] is a type error. *)
Fixpoint run (selector : list (option Select)) (found : list Element)
  : result (list Element) :=
  match selector with
  | [] => Ok found
  | Some select :: selector' => run selector' (select found)
  | None :: _ => Raise TypeError
  end.

Definition ascii_only (s : string) : bool :=
  forallb (λ a, Nat.ltb (Ascii.nat_of_ascii a) 128)
    (String.list_ascii_of_string s).

(** [elem.find(path)], that is [next(iterfind(elem, path), None)]. With no
    token at all [iterfind] returns [None], which is no iterator. *)
Definition find (elem : Element) (path : string)
  : option (result (option Element)) :=
  if negb (ascii_only path) then None else
  let path := if ends_with "/" path then path +:+ "*" else path in
  if String.prefix "/" path then Some (Raise SyntaxError) else
  match xpath_tokenizer path with
  | [] => Some (Raise TypeError)
  | Raise e :: _ => Some (Raise e)
  | Ok token :: rest =>
      selector ← compile (S (length rest)) token rest;
      Some (selector ← selector; head <$> run selector [elem])
  end.

(** [find_in_schema(entry, key)], with the path of line 96 as
    [ElementPath] reads it. *)
Definition find_in_schema_path (entry : Element) (key : string)
  : option (result (option string)) :=
  found ← find entry (".//" +:+ schema +:+ key);
  Some (param ← found;
        match param with
        | None => Ok None
        | Some _ => attr_text param
        end).

(** The loop of both parsers over the mapping table, and the flattening of
    one entry, on [find_in_schema_path]. *)
Fixpoint fill_row_path (row : Record) (entry : Element)
    (resp_keys : list (string * string)) : option (result Record) :=
  match resp_keys with
  | [] => Some (Ok row)
  | (key, value) :: rest =>
      match find_in_schema_path entry key with
      | Some (Ok param) => fill_row_path (<[value := param]> row) entry rest
      | Some (Raise e) => Some (Raise e)
      | None => None
      end
  end.

Definition flatten_path (entry : Element) (resp_keys : list (string * string))
  : option (result Record) :=
  fill_row_path ∅ entry resp_keys.

(** A key that is a plain tag name: not empty, made of ASCII characters that
    the tokenizer takes for a name, and not making the tag a wildcard. *)
Definition plain_key (key : string) : bool :=
  match key with
  | EmptyString => false
  | String _ _ =>
      forallb name_char (String.list_ascii_of_string key)
      && ascii_only key
      && negb (is_wildcard_tag (schema +:+ key))
  end.

(** *** Plain keys *)

Lemma span_all p s :
  forallb p (String.list_ascii_of_string s) = true → span p s = (s, "").
Proof.
  induction s as [|a s IH]; simpl; [done|].
  intros [-> Hs]%andb_true_iff. by rewrite IH.
Qed.

Lemma name_char_not_slash a : name_char a = true → Ascii.eqb "/" a = false.
Proof.
  rewrite (Ascii.eqb_sym "/" a). unfold name_char, is_in. simpl.
  by destruct (Ascii.eqb a "/").
Qed.

Lemma ends_with_slash_name s :
  forallb name_char (String.list_ascii_of_string s) = true →
  ends_with "/" s = false.
Proof.
  induction s as [|a s IH]; [done|].
  intros Hs. simpl in Hs. apply andb_true_iff in Hs as [Ha Hs].
  change (ends_with "/" (String a s))
    with ((Ascii.eqb "/" a && String.eqb "" s) || ends_with "/" s).
  by rewrite (name_char_not_slash a Ha), IH.
Qed.

Lemma ascii_only_app s t :
  ascii_only (s +:+ t) = ascii_only s && ascii_only t.
Proof.
  unfold ascii_only. induction s as [|a s IH]; simpl; [done|].
  by rewrite IH, andb_assoc.
Qed.

Lemma findall_lex n s t rest :
  lex s = Some (t, rest) → findall (S n) s = t :: findall n rest.
Proof.
  intros Hlex. destruct s as [|a s]; [done|].
  cbn [findall]. by rewrite Hlex.
Qed.

Section plain.
Variable key : string.
Hypothesis Hplain : plain_key key = true.

Lemma plain_key_inv :
  key ≠ ""
  ∧ forallb name_char (String.list_ascii_of_string key) = true
  ∧ ascii_only key = true
  ∧ is_wildcard_tag (schema +:+ key) = false.
Proof.
  unfold plain_key in Hplain. destruct key as [|a s]; [done|].
  apply andb_true_iff in Hplain as [[Hname Hascii]%andb_true_iff Hwild].
  by apply negb_true_iff in Hwild.
Qed.

Lemma lex_tag : lex (schema +:+ key) = Some (("", schema +:+ key), "").
Proof.
  destruct plain_key_inv as (Hne & Hname & _).
  unfold lex. assert (operator (schema +:+ key) = None) as -> by done.
  assert (braced (schema +:+ key) = Some (schema, key)) as Hbraced by done.
  unfold name. rewrite Hbraced, (span_all _ _ Hname).
  by destruct key.
Qed.

Lemma tokens_of_path :
  xpath_tokenizer (".//" +:+ schema +:+ key)
  = [Ok (".", ""); Ok ("//", ""); Ok ("", schema +:+ key)].
Proof.
  unfold xpath_tokenizer.
  assert (∀ n, findall (S (S (S n))) (".//" +:+ schema +:+ key)
               = [(".", ""); ("//", "")] ++ findall (S n) (schema +:+ key))
    as Hhead by done.
  assert (∀ n, findall (S n) (schema +:+ key) = [("", schema +:+ key)])
    as Htag.
  { intros n. rewrite (findall_lex n _ _ _ lex_tag). by destruct n. }
  assert (∃ n, String.length (".//" +:+ schema +:+ key) = S (S (S (S n))))
    as [n ->] by (by eexists).
  by rewrite Hhead, Htag.
Qed.

Lemma find_plain entry :
  find entry (".//" +:+ schema +:+ key)
  = Some (Ok (find_descendant (schema +:+ key) entry)).
Proof.
  destruct plain_key_inv as (Hne & Hname & Hascii & Hwild).
  unfold find.
  assert (ascii_only (".//" +:+ schema +:+ key) = true) as ->.
  { by rewrite !ascii_only_app, Hascii. }
  assert (ends_with "/" (".//" +:+ schema +:+ key) = false) as ->.
  { simpl. by apply ends_with_slash_name. }
  simpl negb. cbv iota.
  assert (String.prefix "/" (".//" +:+ schema +:+ key) = false) as -> by done.
  rewrite tokens_of_path. simpl length.
  assert (compile 3 (".", "") [Ok ("//", ""); Ok ("", schema +:+ key)]
          = Some (Ok [Some prepare_self;
                      Some (flat_map (iter_tag (schema +:+ key)))])) as ->.
  { simpl. unfold prepare_descendant. rewrite Hwild. done. }
  simpl. unfold prepare_self, iter_tag. simpl. rewrite app_nil_r.
  do 2 f_equal. rewrite find_descendant_head. f_equal.
  apply list_filter_iff. intros d. split; [|by right].
  by intros [?|?].
Qed.

(** On a plain key the path of line 96 finds what the comparison of whole
    tags finds. *)
Lemma find_in_schema_path_plain entry :
  find_in_schema_path entry key = Some (find_in_schema entry key).
Proof.
  unfold find_in_schema_path, find_in_schema. by rewrite find_plain.
Qed.

End plain.

Lemma fill_row_path_plain row entry resp_keys :
  Forall (λ kv, plain_key kv.1 = true) resp_keys →
  fill_row_path row entry resp_keys = Some (fill_row row entry resp_keys).
Proof.
  intros Hplain. revert row.
  induction Hplain as [|[key value] rest Hkey _ IH]; intros row; [done|].
  simpl. rewrite (find_in_schema_path_plain key Hkey), find_in_schema_Ok.
  simpl. apply IH.
Qed.

(** The record of the flattener on whole tags, for every table. *)
Lemma fill_fields entry resp_keys key value :
  (key, value) ∈ resp_keys →
  (∀ key', (key', value) ∈ resp_keys → key' = key) →
  fill ∅ entry resp_keys !! value = Some (field entry key).
Proof.
  generalize (∅ : Record).
  induction resp_keys as [|[k v] rest IH]; intros row Hin Huniq;
    [by apply elem_of_nil in Hin|].
  destruct (decide (value ∈ rest.*2)) as [Hlater|Hlast].
  - simpl. apply IH.
    + apply list_elem_of_fmap in Hlater as ([k' v'] & -> & Hk').
      simpl in *. rewrite (Huniq k') in Hk' by (by right). done.
    + intros key' Hk'. apply Huniq. by right.
  - apply elem_of_cons in Hin as [[= <- <-]|Hin].
    + by apply (lookup_fill_last row entry []).
    + exfalso. apply Hlast. apply list_elem_of_fmap.
      by exists (key, value).
Qed.

(** C4. Flattening one feed entry with a field-mapping table whose keys are
    plain tag names is a total function of the entry and the table: the path
    expression of every key is well formed, so the call returns a record and
    never raises; the record does not depend on what the shared [row]
    dictionary held from entries flattened before; its slots are exactly the
    internal names of the table; a mapped field is the text of the first
    element with the tag of the key, and a field that is absent from the
    entry is the null marker. It is the record of [flatten], which compares
    whole tags. *)
Theorem flatten_plain_keys_total (entry : Element)
    (resp_keys : list (string * string)) :
  Forall (λ kv, plain_key kv.1 = true) resp_keys →
  ∃ rec : Record,
    flatten_path entry resp_keys = Some (Ok rec)
    ∧ flatten entry resp_keys = Ok rec
    ∧ (∀ earlier row, flatten_path earlier resp_keys = Some (Ok row) →
         fill_row_path row entry resp_keys = Some (Ok rec))
    ∧ dom rec = list_to_set resp_keys.*2
    ∧ (∀ key value, (key, value) ∈ resp_keys →
         (∀ key', (key', value) ∈ resp_keys → key' = key) →
         rec !! value = Some (field entry key)
         ∧ (Forall (λ d, tag d ≠ schema +:+ key) (descendants entry) →
            find_in_schema_path entry key = Some (Ok None)
            ∧ rec !! value = Some None)).
Proof.
  intros Hplain. exists (fill ∅ entry resp_keys). unfold flatten_path, flatten.
  rewrite !fill_row_path_plain, !fill_row_Ok by done.
  do 2 (split; [done|]). split; [|split].
  - intros earlier row. rewrite fill_row_path_plain, fill_row_Ok by done.
    intros [= <-]. rewrite fill_row_path_plain, fill_row_Ok by done.
    do 2 f_equal. apply fill_overwrites. rewrite dom_fill. set_solver.
  - rewrite dom_fill. set_solver.
  - intros key value Hin Huniq.
    pose proof (fill_fields entry resp_keys key value Hin Huniq) as Hval.
    split; [exact Hval|]. intros Habsent.
    apply find_descendant_None in Habsent.
    assert (plain_key key = true) as Hkey.
    { rewrite Forall_forall in Hplain. apply (Hplain (key, value) Hin). }
    rewrite (find_in_schema_path_plain key Hkey), find_in_schema_Ok, Hval.
    unfold field. by rewrite Habsent.
Qed.

(** At an entry that lacks the second field of the table. *)
Lemma flatten_plain_keys_total_witness :
  let keys := [("Key", "regio_key"); ("Title", "regio")] in
  let entry :=
    Elem "entry" None
      [Elem "content" None
         [Elem "properties" None
            [Elem (schema +:+ "Key") (Some "GM0363") []]]] in
  ∃ rec : Record,
    flatten_path entry keys = Some (Ok rec)
    ∧ rec !! "regio_key" = Some (Some "GM0363")
    ∧ rec !! "regio" = Some None.
Proof.
  intros keys entry.
  destruct (flatten_plain_keys_total entry keys)
    as (rec & Hrec & _ & _ & _ & Hfields).
  { repeat constructor. }
  exists rec. split; [exact Hrec|].
  assert (∀ key value, (key, value) ∈ keys →
            ∀ key', (key', value) ∈ keys → key' = key) as Huniq.
  { intros key value Hin key' Hin'. unfold keys in *.
    repeat (apply elem_of_cons in Hin as [Hin|Hin]);
      repeat (apply elem_of_cons in Hin' as [Hin'|Hin']);
      try (by apply elem_of_nil in Hin); try (by apply elem_of_nil in Hin');
      congruence. }
  split.
  - destruct (Hfields "Key" "regio_key") as [-> _];
      [by left | by apply Huniq; left | reflexivity].
  - destruct (Hfields "Title" "regio") as [_ [_ Hnull]];
      [by right; left | by apply Huniq; right; left | | exact Hnull].
    vm_compute. repeat constructor; discriminate.
Defined.

(** A key with path syntax. With an open bracket the path has a predicate
    that never closes, and the call raises; with a star the path matches
    every element of the namespace, so a field that no element of the entry
    is named after comes back with the text of another field. Flattening is
    not total over all tables. *)
Lemma flatten_raises_on_path_syntax :
  let entry :=
    Elem "entry" None
      [Elem "content" None
         [Elem "properties" None
            [Elem (schema +:+ "Key") (Some "GM0363") []]]] in
  flatten_path entry [("Key[", "regio_key")] = Some (Raise TypeError)
  ∧ (Forall (λ d, tag d ≠ schema +:+ "*") (descendants entry)
     ∧ flatten_path entry [("*", "regio")]
       = Some (Ok {[ "regio" := Some "GM0363" ]}))
  ∧ ¬ (∀ entry resp_keys, ∃ rec : Record,
         flatten_path entry resp_keys = Some (Ok rec)).
Proof.
  intros entry. split; [by vm_compute|]. split.
  - split; [|by vm_compute]. vm_compute. repeat constructor; discriminate.
  - intros Htotal. destruct (Htotal entry [("Key[", "regio_key")]) as [rec Hrec].
    vm_compute in Hrec. discriminate.
Qed.

(** X1. For a key that is a plain tag name [find_in_schema] never raises
    and returns the text of the first proper descendant of the entry, in
    document order, whose tag is the key in the data-services namespace: the
    depth of the field does not matter, of two fields with one name the
    first decides, also when it has no text, and the entry element itself
    is never matched. *)
Theorem find_in_schema_document_order (entry : Element) (key : string) :
  plain_key key = true →
  find_in_schema_path entry key
  = Some (Ok (head (filter (λ d, tag d = schema +:+ key)
                      (descendants entry)) ≫= text)).
Proof.
  intros Hkey.
  rewrite (find_in_schema_path_plain key Hkey), find_in_schema_Ok.
  unfold field. rewrite find_descendant_head. by destruct (head _).
Qed.

(** An entry that carries the tag itself and has the field twice, the first
    time deeper and without text. *)
Lemma find_in_schema_document_order_witness :
  find_in_schema_path
    (Elem (schema +:+ "Key") (Some "entry")
       [Elem "content" None [Elem (schema +:+ "Key") None []];
        Elem (schema +:+ "Key") (Some "GM0363") []])
    "Key"
  = Some (Ok None).
Proof.
  rewrite (find_in_schema_document_order _ "Key"); reflexivity.
Defined.

End ElementPath.

(** ** The relational store *)

Module Store.
Import Xml.

(** An entity class of [backend.models]: [__tablename__] and the
    field-mapping table [__resp_keys__()] (external field name to internal
    attribute name), which this code reads, and the attributes that make up
    the natural key of the spec, which the upsert resolves conflicts on. *)
Record Model := {
  tablename : string;
  resp_keys : list (string * string);
  natural_key : list string
}.

(** The natural key of an entity object: the values of its key attributes. *)
Definition key_of (table : Model) (obj : Record)
  : list (option (option string)) :=
  map (λ a, obj !! a) (natural_key table).

(** One table: natural key to stored row; the database: table name to table. *)
Abbreviation Table := (gmap (list (option (option string))) Record).
Abbreviation DB := (gmap string Table).

Definition table_of (db : DB) (table : Model) : Table :=
  default ∅ (db !! tablename table).

(** Modelled from the spec: [backend.crud.upsert] is not among the sources.
    The spec has it insert a row when its natural key is absent and update the
    attribute columns when it is present, the last write winning. *)
Definition upsert_row (table : Model) (t : Table) (obj : Record) : Table :=
  <[key_of table obj := obj]> t.

Definition upsert (db : DB) (table : Model) (data : list Record) : DB :=
  <[tablename table := foldl (upsert_row table) (table_of db table) data]> db.

(** The row stored under a key after a batch is the last object of the batch
    with that key, or what the table held. *)
Lemma lookup_upsert_rows table t data k :
  foldl (upsert_row table) t data !! k
  = match last (filter (λ obj, key_of table obj = k) data) with
    | Some obj => Some obj
    | None => t !! k
    end.
Proof.
  revert t. induction data as [|obj data IH]; intros t; [reflexivity|].
  simpl. rewrite IH, filter_cons. unfold upsert_row.
  case_decide as Hk.
  - rewrite last_cons. destruct (last _); [reflexivity|].
    subst k. apply lookup_insert_eq.
  - destruct (last _); [reflexivity|]. by apply lookup_insert_ne.
Qed.

Lemma upsert_rows_idem table t data :
  foldl (upsert_row table) (foldl (upsert_row table) t data) data
  = foldl (upsert_row table) t data.
Proof.
  apply map_eq. intros k. rewrite !lookup_upsert_rows.
  by destruct (last _).
Qed.

Lemma upsert_idem db table data :
  upsert (upsert db table data) table data = upsert db table data.
Proof.
  unfold upsert, table_of. rewrite lookup_insert_eq. simpl.
  by rewrite insert_insert_eq, upsert_rows_idem.
Qed.

End Store.

(** ** The bulk fact fetcher *)

Module Fetch.
Import Py Xml Store.

(** [multiprocessing.Value("i", 0)] is a C [int]: a store to [.value] keeps the
    low 32 bits, read back as a signed number. *)
Definition wrap32 (z : Z) : Z := (z + 2 ^ 31) mod 2 ^ 32 - 2 ^ 31.

(** What [requests.get] comes back with: an exception of the transport, or a
    response with its status code and the [entry] elements found in its body
    ([None] when [ET.fromstring] rejects the content). *)
Inductive http_result :=
| ConnectionFailed
| Response (status_code : Z) (entries : option (list Element)).

(** The remote end: the answer to the [n]-th request of the run, for
    [{url}?$skip={skiprows}]. *)
Definition Server := nat → Z → http_result.

(** Where a worker process stands in [parse_response_typed_dataset]: at the
    top of the loop, about to take the lock; holding the offset it read, about
    to send the request; returned after [break]; or dead with an exception. *)
Inductive pc :=
| AtLock
| Requesting (skiprows : Z)
| Exited
| Crashed (e : exn).

Record Worker := {
  w_pc : pc;
  w_row : Record              (* the dictionary [row], kept across pages *)
}.

Record State := {
  cursor : Z;                         (* total_rows_processed.value *)
  workers : list Worker;
  written : gmap Z (list Record);     (* chunk files, by the number in the name *)
  requests : list Z                   (* the $skip of every request sent, in order *)
}.

Definition set_worker (w : nat) (wk : Worker) (st : State) : State :=
  {| cursor := cursor st;
     workers := <[w := wk]> (workers st);
     written := written st;
     requests := requests st |}.

Section worker.
Variable chunk_size : Z.
Variable object : Model.
Variable server : Server.

(** Lines 63-65, one atomic step under the lock. *)
Definition take_offset (w : nat) (wk : Worker) (st : State) : State :=
  {| cursor := wrap32 (cursor st + chunk_size);
     workers := <[w := {| w_pc := Requesting (cursor st); w_row := w_row wk |}]>
                  (workers st);
     written := written st;
     requests := requests st |}.

(** Lines 67-90: the request for [skiprows] and what the loop does with the
    answer. *)
Definition fetch_page (w : nat) (wk : Worker) (skiprows : Z) (st : State)
  : State :=
  let sent :=
    {| cursor := cursor st; workers := workers st; written := written st;
       requests := requests st ++ [skiprows] |} in
  match server (length (requests st)) skiprows with
  | ConnectionFailed =>
      set_worker w {| w_pc := Crashed RequestError; w_row := w_row wk |} sent
  | Response status_code body =>
      if status_code =? 200 then
        match body with
        | None =>
            set_worker w {| w_pc := Crashed ParseError; w_row := w_row wk |} sent
        | Some [] =>
            set_worker w {| w_pc := Exited; w_row := w_row wk |} sent
        | Some entries =>
            match parse_entries (w_row wk) [] entries (resp_keys object) with
            | Raise e =>
                set_worker w {| w_pc := Crashed e; w_row := w_row wk |} sent
            | Ok (row, lijst) =>
                {| cursor := cursor st;
                   workers := <[w := {| w_pc := AtLock; w_row := row |}]>
                                (workers st);
                   written := <[skiprows + chunk_size := lijst]> (written st);
                   requests := requests st ++ [skiprows] |}
            end
        end
      else set_worker w {| w_pc := AtLock; w_row := w_row wk |} sent
  end.

(** One scheduling step of worker [w]. *)
Definition step (w : nat) (st : State) : State :=
  match workers st !! w with
  | None => st
  | Some wk =>
      match w_pc wk with
      | AtLock => take_offset w wk st
      | Requesting skiprows => fetch_page w wk skiprows st
      | Exited | Crashed _ => st
      end
  end.

(** An interleaving of the workers: who moves at each step. *)
Definition run (sched : list nat) (st : State) : State :=
  foldl (λ s w, step w s) st sched.

End worker.

(** The state after [process.start()] for each of [num_processes] workers on
    a fresh counter. *)
Definition spawn (num_processes : Z) : State :=
  {| cursor := 0;
     workers := replicate (Z.to_nat num_processes)
                  {| w_pc := AtLock; w_row := ∅ |};
     written := ∅;
     requests := [] |}.

(** [get_data_from_cbs]: the chunk size is fixed, the workers share one
    counter, and the parent joins them all; [sched] is the interleaving the
    operating system chose. *)
Definition get_data_from_cbs (object : Model) (server : Server)
    (num_processes : Z) (sched : list nat) : State :=
  let chunk_size := 10000 in
  run chunk_size object server sched (spawn num_processes).

Definition finished (wk : Worker) : bool :=
  match w_pc wk with
  | Exited | Crashed _ => true
  | _ => false
  end.

(** Every [process.join()] returns. *)
Definition joined (st : State) : Prop :=
  Forall (λ wk, finished wk = true) (workers st).

#[global] Instance joined_dec st : Decision (joined st).
Proof. unfold joined. apply _. Defined.

Definition pc_of (st : State) (w : nat) : option pc :=
  w_pc <$> workers st !! w.

(** The offsets held by workers that have not sent their request yet. *)
Definition held_by (wk : Worker) : list Z :=
  match w_pc wk with
  | Requesting s => [s]
  | _ => []
  end.

Definition held (st : State) : list Z := flat_map held_by (workers st).

(** The page offsets [0, C, ..., (k-1) C]. *)
Definition offsets (chunk_size : Z) (k : nat) : list Z :=
  (λ i : nat, Z.of_nat i * chunk_size) <$> seq 0 k.

(** A server over a fixed dataset, every request answered with status 200 and
    the page of at most [page_size] entries that starts at the offset. *)
Definition page (dataset : list Element) (page_size : Z) (skiprows : Z)
  : list Element :=
  take (Z.to_nat page_size) (drop (Z.to_nat skiprows) dataset).

Definition serves (dataset : list Element) (page_size : Z)
    (server : Server) : Prop :=
  ∀ n skiprows, 0 ≤ skiprows →
    server n skiprows = Response 200 (Some (page dataset page_size skiprows)).

(** The chunk files of a complete fetch: page [i] under the name
    [(i + 1) * chunk_size]. *)
Definition chunk_file (object : Model) (dataset : list Element)
    (chunk_size : Z) (i : nat) : Z * list Record :=
  ((Z.of_nat i + 1) * chunk_size,
   map (λ e, fill ∅ e (resp_keys object))
     (page dataset chunk_size (Z.of_nat i * chunk_size))).

Definition page_count (dataset : list Element) (chunk_size : Z) : nat :=
  Z.to_nat ((Z.of_nat (length dataset) + chunk_size - 1) / chunk_size).

Definition chunk_files (object : Model) (dataset : list Element)
    (chunk_size : Z) : list (Z * list Record) :=
  chunk_file object dataset chunk_size
    <$> seq 0 (page_count dataset chunk_size).

(** *** The shared cursor *)

Lemma wrap32_id z : - 2 ^ 31 ≤ z < 2 ^ 31 → wrap32 z = z.
Proof. intros Hz. unfold wrap32. rewrite Z.mod_small; lia. Qed.

Lemma wrap32_range z : - 2 ^ 31 ≤ wrap32 z < 2 ^ 31.
Proof.
  unfold wrap32. pose proof (Z.mod_pos_bound (z + 2 ^ 31) (2 ^ 32)). lia.
Qed.

Lemma offsets_S chunk_size k :
  offsets chunk_size (S k) = offsets chunk_size k ++ [Z.of_nat k * chunk_size].
Proof. unfold offsets. by rewrite seq_S, fmap_app. Qed.

Lemma elem_of_offsets chunk_size k s :
  s ∈ offsets chunk_size k ↔ ∃ i : nat, (i < k)%nat ∧ s = Z.of_nat i * chunk_size.
Proof.
  unfold offsets. rewrite list_elem_of_fmap. split.
  - intros (i & -> & Hi%elem_of_seq). exists i. split; [lia | done].
  - intros (i & Hi & ->). exists i. split; [done|]. apply elem_of_seq. lia.
Qed.

Lemma NoDup_offsets chunk_size k : 1 ≤ chunk_size → NoDup (offsets chunk_size k).
Proof.
  intros HC. unfold offsets. apply NoDup_fmap_2_strong; [|apply NoDup_seq].
  intros i j _ _ Hij. nia.
Qed.

(** Replacing one worker changes the held offsets, and any count over the
    workers, by that worker's share only. *)
Lemma flat_map_insert {A B} (f : A → list B) (l : list A) i x y :
  l !! i = Some x →
  f x ++ flat_map f (<[i:=y]> l) ≡ₚ f y ++ flat_map f l.
Proof.
  revert i. induction l as [|a l IH]; intros [|i] Hi; simplify_eq/=.
  - by rewrite !(assoc_L (++)), (comm (++) (f x)).
  - rewrite !(assoc_L (++)), (comm (++) (f x)), (comm (++) (f y)),
      <- !(assoc_L (++)). f_equiv. by apply IH.
Qed.

Lemma sum_list_with_insert {A} (f : A → nat) (l : list A) i x y :
  l !! i = Some x →
  (f x + sum_list_with f (<[i:=y]> l) = f y + sum_list_with f l)%nat.
Proof.
  revert i. induction l as [|a l IH]; intros [|i] Hi; simplify_eq/=; [lia|].
  specialize (IH _ Hi). lia.
Qed.

Lemma sum_list_with_le_length {A} (f : A → nat) (l : list A) i x :
  (∀ a, f a ≤ 1)%nat → l !! i = Some x →
  (sum_list_with f l + 1 ≤ length l + f x)%nat.
Proof.
  intros Hf. revert i. induction l as [|a l IH]; intros [|i] Hi; simplify_eq/=.
  - assert (sum_list_with f l ≤ length l)%nat; [|lia].
    clear -Hf. induction l as [|a l IH]; simpl; [lia|]. specialize (Hf a). lia.
  - specialize (IH _ Hi). specialize (Hf a). lia.
Qed.

(** Whatever the answer, a request leaves the cursor alone, is logged, and
    moves its worker out of [Requesting]. *)
Lemma fetch_page_shape chunk_size object server w wk s st :
  ∃ wk' files,
    fetch_page chunk_size object server w wk s st
    = {| cursor := cursor st; workers := <[w:=wk']> (workers st);
         written := files; requests := requests st ++ [s] |}
    ∧ (w_pc wk' = AtLock ∨ w_pc wk' = Exited ∨ ∃ e, w_pc wk' = Crashed e).
Proof.
  unfold fetch_page, set_worker.
  destruct (server _ _) as [|code body];
    [|destruct (code =? 200);
      [destruct body as [[|e es]|];
       [|destruct (parse_entries _ _ _ _) as [[row lijst]|err]|]|]];
    eexists _, _; (split; [reflexivity|]); simpl; eauto.
Qed.

Lemma held_elem (st : State) w wk s :
  workers st !! w = Some wk → w_pc wk = Requesting s → s ∈ held st.
Proof.
  intros Hw Hpc. unfold held. apply list_elem_of_In, in_flat_map.
  exists wk. split; [by eapply list_elem_of_In, list_elem_of_lookup_2|].
  unfold held_by. rewrite Hpc. by left.
Qed.

Lemma held_joined (st : State) : joined st → held st = [].
Proof.
  unfold joined, held. induction 1 as [|wk ws Hwk _ IH]; simpl; [done|].
  rewrite IH, app_nil_r. unfold finished, held_by in *.
  by destruct (w_pc wk).
Qed.

Lemma held_spawn num_processes : held (spawn num_processes) = [].
Proof.
  unfold held. simpl. by induction (Z.to_nat num_processes).
Qed.

Section cursor_invariant.
Variable chunk_size : Z.
Variable object : Model.
Variable server : Server.
Variable total : Z.
Hypothesis chunk_pos : 1 ≤ chunk_size.
Hypothesis total_nonneg : 0 ≤ total.
Hypothesis past_end : ∀ n s, total ≤ s → server n s = Response 200 (Some []).

(** The first page offset at or beyond the end of the data. *)
Definition end_offset : Z :=
  (total + chunk_size - 1) / chunk_size * chunk_size.

(** A worker that will take no further offset: it has finished, or holds an
    offset at or beyond the end. *)
Definition spent (wk : Worker) : nat :=
  match w_pc wk with
  | AtLock => 0
  | Requesting s => if decide (total ≤ s) then 1 else 0
  | Exited | Crashed _ => 1
  end.

(** While the counter does not overflow, it has handed out exactly the page
    offsets below it, each to one worker, and it runs at most one page per
    worker beyond the end of the data. *)
Record cursor_inv (st : State) : Prop := {
  inv_handed :
    ∃ k : nat, cursor st = Z.of_nat k * chunk_size
      ∧ held st ++ requests st ≡ₚ offsets chunk_size k;
  inv_bound :
    cursor st
    ≤ end_offset + Z.of_nat (sum_list_with spent (workers st)) * chunk_size;
  inv_room :
    end_offset + Z.of_nat (length (workers st)) * chunk_size < 2 ^ 31
}.

Lemma end_offset_ge : total ≤ end_offset.
Proof.
  unfold end_offset.
  pose proof (Z.div_mod (total + chunk_size - 1) chunk_size).
  pose proof (Z.mod_pos_bound (total + chunk_size - 1) chunk_size). lia.
Qed.

Lemma end_offset_lt : end_offset < total + chunk_size.
Proof.
  unfold end_offset.
  pose proof (Z.div_mod (total + chunk_size - 1) chunk_size).
  pose proof (Z.mod_pos_bound (total + chunk_size - 1) chunk_size). lia.
Qed.

Lemma end_offset_next (k : nat) :
  Z.of_nat k * chunk_size < total →
  Z.of_nat k * chunk_size + chunk_size ≤ end_offset.
Proof.
  intros Hk. pose proof end_offset_ge as Hge. unfold end_offset in *.
  set (m := (total + chunk_size - 1) / chunk_size) in *.
  assert (Z.of_nat k < m) by nia. nia.
Qed.

Lemma spent_le_1 wk : (spent wk ≤ 1)%nat.
Proof. unfold spent. destruct (w_pc wk); try case_decide; lia. Qed.

Lemma spawn_cursor_inv num_processes :
  end_offset + Z.of_nat (Z.to_nat num_processes) * chunk_size < 2 ^ 31 →
  cursor_inv (spawn num_processes).
Proof.
  intros Hroom. pose proof end_offset_ge. split; simpl.
  - exists 0%nat. split; [lia|]. by rewrite held_spawn.
  - lia.
  - by rewrite length_replicate.
Qed.

(** The advance under the lock does not overflow the 32-bit counter. *)
Lemma take_offset_no_wrap w wk st :
  cursor_inv st → workers st !! w = Some wk → w_pc wk = AtLock →
  0 ≤ cursor st
  ∧ wrap32 (cursor st + chunk_size) = cursor st + chunk_size.
Proof.
  intros [(k & Hk & _) Hbound Hroom] Hw Hpc.
  pose proof (sum_list_with_le_length spent _ _ _ spent_le_1 Hw) as Hsum.
  assert (spent wk = 0%nat) as Hwk by (unfold spent; by rewrite Hpc).
  split; [nia|]. rewrite wrap32_id; nia.
Qed.

Lemma step_cursor_inv w st :
  cursor_inv st → cursor_inv (step chunk_size object server w st).
Proof.
  intros Hinv. pose proof Hinv as [(k & Hk & Hperm) Hbound Hroom].
  unfold step.
  destruct (workers st !! w) as [wk|] eqn:Hw; [|by split; eauto].
  pose proof (sum_list_with_le_length spent _ _ _ spent_le_1 Hw) as Hsum.
  destruct (w_pc wk) as [|s| |e] eqn:Hpc; [| |by split; eauto..].
  - (* the locked read-and-advance *)
    assert (spent wk = 0%nat) as Hwk by (unfold spent; by rewrite Hpc).
    assert (wrap32 (cursor st + chunk_size) = Z.of_nat (S k) * chunk_size)
      as Hnext
      by (destruct (take_offset_no_wrap w wk st) as [_ ->]; auto; lia).
    pose proof (sum_list_with_insert spent _ _ _
      {| w_pc := Requesting (cursor st); w_row := w_row wk |} Hw) as Hins.
    pose proof (flat_map_insert held_by _ _ _
      {| w_pc := Requesting (cursor st); w_row := w_row wk |} Hw) as Hheld.
    unfold held_by at 1 3 in Hheld. rewrite Hpc in Hheld. simpl in Hheld.
    split; simpl.
    + exists (S k). split; [done|]. unfold held. simpl.
      rewrite Hheld, offsets_S, <- Hperm, Hk. simpl.
      by rewrite Permutation_cons_append.
    + assert (spent {| w_pc := Requesting (cursor st); w_row := w_row wk |}
              = if decide (total ≤ cursor st) then 1%nat else 0%nat) as Hnew
        by reflexivity.
      rewrite Hnew, Hwk in Hins. rewrite Hnext.
      case_decide as Hend.
      * nia.
      * pose proof (end_offset_next k). nia.
    + by rewrite length_insert.
  - (* the request *)
    destruct (fetch_page_shape chunk_size object server w wk s st)
      as (wk' & files & Heq & Hpc').
    assert (total ≤ s → w_pc wk' = Exited) as Hend.
    { intros Hs. revert Heq. unfold fetch_page. rewrite past_end by done.
      simpl. unfold set_worker. simpl. intros [= Hws _].
      apply (f_equal (λ l, w_pc <$> l !! w)) in Hws.
      rewrite !list_lookup_insert_eq in Hws by (by eapply lookup_lt_Some).
      by injection Hws as <-. }
    rewrite Heq.
    pose proof (sum_list_with_insert spent _ _ _ wk' Hw) as Hins.
    pose proof (flat_map_insert held_by _ _ _ wk' Hw) as Hheld.
    assert (held_by wk' = []) as Hnone
      by (unfold held_by; destruct Hpc' as [->|[->|[? ->]]]; done).
    unfold held_by at 1 in Hheld. rewrite Hpc, Hnone in Hheld.
    split; simpl.
    + exists k. split; [done|]. unfold held. simpl.
      rewrite <- Hperm. unfold held.
      rewrite <- Hheld, (assoc_L (++)). simpl.
      by rewrite <- Permutation_cons_append.
    + assert (spent wk ≤ spent wk')%nat; [|nia].
      unfold spent at 1. rewrite Hpc. case_decide; [|lia].
      unfold spent. by rewrite Hend.
    + by rewrite length_insert.
Qed.

Lemma run_cursor_inv sched st :
  cursor_inv st → cursor_inv (run chunk_size object server sched st).
Proof.
  revert st. induction sched as [|w sched IH]; intros st Hst; [done|].
  apply IH, step_cursor_inv, Hst.
Qed.

(** A step of one worker leaves the others as they are. *)
Lemma step_frame w w' st :
  w ≠ w' →
  workers (step chunk_size object server w' st) !! w = workers st !! w.
Proof.
  intros Hne. unfold step.
  destruct (workers st !! w') as [wk|] eqn:Hw; [|done].
  destruct (w_pc wk) as [|s| |e]; [| |done..].
  - simpl. by rewrite list_lookup_insert_ne.
  - destruct (fetch_page_shape chunk_size object server w' wk s st)
      as (wk' & files & -> & _). simpl. by rewrite list_lookup_insert_ne.
Qed.

Lemma step_cursor_mono w st :
  cursor_inv st → cursor st ≤ cursor (step chunk_size object server w st).
Proof.
  intros Hinv. unfold step.
  destruct (workers st !! w) as [wk|] eqn:Hw; [|done].
  destruct (w_pc wk) as [|s| |e] eqn:Hpc; [| |done..].
  - simpl. destruct (take_offset_no_wrap w wk st) as [_ ->]; auto. lia.
  - destruct (fetch_page_shape chunk_size object server w wk s st)
      as (wk' & files & -> & _). done.
Qed.

(** *** Every worker reaches the end of the data *)

(** The pages that start at or after offset [c] and before the end. *)
Definition pages_left (c : Z) : nat :=
  Z.to_nat ((total - c + chunk_size - 1) / chunk_size).

Lemma pages_left_step c :
  c < total → pages_left c = S (pages_left (c + chunk_size)).
Proof.
  intros Hc. unfold pages_left.
  replace (total - c + chunk_size - 1)
    with (total - (c + chunk_size) + chunk_size - 1 + 1 * chunk_size) by lia.
  rewrite Z.div_add by lia.
  assert (0 ≤ (total - (c + chunk_size) + chunk_size - 1) / chunk_size)
    by (apply Z.div_pos; lia).
  lia.
Qed.

Lemma pages_left_mono c c' :
  c ≤ c' → (pages_left c' ≤ pages_left c)%nat.
Proof.
  intros Hc. unfold pages_left.
  assert ((total - c' + chunk_size - 1) / chunk_size
          ≤ (total - c + chunk_size - 1) / chunk_size)
    by (apply Z.div_le_mono; lia).
  lia.
Qed.

(** An upper bound on the scheduling steps worker [w] still needs: two per
    page that may still be handed to it, and two for the empty page. *)
Definition remaining (st : State) (w : nat) : nat :=
  match workers st !! w with
  | None => 0
  | Some wk =>
      match w_pc wk with
      | AtLock => 2 * pages_left (cursor st) + 2
      | Requesting s =>
          if decide (total ≤ s) then 1 else 2 * pages_left (cursor st) + 3
      | Exited | Crashed _ => 0
      end
  end.

Lemma remaining_other w w' st :
  cursor_inv st → w ≠ w' →
  (remaining (step chunk_size object server w' st) w ≤ remaining st w)%nat.
Proof.
  intros Hinv Hne. unfold remaining. rewrite step_frame by done.
  pose proof (pages_left_mono _ _ (step_cursor_mono w' st Hinv)).
  destruct (workers st !! w) as [wk|]; [|lia].
  destruct (w_pc wk); try case_decide; lia.
Qed.

Lemma remaining_own w st :
  cursor_inv st →
  (remaining (step chunk_size object server w st) w ≤ remaining st w - 1)%nat.
Proof.
  intros Hinv. unfold remaining at 2. unfold step.
  destruct (workers st !! w) as [wk|] eqn:Hw;
    [|unfold remaining; rewrite Hw; lia].
  pose proof (lookup_lt_Some _ _ _ Hw) as Hlt.
  destruct (w_pc wk) as [|s| |e] eqn:Hpc.
  - destruct (take_offset_no_wrap w wk st) as [_ Hnext]; auto.
    unfold remaining, take_offset. simpl.
    rewrite list_lookup_insert_eq by done. simpl. rewrite Hnext.
    case_decide; [lia|]. rewrite (pages_left_step (cursor st)); lia.
  - destruct (fetch_page_shape chunk_size object server w wk s st)
      as (wk' & files & Heq & Hpc').
    case_decide as Hend.
    + unfold fetch_page, remaining. rewrite past_end by done. simpl.
      rewrite list_lookup_insert_eq by done. simpl. lia.
    + rewrite Heq. unfold remaining. simpl.
      rewrite list_lookup_insert_eq by done.
      destruct Hpc' as [->|[->|[? ->]]]; lia.
  - unfold remaining. rewrite Hw, Hpc. lia.
  - unfold remaining. rewrite Hw, Hpc. lia.
Qed.

(** The turns of worker [w] in an interleaving. *)
Definition turns (w : nat) (sched : list nat) : nat :=
  length (filter (λ w', w' = w) sched).

Lemma run_remaining sched st w :
  cursor_inv st →
  (remaining (run chunk_size object server sched st) w
   ≤ remaining st w - turns w sched)%nat.
Proof.
  revert st. induction sched as [|w' sched IH]; intros st Hinv; simpl.
  - unfold turns. simpl. lia.
  - specialize (IH _ (step_cursor_inv w' st Hinv)).
    unfold turns in *. rewrite filter_cons. case_decide as Hw; simpl.
    + subst w'. pose proof (remaining_own w st Hinv). unfold run in *. lia.
    + pose proof (remaining_other w w' st Hinv). unfold run in *.
      assert (w ≠ w') by congruence. lia.
Qed.

(** No worker dies while every request is answered with a well-formed 200. *)
Definition alive (st : State) : Prop :=
  Forall (λ wk, ∀ e, w_pc wk ≠ Crashed e) (workers st).

Lemma step_alive w st :
  (∀ n s, 0 ≤ s → ∃ es, server n s = Response 200 (Some es)) →
  cursor_inv st → alive st → alive (step chunk_size object server w st).
Proof.
  intros Hok [(k & _ & Hperm) _ _] Halive. unfold step.
  destruct (workers st !! w) as [wk|] eqn:Hw; [|done].
  destruct (w_pc wk) as [|s| |e] eqn:Hpc; [| |done..].
  - apply Forall_insert; [done|]. by intros e.
  - assert (s ∈ offsets chunk_size k) as (i & _ & ->)%elem_of_offsets
      by (rewrite <- Hperm; apply elem_of_app; left; by eapply held_elem).
    unfold fetch_page, set_worker.
    destruct (Hok (length (requests st)) (Z.of_nat i * chunk_size))
      as [es ->]; [lia|]. simpl.
    destruct es as [|e es]; simpl.
    + apply Forall_insert; [done|]. by intros e.
    + destruct (parse_entries_returns (w_row wk) [] (e :: es)
                  (resp_keys object)) as ([row lijst] & Hparse).
      simpl in Hparse. rewrite Hparse. simpl.
      apply Forall_insert; [done|]. by intros e'.
Qed.

Lemma run_alive sched st :
  (∀ n s, 0 ≤ s → ∃ es, server n s = Response 200 (Some es)) →
  cursor_inv st → alive st → alive (run chunk_size object server sched st).
Proof.
  intros Hok. revert st.
  induction sched as [|w sched IH]; intros st Hinv Hst; [done|].
  apply IH; [by apply step_cursor_inv | by apply step_alive].
Qed.

End cursor_invariant.

Lemma step_length chunk_size object server w st :
  length (workers (step chunk_size object server w st)) = length (workers st).
Proof.
  unfold step. destruct (workers st !! w) as [wk|]; [|done].
  destruct (w_pc wk) as [|s| |e]; [| |done..].
  - simpl. apply length_insert.
  - destruct (fetch_page_shape chunk_size object server w wk s st)
      as (wk' & files & -> & _). simpl. apply length_insert.
Qed.

Lemma run_length chunk_size object server sched st :
  length (workers (run chunk_size object server sched st))
  = length (workers st).
Proof.
  revert st. induction sched as [|w sched IH]; intros st; [done|].
  unfold run in *. simpl. by rewrite IH, step_length.
Qed.

(** With every request answered by a well-formed 200, empty from the end
    of the data on, and room in the counter, a worker that gets its turns
    has exited. *)
Lemma fair_worker_exits chunk_size object server total num_processes sched w :
  1 ≤ chunk_size → 1 ≤ num_processes → 0 ≤ total →
  total + (num_processes + 1) * chunk_size < 2 ^ 31 →
  (∀ n s, 0 ≤ s → ∃ es, server n s = Response 200 (Some es)) →
  (∀ n s, total ≤ s → server n s = Response 200 (Some [])) →
  (w < Z.to_nat num_processes)%nat →
  (2 * pages_left chunk_size total 0 + 2 ≤ turns w sched)%nat →
  pc_of (run chunk_size object server sched (spawn num_processes)) w
  = Some Exited.
Proof.
  intros HC HN Htotal Hroom Hok Hpast Hw Hturns.
  set (final := run chunk_size object server sched (spawn num_processes)).
  assert (cursor_inv chunk_size total (spawn num_processes)) as Hinv.
  { apply spawn_cursor_inv; [lia..|].
    pose proof (end_offset_lt chunk_size total HC).
    rewrite Z2Nat.id by lia. lia. }
  assert (remaining chunk_size total final w
          ≤ remaining chunk_size total (spawn num_processes) w
            - turns w sched)%nat as Hrem
    by (apply (run_remaining chunk_size object server total); auto; lia).
  assert (alive final) as Hfinal
    by (apply (run_alive chunk_size object server total); auto;
        apply Forall_replicate; by intros e).
  assert (remaining chunk_size total (spawn num_processes) w
          = (2 * pages_left chunk_size total 0 + 2)%nat) as Hstart.
  { unfold remaining. simpl. by rewrite lookup_replicate_2. }
  rewrite Hstart in Hrem.
  assert (is_Some (workers final !! w)) as [wk Hwk].
  { apply lookup_lt_is_Some. unfold final.
    rewrite run_length. simpl. by rewrite length_replicate. }
  unfold pc_of. unfold remaining in Hrem. rewrite Hwk in *. simpl.
  pose proof (Forall_lookup_1 _ _ _ _ Hfinal Hwk) as Hnocrash.
  simpl in Hnocrash.
  destruct (w_pc wk) as [|s| |e]; try case_decide; try lia; [done|].
  by destruct (Hnocrash e).
Qed.

Lemma fair_schedule_joins chunk_size object server num_processes sched :
  (∀ w, (w < Z.to_nat num_processes)%nat →
     pc_of (run chunk_size object server sched (spawn num_processes)) w
     = Some Exited) →
  joined (run chunk_size object server sched (spawn num_processes)).
Proof.
  intros Hexit. apply Forall_lookup. intros w wk Hwk.
  assert (w < Z.to_nat num_processes)%nat as Hw.
  { apply lookup_lt_Some in Hwk. rewrite run_length in Hwk. simpl in Hwk.
    by rewrite length_replicate in Hwk. }
  specialize (Hexit w Hw). unfold pc_of in Hexit.
  rewrite Hwk in Hexit. simpl in Hexit. injection Hexit as Hexit.
  unfold finished. by rewrite Hexit.
Qed.

(** The loop is left through [break] exactly on a 200 response without
    entries. *)
Lemma step_exits chunk_size object server w st :
  pc_of st w ≠ Some Exited →
  pc_of (step chunk_size object server w st) w = Some Exited
  ↔ ∃ s, pc_of st w = Some (Requesting s)
       ∧ server (length (requests st)) s = Response 200 (Some []).
Proof.
  unfold pc_of, step. intros Hpc.
  destruct (workers st !! w) as [wk|] eqn:Hw;
    [|rewrite Hw; split; [done | by intros (? & ? & _)]].
  pose proof (lookup_lt_Some _ _ _ Hw) as Hlt. simpl in *.
  destruct (w_pc wk) as [|s| |e] eqn:Hwk.
  - simpl. rewrite list_lookup_insert_eq by done. simpl.
    split; [done | by intros (? & ? & _)].
  - unfold fetch_page, set_worker.
    destruct (server (length (requests st)) s) as [|code body] eqn:Hsrv;
      simpl.
    { rewrite list_lookup_insert_eq by done.
      split; [done | intros (? & [= <-] & ?); congruence]. }
    destruct (code =? 200) eqn:Hcode; simpl.
    2:{ rewrite list_lookup_insert_eq by done. simpl.
        split; [done|]. intros (? & [= <-] & ?).
        rewrite Hsrv in *. simplify_eq. }
    apply Z.eqb_eq in Hcode as ->.
    destruct body as [[|e es]|]; cbn -[parse_entries].
    + rewrite list_lookup_insert_eq by done. simpl. split; eauto.
    + destruct (parse_entries _ _ _ _) as [[row lijst]|err]; simpl;
        rewrite list_lookup_insert_eq by done; simpl;
        (split; [done | intros (? & [= <-] & ?); congruence]).
    + rewrite list_lookup_insert_eq by done. simpl.
      split; [done | intros (? & [= <-] & ?); congruence].
  - rewrite Hw. simpl. rewrite Hwk. done.
  - rewrite Hw. simpl. rewrite Hwk. split; [done | by intros (? & ? & _)].
Qed.

(** *** Pages of a dataset *)

Lemma page_nil dataset page_size s :
  1 ≤ page_size → 0 ≤ s →
  page dataset page_size s = [] ↔ Z.of_nat (length dataset) ≤ s.
Proof.
  intros HP Hs. unfold page. split.
  - intros Hnil. apply (f_equal length) in Hnil.
    rewrite length_take, length_drop in Hnil. simpl in Hnil. lia.
  - intros Hge. rewrite drop_ge by lia. by rewrite take_nil.
Qed.

Lemma concat_pages {A B} (f : A → B) (l : list A) (c n : nat) :
  concat ((λ i : nat, f <$> take c (drop (i * c) l)) <$> seq 0 n)
  = f <$> take (n * c) l.
Proof.
  induction n as [|n IH]; [done|].
  rewrite seq_S, fmap_app, concat_app, IH. simpl.
  rewrite app_nil_r, <- fmap_app, take_take_drop. do 2 f_equal. lia.
Qed.

Lemma page_count_spec dataset chunk_size (i : nat) :
  1 ≤ chunk_size →
  (i < page_count dataset chunk_size)%nat
  ↔ Z.of_nat i * chunk_size < Z.of_nat (length dataset).
Proof.
  intros HC. unfold page_count.
  set (n := Z.of_nat (length dataset)).
  pose proof (Z.div_mod (n + chunk_size - 1) chunk_size).
  pose proof (Z.mod_pos_bound (n + chunk_size - 1) chunk_size).
  assert (0 ≤ (n + chunk_size - 1) / chunk_size) by (apply Z.div_pos; lia).
  split; intros Hi; nia.
Qed.

Section fetch_complete.
Variable chunk_size : Z.
Variable object : Model.
Variable server : Server.
Variable dataset : list Element.
Hypothesis chunk_pos : 1 ≤ chunk_size.
Hypothesis served : serves dataset chunk_size server.

Let total : Z := Z.of_nat (length dataset).

Definition records_at (s : Z) : list Record :=
  (λ e, fill ∅ e (resp_keys object)) <$> page dataset chunk_size s.

(** While every request is served, the chunk files on disk are the non-empty
    pages requested so far, and a worker has exited only after the cursor
    passed the end of the data. *)
Record fetch_inv (st : State) : Prop := {
  fi_cursor : cursor_inv chunk_size total st;
  fi_rows :
    Forall (λ wk, dom (w_row wk) ⊆ list_to_set (resp_keys object).*2)
      (workers st);
  fi_done :
    Forall (λ wk, finished wk = true → total ≤ cursor st) (workers st);
  fi_files :
    ∀ f, written st !! f
         = if decide (f - chunk_size ∈ requests st ∧ f - chunk_size < total)
           then Some (records_at (f - chunk_size)) else None
}.

Lemma served_past_end n s :
  total ≤ s → server n s = Response 200 (Some []).
Proof.
  intros Hs. rewrite served by (unfold total in *; lia).
  do 2 f_equal. apply page_nil; unfold total in *; lia.
Qed.

Lemma spawn_fetch_inv num_processes :
  end_offset chunk_size total
    + Z.of_nat (Z.to_nat num_processes) * chunk_size < 2 ^ 31 →
  fetch_inv (spawn num_processes).
Proof.
  intros Hroom. split.
  - apply spawn_cursor_inv; unfold total; auto; lia.
  - simpl. apply Forall_replicate. simpl. set_solver.
  - simpl. apply Forall_replicate. done.
  - intros f. cbn [spawn written requests]. rewrite lookup_empty.
    case_decide as Hf; [|done]. by destruct Hf as [?%elem_of_nil _].
Qed.

(** A served request either finds an empty page, and the worker exits, or
    writes the page's records under the next offset. *)
Lemma fetch_page_served w wk s st :
  0 ≤ s → dom (w_row wk) ⊆ list_to_set (resp_keys object).*2 →
  (total ≤ s
   ∧ fetch_page chunk_size object server w wk s st
     = {| cursor := cursor st;
          workers := <[w:={| w_pc := Exited; w_row := w_row wk |}]> (workers st);
          written := written st;
          requests := requests st ++ [s] |})
  ∨ (s < total
     ∧ ∃ row, dom row ⊆ list_to_set (resp_keys object).*2
       ∧ fetch_page chunk_size object server w wk s st
         = {| cursor := cursor st;
              workers := <[w:={| w_pc := AtLock; w_row := row |}]> (workers st);
              written := <[s + chunk_size := records_at s]> (written st);
              requests := requests st ++ [s] |}).
Proof.
  intros Hs Hrow. pose proof (served (length (requests st)) s Hs) as Hsrv.
  pose proof (page_nil dataset chunk_size s chunk_pos Hs) as Hnil.
  unfold records_at.
  destruct (page dataset chunk_size s) as [|e es] eqn:Hpage.
  - left. split; [by apply Hnil|].
    unfold fetch_page, set_worker. by rewrite Hsrv.
  - right. split.
    { destruct (decide (s < total)) as [|Hge]; [done|].
      destruct Hnil as [_ Hnil]. unfold total in *. discriminate Hnil. lia. }
    destruct (parse_entries_Ok (w_row wk) [] (e :: es) (resp_keys object)
                Hrow) as (row & Hrow' & Hparse).
    exists row. split; [done|].
    unfold fetch_page, set_worker. rewrite Hsrv. cbn -[parse_entries].
    by rewrite Hparse.
Qed.

Lemma step_fetch_inv w st :
  fetch_inv st → fetch_inv (step chunk_size object server w st).
Proof.
  intros [Hcur Hrows Hdone Hfiles].
  assert (cursor_inv chunk_size total
            (step chunk_size object server w st)) as Hcur'.
  { apply step_cursor_inv; auto using served_past_end; unfold total; lia. }
  assert (cursor st ≤ cursor (step chunk_size object server w st)) as Hmono
    by (eapply step_cursor_mono; eauto; unfold total; lia).
  unfold step in *.
  destruct (workers st !! w) as [wk|] eqn:Hw; [|by split].
  pose proof (Forall_lookup_1 _ _ _ _ Hrows Hw) as Hrow. simpl in Hrow.
  destruct (w_pc wk) as [|s| |e] eqn:Hpc; [| |by split..].
  - split; [done|simpl in *..].
    + by apply Forall_insert.
    + apply Forall_insert; [|done].
      eapply Forall_impl; [exact Hdone|]. simpl. intros wk' Hwk' Hfin.
      specialize (Hwk' Hfin). lia.
    + done.
  - destruct Hcur as [(k & Hk & Hperm) _ _].
    assert (s ∈ offsets chunk_size k) as (i & Hi & ->)%elem_of_offsets
      by (rewrite <- Hperm; apply elem_of_app; left; by eapply held_elem).
    destruct (fetch_page_served w wk (Z.of_nat i * chunk_size) st)
      as [(Hend & Heq)|(Hlt & row & Hrow' & Heq)]; [lia | done | ..];
      rewrite Heq in *; clear Heq; (split; [done|simpl in *..]).
    + by apply Forall_insert.
    + apply Forall_insert; [done|]. intros _. nia.
    + intros f. rewrite Hfiles.
      apply decide_ext. rewrite elem_of_app, list_elem_of_singleton.
      intuition lia.
    + by apply Forall_insert.
    + by apply Forall_insert.
    + intros f.
      destruct (decide (f = Z.of_nat i * chunk_size + chunk_size))
        as [->|Hne].
      * rewrite lookup_insert_eq, decide_True.
        -- by replace (Z.of_nat i * chunk_size + chunk_size - chunk_size)
             with (Z.of_nat i * chunk_size) by lia.
        -- split; [|lia]. apply elem_of_app. right.
           apply list_elem_of_singleton. lia.
      * rewrite lookup_insert_ne, Hfiles by done.
        apply decide_ext. rewrite elem_of_app, list_elem_of_singleton.
        intuition lia.
Qed.

Lemma run_fetch_inv sched st :
  fetch_inv st → fetch_inv (run chunk_size object server sched st).
Proof.
  revert st. induction sched as [|w sched IH]; intros st Hst; [done|].
  apply IH, step_fetch_inv, Hst.
Qed.

End fetch_complete.

(** *** The chunk files of a complete fetch *)

Lemma NoDup_chunk_files object dataset chunk_size :
  1 ≤ chunk_size → NoDup (chunk_files object dataset chunk_size).*1.
Proof.
  intros HC. unfold chunk_files. rewrite <- list_fmap_compose.
  apply NoDup_fmap_2_strong; [|apply NoDup_seq].
  intros i j _ _. simpl. nia.
Qed.

Lemma elem_of_chunk_files object dataset chunk_size f recs :
  1 ≤ chunk_size →
  (f, recs) ∈ chunk_files object dataset chunk_size
  ↔ ∃ i : nat, Z.of_nat i * chunk_size < Z.of_nat (length dataset)
       ∧ f = Z.of_nat i * chunk_size + chunk_size
       ∧ recs = records_at chunk_size object dataset (Z.of_nat i * chunk_size).
Proof.
  intros HC. unfold chunk_files, chunk_file, records_at.
  rewrite list_elem_of_fmap. split.
  - intros (i & [= -> ->] & Hi%elem_of_seq). exists i.
    split; [apply page_count_spec; [done|lia]|]. split; [lia|done].
  - intros (i & Hi & -> & ->). exists i. split; [f_equal; lia|].
    apply elem_of_seq. apply page_count_spec in Hi; [lia|done].
Qed.

Lemma concat_chunk_files object dataset chunk_size :
  1 ≤ chunk_size →
  concat (chunk_files object dataset chunk_size).*2
  = (λ e, fill ∅ e (resp_keys object)) <$> dataset.
Proof.
  intros HC. unfold chunk_files. rewrite <- list_fmap_compose.
  rewrite (list_fmap_ext _
    (λ i : nat, (λ e, fill ∅ e (resp_keys object))
       <$> take (Z.to_nat chunk_size)
             (drop (i * Z.to_nat chunk_size) dataset))
    (seq 0 (page_count dataset chunk_size))).
  2:{ intros _ i _. unfold chunk_file, page. simpl. do 3 f_equal.
      rewrite Z2Nat.inj_mul by lia. by rewrite Nat2Z.id. }
  rewrite concat_pages, take_ge; [done|].
  unfold page_count.
  pose proof (Z.div_mod (Z.of_nat (length dataset) + chunk_size - 1)
                chunk_size).
  pose proof (Z.mod_pos_bound (Z.of_nat (length dataset) + chunk_size - 1)
                chunk_size).
  assert (0 ≤ (Z.of_nat (length dataset) + chunk_size - 1) / chunk_size)
    by (apply Z.div_pos; lia).
  apply Nat2Z.inj_le. rewrite Nat2Z.inj_mul, !Z2Nat.id by lia. nia.
Qed.

Lemma flatten_each dataset resp_keys :
  Forall2 (λ e rec, flatten e resp_keys = Ok rec) dataset
    ((λ e, fill ∅ e resp_keys) <$> dataset).
Proof.
  apply Forall2_fmap_r, Forall_Forall2_diag, Forall_forall.
  intros e _. apply fill_row_Ok.
Qed.

(** *** Sample data for the concrete runs below *)

Definition sample_model : Model :=
  {| tablename := "bodemgebruik";
     resp_keys := [("ID", "id"); ("RegioS", "regio_key")];
     natural_key := ["id"] |}.

Definition sample_entry (id regio : string) : Element :=
  Elem "{http://www.w3.org/2005/Atom}entry" None
    [Elem "{http://www.w3.org/2005/Atom}content" None
       [Elem "properties" None
          [Elem (schema +:+ "ID") (Some id) [];
           Elem (schema +:+ "RegioS") (Some regio) []]]].

Definition sample_record (id regio : string) : Record :=
  {[ "id" := Some id; "regio_key" := Some regio ]}.

Definition sample_dataset : list Element :=
  [sample_entry "0" "GM0363"; sample_entry "1" "GM0575";
   sample_entry "2" "NL01  "].

(** *** Results on the fetcher *)

(** C1. The rows are fetched exactly once, without duplicates and without
    gaps, for any number of workers and any interleaving, when the server
    answers every request with status 200, pages by the same size as the
    chunk size (at least 1) and the 32-bit counter has room for the data and
    one more chunk per worker. Then the parent's joins return once every
    worker has had its turns (two per page, and two more); and when they have
    returned, no offset was requested twice, every page offset below the end
    was requested, and the chunk files are the pages of the dataset, each
    under its own name, which put together are the flattened dataset in
    order. *)
Theorem bulk_fetch_each_row_once (chunk_size : Z) (object : Model)
    (server : Server) (dataset : list Element) (num_processes : Z)
    (sched : list nat) :
  1 ≤ chunk_size → 1 ≤ num_processes →
  serves dataset chunk_size server →
  Z.of_nat (length dataset) + (num_processes + 1) * chunk_size < 2 ^ 31 →
  let final := run chunk_size object server sched (spawn num_processes) in
  let files := chunk_files object dataset chunk_size in
  ((∀ w, (w < Z.to_nat num_processes)%nat →
      (2 * page_count dataset chunk_size + 2 ≤ turns w sched)%nat) →
   joined final)
  ∧ (joined final →
     NoDup (requests final)
     ∧ (∀ i : nat, Z.of_nat i * chunk_size < Z.of_nat (length dataset) →
          Z.of_nat i * chunk_size ∈ requests final)
     ∧ written final = list_to_map files
     ∧ NoDup files.*1
     ∧ Forall2 (λ e rec, flatten e (resp_keys object) = Ok rec)
         dataset (concat files.*2)).
Proof.
  intros HC HN Hserved Hroom final files.
  set (total := Z.of_nat (length dataset)) in *. split.
  { intros Hfair. apply fair_schedule_joins. intros w Hw.
    apply (fair_worker_exits chunk_size object server total);
      [done | done | lia | done | | | done |].
    - intros n s Hs. rewrite Hserved by done. eauto.
    - intros n s Hs. by apply (served_past_end chunk_size server dataset).
    - unfold pages_left. rewrite Z.sub_0_r. by apply Hfair. }
  intros Hjoined.
  assert (fetch_inv chunk_size object dataset final)
    as [[(k & Hk & Hperm) _ _] _ Hdone Hfiles].
  { apply (run_fetch_inv chunk_size object server); [done..|].
    apply (spawn_fetch_inv chunk_size object server); [done..|].
    pose proof (end_offset_lt chunk_size total HC).
    rewrite Z2Nat.id by lia. fold total. lia. }
  fold total in Hdone, Hfiles.
  rewrite (held_joined final Hjoined) in Hperm. simpl in Hperm.
  assert (total ≤ cursor final) as Hend.
  { destruct (workers final) as [|wk ws] eqn:Hws.
    - apply (f_equal length) in Hws. unfold final in Hws.
      rewrite run_length in Hws. simpl in Hws.
      rewrite length_replicate in Hws. lia.
    - apply Forall_cons in Hdone as [Hwk _]. apply Hwk.
      unfold joined in Hjoined. rewrite Hws in Hjoined.
      by apply Forall_cons in Hjoined as [? _]. }
  assert (∀ i : nat, Z.of_nat i * chunk_size < total →
            Z.of_nat i * chunk_size ∈ requests final) as Hall.
  { intros i Hi. rewrite Hperm. apply elem_of_offsets. exists i.
    split; [nia | done]. }
  split; [rewrite Hperm; by apply NoDup_offsets|].
  split; [exact Hall|].
  split; [|split; [by apply NoDup_chunk_files|]].
  - apply map_eq. intros f. rewrite Hfiles. symmetry. case_decide as Hf.
    + apply elem_of_list_to_map; [by apply NoDup_chunk_files|].
      apply elem_of_chunk_files; [done|]. destruct Hf as [Hreq Hlt].
      rewrite Hperm in Hreq.
      apply elem_of_offsets in Hreq as (i & Hi & Heq).
      exists i. rewrite <- Heq. fold total. split; [done|].
      split; [lia | done].
    + apply not_elem_of_list_to_map. intros Hin.
      apply list_elem_of_fmap in Hin as ([f' recs] & -> & Hin).
      apply elem_of_chunk_files in Hin as (i & Hi & -> & _); [|done].
      apply Hf. simpl.
      replace (Z.of_nat i * chunk_size + chunk_size - chunk_size)
        with (Z.of_nat i * chunk_size) by lia.
      split; [by apply Hall | done].
  - unfold files. rewrite concat_chunk_files by done. apply flatten_each.
Qed.

(** Two workers, chunks of two rows, three rows of data. *)
Lemma bulk_fetch_each_row_once_witness :
  let server : Server := λ _ s, Response 200 (Some (page sample_dataset 2 s)) in
  let final :=
    run 2 sample_model server
      [0; 1; 0; 1; 1; 0; 1; 0; 0; 1; 0; 1]%nat (spawn 2) in
  joined final
  ∧ NoDup (requests final)
  ∧ written final
    = {[ 2 := [sample_record "0" "GM0363"; sample_record "1" "GM0575"];
         4 := [sample_record "2" "NL01  "] ]}.
Proof.
  intros server final.
  destruct (bulk_fetch_each_row_once 2 sample_model server sample_dataset 2
              [0; 1; 0; 1; 1; 0; 1; 0; 0; 1; 0; 1]%nat)
    as (Hjoins & Hrows).
  - lia.
  - lia.
  - intros n s Hs. reflexivity.
  - vm_compute. reflexivity.
  - assert (joined final) as Hjoined.
    { apply Hjoins. intros w Hw. vm_compute in Hw.
      assert (w = 0 ∨ w = 1)%nat as [-> | ->] by lia; vm_compute; lia. }
    destruct (Hrows Hjoined) as (Hnodup & _ & Hfiles & _).
    split; [done|]. split; [exact Hnodup|]. unfold final. rewrite Hfiles.
    vm_compute. reflexivity.
Defined.

(** C1, as stated for every chunk size and with nothing said about the
    answers, fails on the code. A worker that gets a status other than 200
    goes on to the next offset, so the rows of that page are never fetched;
    and a chunk size other than the server's page size leaves gaps. With two
    rows of data, one worker, a server paging by one row: a 500 on the first
    request loses row 0, and a chunk size of 2 loses row 1. *)
Lemma bulk_fetch_can_skip_rows :
  let dataset := [sample_entry "0" "GM0363"; sample_entry "1" "GM0575"] in
  (let server : Server := λ n s,
     if (n =? 0)%nat then Response 500 None
     else Response 200 (Some (page dataset 1 s)) in
   let final := run 1 sample_model server [0; 0; 0; 0; 0; 0]%nat (spawn 1) in
   joined final
   ∧ requests final = [0; 1; 2]
   ∧ written final = {[ 2 := [sample_record "1" "GM0575"] ]})
  ∧ (let server : Server := λ _ s, Response 200 (Some (page dataset 1 s)) in
     let final := run 2 sample_model server [0; 0; 0; 0]%nat (spawn 1) in
     joined final
     ∧ requests final = [0; 2]
     ∧ written final = {[ 2 := [sample_record "0" "GM0363"] ]}).
Proof.
  split; (split; [vm_compute; repeat constructor|]);
    split; vm_compute; reflexivity.
Qed.

(** C8. A worker leaves its loop through [break] exactly when its request
    comes back with status 200 and no entries. When every request succeeds,
    the pages at or beyond the dataset size are empty, and the 32-bit counter
    has room for the data and one more chunk per worker, a worker that gets
    its turns (two per page of the data, and two more) has exited, whatever
    the interleaving; when all workers get them, the parent's joins return. *)
Theorem workers_exit_on_empty_page (object : Model) (server : Server)
    (num_processes total : Z) (sched : list nat) :
  1 ≤ num_processes → 0 ≤ total →
  total + (num_processes + 1) * 10000 < 2 ^ 31 →
  (∀ n s, ∃ es, server n s = Response 200 (Some es) ∧ (total ≤ s → es = [])) →
  let final := get_data_from_cbs object server num_processes sched in
  let enough := (2 * pages_left 10000 total 0 + 2)%nat in
  (∀ chunk_size w st, pc_of st w ≠ Some Exited →
     pc_of (step chunk_size object server w st) w = Some Exited
     ↔ ∃ s, pc_of st w = Some (Requesting s)
          ∧ server (length (requests st)) s = Response 200 (Some []))
  ∧ (∀ w, (w < Z.to_nat num_processes)%nat →
       (enough ≤ turns w sched)%nat → pc_of final w = Some Exited)
  ∧ ((∀ w, (w < Z.to_nat num_processes)%nat → (enough ≤ turns w sched)%nat) →
     joined final).
Proof.
  intros HN Htotal Hroom Hserver final enough.
  assert (∀ n s, 0 ≤ s → ∃ es, server n s = Response 200 (Some es)) as Hok
    by (intros n s _; destruct (Hserver n s) as (es & ? & _); eauto).
  assert (∀ n s, total ≤ s → server n s = Response 200 (Some [])) as Hpast.
  { intros n s Hs. destruct (Hserver n s) as (es & -> & Hes).
    by rewrite Hes. }
  assert (∀ w, (w < Z.to_nat num_processes)%nat →
            (enough ≤ turns w sched)%nat → pc_of final w = Some Exited)
    as Hexit
    by (intros w Hw Hturns;
        by apply (fair_worker_exits 10000 object server total)).
  split; [intros chunk_size w st; apply step_exits|].
  split; [exact Hexit|].
  intros Hfair. apply fair_schedule_joins. intros w Hw.
  by apply Hexit, Hfair.
Qed.

(** Two workers on 15000 rows: empty pages from offset 15000 on. *)
Lemma workers_exit_on_empty_page_witness :
  let server : Server := λ _ s,
    Response 200
      (Some (if decide (15000 ≤ s) then [] else [sample_entry "7" "GM0363"])) in
  pc_of (get_data_from_cbs sample_model server 2
           [0; 1; 1; 0; 0; 1; 1; 0; 0; 1; 0; 1]%nat) 1%nat
  = Some Exited.
Proof.
  intros server.
  destruct (workers_exit_on_empty_page sample_model server 2 15000
              [0; 1; 1; 0; 0; 1; 1; 0; 0; 1; 0; 1]%nat)
    as (_ & Hexit & _).
  - lia.
  - lia.
  - lia.
  - intros n s. eexists. split; [reflexivity|].
    intros Hs. by rewrite decide_True.
  - apply Hexit; vm_compute; lia.
Defined.

(** The worker of C8's boundary case: a dataset as long as the counter's
    range, every page below its end holding an entry. *)
Definition long_server : Server := λ _ s,
  Response 200
    (Some (if decide (2 ^ 31 ≤ s) then [] else [sample_entry "7" "GM0363"])).

Definition below_end (st : State) : Prop :=
  cursor st < 2 ^ 31
  ∧ Forall (λ wk, w_pc wk = AtLock
                  ∨ ∃ s, w_pc wk = Requesting s ∧ s < 2 ^ 31) (workers st).

Lemma step_below_end w st :
  below_end st → below_end (step 10000 sample_model long_server w st).
Proof.
  intros [Hcur Hws]. unfold step.
  destruct (workers st !! w) as [wk|] eqn:Hw; [|done].
  pose proof (Forall_lookup_1 _ _ _ _ Hws Hw) as Hwk. simpl in Hwk.
  destruct (w_pc wk) as [|s| |e] eqn:Hpc; [| |done..].
  - split; simpl; [apply wrap32_range|].
    apply Forall_insert; [done|]. right. eauto.
  - destruct Hwk as [|(s' & [= <-] & Hs)]; [done|].
    unfold fetch_page, long_server.
    rewrite decide_False by lia.
    cbn -[parse_entries sample_entry sample_model].
    destruct (parse_entries_returns (w_row wk) []
                [sample_entry "7" "GM0363"] (resp_keys sample_model))
      as ([row lijst] & ->).
    split; simpl; [done|]. apply Forall_insert; [done|]. by left.
Qed.

Lemma run_below_end sched st :
  below_end st → below_end (run 10000 sample_model long_server sched st).
Proof.
  revert st. induction sched as [|w sched IH]; intros st Hst; [done|].
  apply IH, step_below_end, Hst.
Qed.

(** C8, without a bound on the dataset size, fails on the code: the counter
    is a C [int]. With 2^31 rows, every request answered with status 200 and
    empty pages from offset 2^31 on, the counter wraps to a negative offset
    before it reaches the end, and the worker never sees an empty page. *)
Lemma counter_wraps_before_the_end :
  (∀ n s, ∃ es, long_server n s = Response 200 (Some es)
                ∧ (2 ^ 31 ≤ s → es = []))
  ∧ ¬ ∃ sched,
        pc_of (get_data_from_cbs sample_model long_server 1 sched) 0%nat
        = Some Exited.
Proof.
  split.
  - intros n s. unfold long_server. eexists. split; [reflexivity|].
    intros Hs. by rewrite decide_True.
  - intros (sched & Hexit).
    assert (below_end (get_data_from_cbs sample_model long_server 1 sched))
      as [_ Hws].
    { apply run_below_end. split; [done | repeat constructor]. }
    unfold pc_of in Hexit.
    destruct (workers _ !! 0%nat) as [wk|] eqn:Hwk; [|done].
    pose proof (Forall_lookup_1 _ _ _ _ Hws Hwk) as Hpc. simpl in *.
    injection Hexit as Hexit. rewrite Hexit in Hpc.
    by destruct Hpc as [|(? & ? & _)].
Qed.

(** C6. A response with a status other than 200 raises nothing and is not
    retried: the worker is back at the top of its loop with the page dropped
    (no chunk file written, the cursor untouched), and its next step takes
    the next offset from the shared cursor and goes on from there. *)
Theorem non_200_moves_to_next_offset (chunk_size : Z) (object : Model)
    (server : Server) (w : nat) (st : State) (s code : Z)
    (body : option (list Element)) :
  pc_of st w = Some (Requesting s) →
  server (length (requests st)) s = Response code body →
  code ≠ 200 →
  let st1 := step chunk_size object server w st in
  let st2 := step chunk_size object server w st1 in
  pc_of st1 w = Some AtLock
  ∧ cursor st1 = cursor st
  ∧ written st1 = written st
  ∧ requests st1 = requests st ++ [s]
  ∧ pc_of st2 w = Some (Requesting (cursor st))
  ∧ cursor st2 = wrap32 (cursor st + chunk_size)
  ∧ written st2 = written st
  ∧ requests st2 = requests st ++ [s].
Proof.
  intros Hpc Hsrv Hcode st1 st2. unfold pc_of in Hpc.
  destruct (workers st !! w) as [wk|] eqn:Hw; [|done].
  injection Hpc as Hpc. pose proof (lookup_lt_Some _ _ _ Hw) as Hlt.
  assert (st1 = {| cursor := cursor st;
                   workers := <[w:={| w_pc := AtLock; w_row := w_row wk |}]>
                                (workers st);
                   written := written st;
                   requests := requests st ++ [s] |}) as Hst1.
  { unfold st1, step. rewrite Hw, Hpc. unfold fetch_page. rewrite Hsrv.
    apply Z.eqb_neq in Hcode. by rewrite Hcode. }
  assert (workers st1 !! w = Some {| w_pc := AtLock; w_row := w_row wk |})
    as Hw1 by (rewrite Hst1; simpl; by apply list_lookup_insert_eq).
  assert (st2 = take_offset chunk_size w
                  {| w_pc := AtLock; w_row := w_row wk |} st1) as Hst2
    by (unfold st2, step; by rewrite Hw1).
  clear Hw1. clearbody st2. subst st2. clearbody st1. subst st1.
  unfold pc_of, take_offset. simpl.
  rewrite !list_lookup_insert_eq by (by rewrite ?length_insert). done.
Qed.

(** The first request of a run answered with 503. *)
Lemma non_200_moves_to_next_offset_witness :
  let server : Server := λ n s,
    if (n =? 0)%nat then Response 503 None else Response 200 (Some []) in
  let st := step 10000 sample_model server 0 (spawn 1) in
  pc_of (step 10000 sample_model server 0
           (step 10000 sample_model server 0 st)) 0%nat
  = Some (Requesting 10000).
Proof.
  intros server st.
  destruct (non_200_moves_to_next_offset 10000 sample_model server 0 st
              0 503 None) as (_ & _ & _ & _ & Hnext & _).
  - reflexivity.
  - reflexivity.
  - lia.
  - exact Hnext.
Defined.

(** C6, as stated, fails on the code: the worker does not stall. After a 503
    on its first request, at offset 0, the only worker asks for offset 10000
    and, that page being empty, leaves its loop. *)
Lemma non_200_does_not_stall :
  let server : Server := λ n s,
    if (n =? 0)%nat then Response 503 None else Response 200 (Some []) in
  let final :=
    get_data_from_cbs sample_model server 1 [0; 0; 0; 0]%nat in
  requests final = [0; 10000] ∧ pc_of final 0%nat = Some Exited.
Proof. split; vm_compute; reflexivity. Qed.

(** *** The fetcher against any server *)

Section any_server.
Variable chunk_size : Z.
Variable object : Model.
Variable server : Server.

(** Whatever the server answers: the [row] dictionaries hold mapped slots
    only, and every chunk file on disk is the page of one answer. *)
Definition one_page (st : State) (f : Z) (recs : list Record) : Prop :=
  ∃ (n : nat) es,
    requests st !! n = Some (f - chunk_size)
    ∧ server n (f - chunk_size) = Response 200 (Some es)
    ∧ es ≠ []
    ∧ recs = (λ e, fill ∅ e (resp_keys object)) <$> es.

Definition files_inv (st : State) : Prop :=
  Forall (λ wk, dom (w_row wk) ⊆ list_to_set (resp_keys object).*2)
    (workers st)
  ∧ map_Forall (one_page st) (written st).

Lemma one_page_sent st st' f recs s :
  requests st' = requests st ++ [s] →
  one_page st f recs → one_page st' f recs.
Proof.
  intros Hreq (n & es & Hn & Hrest). exists n, es. split; [|done].
  rewrite Hreq. by apply lookup_app_l_Some.
Qed.

Lemma step_files_inv w st :
  files_inv st → files_inv (step chunk_size object server w st).
Proof.
  intros [Hrows Hfiles]. unfold step.
  destruct (workers st !! w) as [wk|] eqn:Hw; [|done].
  pose proof (Forall_lookup_1 _ _ _ _ Hrows Hw) as Hrow. simpl in Hrow.
  destruct (w_pc wk) as [|s| |e] eqn:Hpc; [| |done..].
  - split; simpl; [by apply Forall_insert | done].
  - assert (∀ p, files_inv
               (set_worker w {| w_pc := p; w_row := w_row wk |}
                  {| cursor := cursor st; workers := workers st;
                     written := written st;
                     requests := requests st ++ [s] |})) as Hsent.
    { intros p. split; simpl; [by apply Forall_insert|].
      intros f recs Hf. eapply one_page_sent; [|by apply Hfiles]. done. }
    unfold fetch_page.
    destruct (server (length (requests st)) s) as [|code body] eqn:Hsrv;
      [apply Hsent|].
    destruct (code =? 200) eqn:Hcode; [|apply Hsent].
    apply Z.eqb_eq in Hcode as ->.
    destruct body as [[|e es]|]; [apply Hsent | | apply Hsent].
    destruct (parse_entries_Ok (w_row wk) [] (e :: es) (resp_keys object)
                Hrow) as (row & Hrow' & ->).
    split; simpl; [by apply Forall_insert|].
    apply map_Forall_insert_2.
    + exists (length (requests st)), (e :: es).
      replace (s + chunk_size - chunk_size) with s by lia. simpl.
      split; [by rewrite lookup_app_r, Nat.sub_diag by lia|]. done.
    + intros f recs Hf. eapply one_page_sent; [|by apply Hfiles]. done.
Qed.

Lemma run_files_inv sched st :
  files_inv st → files_inv (run chunk_size object server sched st).
Proof.
  revert st. induction sched as [|w sched IH]; intros st Hst; [done|].
  apply IH, step_files_inv, Hst.
Qed.

Lemma spawn_files_inv num_processes : files_inv (spawn num_processes).
Proof.
  split; simpl.
  - apply Forall_replicate. simpl. set_solver.
  - apply map_Forall_empty.
Qed.

(** Steps taken by workers that exist. *)
Definition moves (n : nat) (sched : list nat) : nat :=
  length (filter (λ w, (w < n)%nat) sched).

(** While no answer has status 200, no worker leaves its loop and no file
    is written; every second step of a worker is a request. *)
Definition spinning (st : State) (k : nat) : Prop :=
  Forall (λ wk, finished wk = false) (workers st)
  ∧ written st = ∅
  ∧ (2 * length (requests st) + length (held st) = k)%nat.

Lemma length_held_insert (st : list Worker) w wk wk' :
  st !! w = Some wk →
  (length (held_by wk) + length (flat_map held_by (<[w:=wk']> st))
   = length (held_by wk') + length (flat_map held_by st))%nat.
Proof.
  intros Hw. rewrite <- !length_app.
  apply Permutation_length. by apply flat_map_insert.
Qed.

Lemma step_spinning w st k :
  (∀ n s, ∃ code body, server n s = Response code body ∧ code ≠ 200) →
  spinning st k →
  spinning (step chunk_size object server w st)
    (if decide (w < length (workers st))%nat then S k else k).
Proof.
  intros Hdown (Hws & Hfiles & Hk). unfold step.
  destruct (workers st !! w) as [wk|] eqn:Hw.
  2:{ apply lookup_ge_None in Hw. by rewrite decide_False by lia. }
  pose proof (lookup_lt_Some _ _ _ Hw) as Hlt. rewrite decide_True by done.
  pose proof (Forall_lookup_1 _ _ _ _ Hws Hw) as Hwk. simpl in Hwk.
  unfold finished in Hwk.
  pose proof (length_held_insert (workers st) w wk) as Hheld.
  destruct (w_pc wk) as [|s| |e] eqn:Hpc; [| |done..].
  - unfold take_offset.
    split; [|split]; simpl; [by apply Forall_insert | done |].
    specialize (Hheld {| w_pc := Requesting (cursor st); w_row := w_row wk |}
                  Hw).
    assert (held_by wk = []) as Hnone by (unfold held_by; by rewrite Hpc).
    unfold held in *. cbn [workers]. rewrite Hnone in Hheld.
    simpl in Hheld. lia.
  - destruct (Hdown (length (requests st)) s) as (code & body & Hsrv & Hcode).
    unfold fetch_page, set_worker. rewrite Hsrv.
    apply Z.eqb_neq in Hcode. rewrite Hcode.
    split; [|split]; simpl; [by apply Forall_insert | done |].
    specialize (Hheld {| w_pc := AtLock; w_row := w_row wk |} Hw).
    assert (held_by wk = [s]) as Hone by (unfold held_by; by rewrite Hpc).
    unfold held in *. cbn [workers]. rewrite Hone in Hheld.
    simpl in Hheld. rewrite length_app. simpl. lia.
Qed.

Lemma run_spinning sched st k :
  (∀ n s, ∃ code body, server n s = Response code body ∧ code ≠ 200) →
  spinning st k →
  spinning (run chunk_size object server sched st)
    (k + moves (length (workers st)) sched).
Proof.
  intros Hdown. revert st k.
  induction sched as [|w sched IH]; intros st k Hst.
  - unfold moves. simpl. by rewrite Nat.add_0_r.
  - pose proof (step_spinning w st k Hdown Hst) as Hstep.
    apply IH in Hstep. unfold run in *. simpl.
    rewrite step_length in Hstep. unfold moves in *.
    rewrite filter_cons. case_decide; simpl in *; [|done].
    by rewrite <- Nat.add_succ_comm.
Qed.

(** While no request gets through, every worker dies on its first
    request. *)
Definition offline (st : State) : Prop :=
  Forall (λ wk, w_pc wk = AtLock ∨ (∃ s, w_pc wk = Requesting s)
                ∨ w_pc wk = Crashed RequestError) (workers st)
  ∧ written st = ∅
  ∧ length (requests st)
    = sum_list_with (λ wk, if finished wk then 1%nat else 0%nat) (workers st).

Definition steps_to_crash (st : State) (w : nat) : nat :=
  match w_pc <$> workers st !! w with
  | Some AtLock => 2
  | Some (Requesting _) => 1
  | _ => 0
  end.

Lemma step_offline w st :
  (∀ n s, server n s = ConnectionFailed) →
  offline st → offline (step chunk_size object server w st).
Proof.
  intros Hdown (Hws & Hfiles & Hreq). unfold step.
  destruct (workers st !! w) as [wk|] eqn:Hw; [|done].
  pose proof (Forall_lookup_1 _ _ _ _ Hws Hw) as Hwk. simpl in Hwk.
  pose proof (sum_list_with_insert
                (λ wk, if finished wk then 1%nat else 0%nat)
                (workers st) w wk) as Hsum.
  destruct (w_pc wk) as [|s| |e] eqn:Hpc; [| |done..].
  - unfold take_offset.
    split; [|split]; simpl; [apply Forall_insert; eauto | done |].
    specialize (Hsum {| w_pc := Requesting (cursor st); w_row := w_row wk |}
                  Hw).
    assert (finished wk = false) as Hnot by (unfold finished; by rewrite Hpc).
    cbv beta in Hsum. rewrite Hnot in Hsum. simpl in Hsum. lia.
  - unfold fetch_page, set_worker. rewrite Hdown.
    split; [|split]; simpl; [apply Forall_insert; eauto | done |].
    specialize (Hsum {| w_pc := Crashed RequestError; w_row := w_row wk |}
                  Hw).
    assert (finished wk = false) as Hnot by (unfold finished; by rewrite Hpc).
    cbv beta in Hsum. rewrite Hnot in Hsum. simpl in Hsum. rewrite length_app. simpl. lia.
Qed.

Lemma run_offline sched st :
  (∀ n s, server n s = ConnectionFailed) →
  offline st → offline (run chunk_size object server sched st).
Proof.
  intros Hdown. revert st.
  induction sched as [|w sched IH]; intros st Hst; [done|].
  by apply IH, step_offline.
Qed.

Lemma step_steps_to_crash w w' st :
  (∀ n s, server n s = ConnectionFailed) →
  steps_to_crash (step chunk_size object server w' st) w
  = if decide (w' = w) then pred (steps_to_crash st w)
    else steps_to_crash st w.
Proof.
  intros Hdown. unfold steps_to_crash, step.
  destruct (workers st !! w') as [wk|] eqn:Hw'.
  2:{ case_decide as Heq; [|done]. subst. by rewrite Hw'. }
  pose proof (lookup_lt_Some _ _ _ Hw') as Hlt.
  destruct (w_pc wk) as [|s| |e] eqn:Hpc.
  - simpl. case_decide as Heq.
    + subst. rewrite list_lookup_insert_eq, Hw' by done. simpl.
      by rewrite Hpc.
    + by rewrite list_lookup_insert_ne.
  - unfold fetch_page, set_worker. rewrite Hdown. simpl.
    case_decide as Heq.
    + subst. rewrite list_lookup_insert_eq, Hw' by done. simpl.
      by rewrite Hpc.
    + by rewrite list_lookup_insert_ne.
  - case_decide as Heq; [|done]. subst. rewrite Hw'. simpl. by rewrite Hpc.
  - case_decide as Heq; [|done]. subst. rewrite Hw'. simpl. by rewrite Hpc.
Qed.

Lemma run_steps_to_crash sched st w :
  (∀ n s, server n s = ConnectionFailed) →
  (steps_to_crash (run chunk_size object server sched st) w
   ≤ steps_to_crash st w - turns w sched)%nat.
Proof.
  intros Hdown. revert st.
  induction sched as [|w' sched IH]; intros st;
    [unfold turns; simpl; lia|].
  unfold run in *. simpl. etrans; [apply IH|].
  rewrite step_steps_to_crash by done. unfold turns.
  rewrite filter_cons. case_decide as Heq; simpl; lia.
Qed.

End any_server.

(** X2. Whatever the server answers and however the workers interleave, a
    chunk file on disk holds the flattened entries of one answer: the
    request for the offset in its name (the name less the chunk size) was
    sent, it came back with status 200 and at least one entry, and the file
    has one record per entry of that page, in order, each the flattening of
    its entry alone. No file is empty and none mixes two pages. *)
Theorem chunk_file_is_one_page (chunk_size : Z) (object : Model)
    (server : Server) (num_processes : Z) (sched : list nat) (f : Z)
    (recs : list Record) :
  let final := run chunk_size object server sched (spawn num_processes) in
  written final !! f = Some recs →
  ∃ (n : nat) es,
    requests final !! n = Some (f - chunk_size)
    ∧ server n (f - chunk_size) = Response 200 (Some es)
    ∧ es ≠ []
    ∧ Forall2 (λ e rec, flatten e (resp_keys object) = Ok rec) es recs.
Proof.
  intros final Hf.
  destruct (run_files_inv chunk_size object server sched
              (spawn num_processes)
              (spawn_files_inv chunk_size object server num_processes))
    as [_ Hfiles].
  destruct (Hfiles f recs Hf) as (n & es & Hn & Hsrv & Hes & ->).
  exists n, es. do 3 (split; [done|]). apply flatten_each.
Qed.

(** The first answer is an error, the second a page of two rows. *)
Lemma chunk_file_is_one_page_witness :
  let server : Server := λ n s,
    if (n =? 0)%nat then Response 500 None
    else Response 200 (Some (page sample_dataset 2 s)) in
  let final := run 2 sample_model server [0; 0; 0; 0]%nat (spawn 1) in
  ∃ (n : nat) es,
    requests final !! n = Some 2
    ∧ server n 2 = Response 200 (Some es)
    ∧ es ≠ []
    ∧ Forall2 (λ e rec, flatten e (resp_keys sample_model) = Ok rec) es
        [sample_record "2" "NL01  "].
Proof.
  intros server final.
  apply (chunk_file_is_one_page 2 sample_model server 1 [0; 0; 0; 0]%nat 4).
  vm_compute. reflexivity.
Defined.

(** X3. While the server answers every request with a status other than
    200, the fetcher neither stops nor fails: under any interleaving no
    worker has left its loop or raised (so no join returns), no chunk file
    is written, and the workers keep sending requests, one for every second
    step a worker takes. *)
Theorem outage_keeps_workers_spinning (chunk_size : Z) (object : Model)
    (server : Server) (num_processes : Z) (sched : list nat) :
  (∀ n s, ∃ code body, server n s = Response code body ∧ code ≠ 200) →
  let final := run chunk_size object server sched (spawn num_processes) in
  Forall (λ wk, finished wk = false) (workers final)
  ∧ (1 ≤ num_processes → ¬ joined final)
  ∧ written final = ∅
  ∧ (2 * length (requests final) + length (held final)
     = moves (Z.to_nat num_processes) sched)%nat.
Proof.
  intros Hdown final.
  destruct (run_spinning chunk_size object server sched
              (spawn num_processes) 0 Hdown) as (Hws & Hfiles & Hk).
  { split; [by apply Forall_replicate|]. split; [done|].
    by rewrite held_spawn. }
  fold final in Hws, Hfiles, Hk. simpl in Hk.
  rewrite length_replicate in Hk.
  split; [done|]. split; [|done].
  intros HN Hjoined.
  destruct (workers final) as [|wk ws] eqn:Hfinal.
  - apply (f_equal length) in Hfinal. unfold final in Hfinal.
    rewrite run_length in Hfinal. simpl in Hfinal.
    rewrite length_replicate in Hfinal. lia.
  - unfold joined in Hjoined. rewrite Hfinal in Hjoined.
    apply Forall_cons in Hws as [Hwk _].
    apply Forall_cons in Hjoined as [Hwk' _]. congruence.
Qed.

(** Two workers against a server that answers 503 to everything. *)
Lemma outage_keeps_workers_spinning_witness :
  let server : Server := λ _ _, Response 503 None in
  let final :=
    run 10000 sample_model server [0; 1; 1; 0; 0; 7; 1; 0]%nat (spawn 2) in
  ¬ joined final
  ∧ written final = ∅
  ∧ requests final = [10000; 0; 20000]
  ∧ held final = [30000].
Proof.
  intros server final.
  destruct (outage_keeps_workers_spinning 10000 sample_model server 2
              [0; 1; 1; 0; 0; 7; 1; 0]%nat) as (_ & Hjoin & Hfiles & _).
  - intros n s. exists 503, None. split; [reflexivity | lia].
  - split; [apply Hjoin; lia|]. split; [exact Hfiles|].
    split; vm_compute; reflexivity.
Defined.

(** X4. When no request gets through ([requests.get] raises), every worker
    dies with the request error on its first request and is not restarted:
    under any interleaving nothing is written and at most one request per
    worker is sent; once every worker has taken two steps, all of them have
    raised, exactly one request per worker was sent, and the parent's joins
    return as after a complete fetch. *)
Theorem transport_failure_ends_every_worker (chunk_size : Z) (object : Model)
    (server : Server) (num_processes : Z) (sched : list nat) :
  (∀ n s, server n s = ConnectionFailed) →
  let final := run chunk_size object server sched (spawn num_processes) in
  written final = ∅
  ∧ (length (requests final) ≤ Z.to_nat num_processes)%nat
  ∧ ((∀ w, (w < Z.to_nat num_processes)%nat → (2 ≤ turns w sched)%nat) →
     joined final
     ∧ Forall (λ wk, w_pc wk = Crashed RequestError) (workers final)
     ∧ length (requests final) = Z.to_nat num_processes).
Proof.
  intros Hdown final.
  destruct (run_offline chunk_size object server sched
              (spawn num_processes) Hdown) as (Hws & Hfiles & Hreq).
  { split; [apply Forall_replicate; by left|]. split; [done|].
    simpl. by induction (Z.to_nat num_processes). }
  fold final in Hws, Hfiles, Hreq.
  assert (length (workers final) = Z.to_nat num_processes) as Hlen.
  { unfold final. rewrite run_length. simpl. apply length_replicate. }
  split; [done|]. split.
  { rewrite Hreq, <- Hlen. clear.
    induction (workers final) as [|wk ws IH]; simpl; [lia|].
    destruct (finished wk); lia. }
  intros Hfair.
  assert (Forall (λ wk, w_pc wk = Crashed RequestError) (workers final))
    as Hdead.
  { apply Forall_lookup. intros w wk Hwk.
    pose proof (lookup_lt_Some _ _ _ Hwk) as Hw. rewrite Hlen in Hw.
    pose proof (run_steps_to_crash chunk_size object server sched
                  (spawn num_processes) w Hdown) as Hsteps.
    fold final in Hsteps. specialize (Hfair w Hw).
    pose proof (Forall_lookup_1 _ _ _ _ Hws Hwk) as Hpc. simpl in Hpc.
    unfold steps_to_crash in Hsteps at 1. rewrite Hwk in Hsteps.
    simpl in Hsteps.
    assert (steps_to_crash (spawn num_processes) w ≤ 2)%nat.
    { unfold steps_to_crash. repeat case_match; lia. }
    destruct Hpc as [Hpc|[[s Hpc]|Hpc]]; [| |done];
      rewrite Hpc in Hsteps; lia. }
  split; [|split; [done|]].
  - eapply Forall_impl; [exact Hdead|]. intros wk Hwk.
    unfold finished. by rewrite Hwk.
  - rewrite Hreq, <- Hlen. clear -Hdead.
    induction Hdead as [|wk ws Hwk _ IH]; simpl; [done|].
    unfold finished at 1. by rewrite Hwk, IH.
Qed.

(** Three workers and no network. *)
Lemma transport_failure_ends_every_worker_witness :
  let server : Server := λ _ _, ConnectionFailed in
  let final :=
    get_data_from_cbs sample_model server 3 [0; 1; 1; 2; 0; 2; 0]%nat in
  joined final
  ∧ written final = ∅
  ∧ requests final = [10000; 0; 20000].
Proof.
  intros server final.
  destruct (transport_failure_ends_every_worker 10000 sample_model server 3
              [0; 1; 1; 2; 0; 2; 0]%nat) as (Hfiles & _ & Hfair).
  - reflexivity.
  - destruct Hfair as (Hjoined & _).
    + intros w Hw. vm_compute in Hw.
      assert (w = 0 ∨ w = 1 ∨ w = 2)%nat as [->|[->| ->]] by lia;
        vm_compute; lia.
    + split; [exact Hjoined|]. split; [exact Hfiles|].
      vm_compute. reflexivity.
Defined.

Lemma run_no_workers chunk_size object server sched st :
  workers st = [] → run chunk_size object server sched st = st.
Proof.
  intros Hws. induction sched as [|w sched IH]; [done|].
  unfold run in *. simpl. unfold step at 2. by rewrite Hws.
Qed.

(** X5. With a number of processes of zero or less, [get_data_from_cbs]
    starts no worker: it returns at once, with no request sent and no chunk
    file written. *)
Theorem no_workers_fetch_nothing (object : Model) (server : Server)
    (num_processes : Z) (sched : list nat) :
  num_processes ≤ 0 →
  let final := get_data_from_cbs object server num_processes sched in
  joined final ∧ requests final = [] ∧ written final = ∅.
Proof.
  intros HN final. unfold final, get_data_from_cbs.
  rewrite run_no_workers.
  - split; [|done]. unfold joined, spawn. simpl.
    replace (Z.to_nat num_processes) with 0%nat by lia. constructor.
  - unfold spawn. simpl. by replace (Z.to_nat num_processes) with 0%nat by lia.
Qed.

Lemma no_workers_fetch_nothing_witness :
  let server : Server := λ _ s, Response 200 (Some (page sample_dataset 2 s)) in
  let final := get_data_from_cbs sample_model server 0 [0; 1; 0]%nat in
  joined final ∧ requests final = [] ∧ written final = ∅.
Proof.
  intros server final.
  apply (no_workers_fetch_nothing sample_model server 0 [0; 1; 0]%nat). lia.
Defined.

(** *** Offsets handed out under the lock *)

Section any_answers.
Variable chunk_size : Z.
Variable object : Model.
Variable server : Server.
Hypothesis chunk_pos : 1 ≤ chunk_size.

(** After at most [n] steps the counter has handed out the first page
    offsets, each once, to a worker that holds it or has requested it. *)
Definition handed (st : State) (n : nat) : Prop :=
  ∃ k : nat, (k ≤ n)%nat
    ∧ cursor st = Z.of_nat k * chunk_size
    ∧ held st ++ requests st ≡ₚ offsets chunk_size k.

Lemma step_handed w st n :
  (Z.of_nat n + 1) * chunk_size < 2 ^ 31 →
  handed st n → handed (step chunk_size object server w st) (S n).
Proof.
  intros Hroom (k & Hk & Hcur & Hperm). unfold step.
  destruct (workers st !! w) as [wk|] eqn:Hw; [|exists k; auto with lia].
  destruct (w_pc wk) as [|s| |e] eqn:Hpc; [| |exists k; auto with lia..].
  - pose proof (flat_map_insert held_by _ _ _
      {| w_pc := Requesting (cursor st); w_row := w_row wk |} Hw) as Hheld.
    unfold held_by at 1 3 in Hheld. rewrite Hpc in Hheld. simpl in Hheld.
    exists (S k). split; [lia|]. simpl. split; [rewrite wrap32_id; nia|].
    unfold held. simpl.
    rewrite Hheld, offsets_S, <- Hperm, Hcur. simpl.
    by rewrite Permutation_cons_append.
  - destruct (fetch_page_shape chunk_size object server w wk s st)
      as (wk' & files & -> & Hpc').
    pose proof (flat_map_insert held_by _ _ _ wk' Hw) as Hheld.
    assert (held_by wk' = []) as Hnone
      by (unfold held_by; destruct Hpc' as [->|[->|[? ->]]]; done).
    unfold held_by at 1 in Hheld. rewrite Hpc, Hnone in Hheld.
    exists k. split; [lia|]. simpl. split; [done|].
    rewrite <- Hperm. unfold held. simpl.
    rewrite <- Hheld, (assoc_L (++)). simpl.
    by rewrite <- Permutation_cons_append.
Qed.

Lemma run_handed sched st n :
  Z.of_nat (n + length sched) * chunk_size < 2 ^ 31 →
  handed st n →
  handed (run chunk_size object server sched st) (n + length sched).
Proof.
  revert st n. induction sched as [|w sched IH]; intros st n Hroom Hst.
  - simpl. by rewrite Nat.add_0_r.
  - simpl in *. replace (n + S (length sched))%nat
      with (S n + length sched)%nat in * by lia.
    apply IH; [done|]. apply step_handed; [nia | done].
Qed.

End any_answers.

(** X16. Whatever the server answers, the counter hands out each page
    offset once: while the 32-bit counter cannot have wrapped (the number of
    steps taken times the chunk size stays below 2^31), the offsets requested
    or held by a worker are exactly the multiples of the chunk size below the
    counter, without duplicates, so no offset is requested twice. *)
Theorem offsets_are_handed_out_once (chunk_size : Z) (object : Model)
    (server : Server) (num_processes : Z) (sched : list nat) :
  1 ≤ chunk_size →
  Z.of_nat (length sched) * chunk_size < 2 ^ 31 →
  let final := run chunk_size object server sched (spawn num_processes) in
  NoDup (held final ++ requests final)
  ∧ ∃ k : nat, cursor final = Z.of_nat k * chunk_size
      ∧ ∀ s, s ∈ held final ++ requests final
             ↔ ∃ i : nat, (i < k)%nat ∧ s = Z.of_nat i * chunk_size.
Proof.
  intros HC Hroom final.
  destruct (run_handed chunk_size object server HC sched
              (spawn num_processes) 0) as (k & _ & Hcur & Hperm).
  - done.
  - exists 0%nat. split; [done|]. split; [done|]. simpl.
    by rewrite held_spawn.
  - fold final in Hcur, Hperm. split.
    + rewrite Hperm. by apply NoDup_offsets.
    + exists k. split; [done|]. intros s. rewrite Hperm.
      apply elem_of_offsets.
Qed.

(** Two workers against a server that fails, errs and answers in turn. *)
Lemma offsets_are_handed_out_once_witness :
  let server : Server := λ n s,
    if (n =? 0)%nat then ConnectionFailed
    else if (n =? 1)%nat then Response 500 None
    else Response 200 (Some (page sample_dataset 2 s)) in
  let final :=
    run 2 sample_model server [0; 1; 1; 2; 0; 2; 1; 2; 1; 2]%nat (spawn 3) in
  NoDup (held final ++ requests final)
  ∧ requests final = [2; 0; 4].
Proof.
  intros server final.
  destruct (offsets_are_handed_out_once 2 sample_model server 3
              [0; 1; 1; 2; 0; 2; 1; 2; 1; 2]%nat) as [Hnodup _].
  - lia.
  - vm_compute. reflexivity.
  - split; [exact Hnodup|]. vm_compute. reflexivity.
Defined.

(** *** The number of requests of a complete fetch *)

Section fetch_cost.
Variable chunk_size : Z.
Variable object : Model.
Variable server : Server.
Variable dataset : list Element.
Hypothesis chunk_pos : 1 ≤ chunk_size.
Hypothesis served : serves dataset chunk_size server.

Let total : Z := Z.of_nat (length dataset).

(** The requests at or beyond the end of the data, and the workers that
    have left their loop. *)
Definition past_the_end (l : list Z) : nat :=
  length (filter (λ s, total ≤ s) l).

Definition finished_workers (st : State) : nat :=
  sum_list_with (λ wk, if finished wk then 1%nat else 0%nat) (workers st).

(** Each worker leaves on the one empty page it asked for. *)
Lemma step_cost w st :
  fetch_inv chunk_size object dataset st →
  past_the_end (requests st) = finished_workers st →
  past_the_end (requests (step chunk_size object server w st))
  = finished_workers (step chunk_size object server w st).
Proof.
  intros [[(k & Hk & Hperm) _ _] Hrows _ _] Hcost.
  unfold step, finished_workers in *.
  destruct (workers st !! w) as [wk|] eqn:Hw; [|done].
  pose proof (Forall_lookup_1 _ _ _ _ Hrows Hw) as Hrow. simpl in Hrow.
  pose proof (sum_list_with_insert
                (λ wk, if finished wk then 1%nat else 0%nat)
                (workers st) w wk) as Hsum.
  destruct (w_pc wk) as [|s| |e] eqn:Hpc; [| |done..].
  - unfold take_offset. simpl.
    specialize (Hsum {| w_pc := Requesting (cursor st); w_row := w_row wk |}
                  Hw).
    assert (finished wk = false) as Hnot by (unfold finished; by rewrite Hpc).
    cbv beta in Hsum. rewrite Hnot in Hsum. simpl in Hsum. lia.
  - assert (s ∈ offsets chunk_size k) as (i & Hi & ->)%elem_of_offsets
      by (rewrite <- Hperm; apply elem_of_app; left; by eapply held_elem).
    assert (finished wk = false) as Hnot by (unfold finished; by rewrite Hpc).
    destruct (fetch_page_served chunk_size object server dataset chunk_pos
                served w wk (Z.of_nat i * chunk_size) st)
      as [(Hend & ->)|(Hlt & row & _ & ->)]; [lia | done | ..]; simpl.
    + specialize (Hsum {| w_pc := Exited; w_row := w_row wk |} Hw).
      cbv beta in Hsum. rewrite Hnot in Hsum. simpl in Hsum.
      unfold past_the_end in *. rewrite filter_app, length_app.
      rewrite filter_cons, decide_True by done. simpl. lia.
    + specialize (Hsum {| w_pc := AtLock; w_row := row |} Hw).
      cbv beta in Hsum. rewrite Hnot in Hsum. simpl in Hsum.
      unfold past_the_end in *. rewrite filter_app, length_app.
      rewrite filter_cons, decide_False by (fold total; lia). simpl. lia.
Qed.

Lemma run_cost sched st :
  fetch_inv chunk_size object dataset st →
  past_the_end (requests st) = finished_workers st →
  past_the_end (requests (run chunk_size object server sched st))
  = finished_workers (run chunk_size object server sched st).
Proof.
  revert st. induction sched as [|w sched IH]; intros st Hinv Hst; [done|].
  apply IH.
  - by apply (step_fetch_inv chunk_size object server).
  - by apply step_cost.
Qed.

Lemma past_the_end_offsets (k : nat) :
  past_the_end (offsets chunk_size k)
  = (k - page_count dataset chunk_size)%nat.
Proof.
  unfold past_the_end. induction k as [|k IH]; [done|].
  rewrite offsets_S, filter_app, length_app, IH, filter_cons.
  pose proof (page_count_spec dataset chunk_size k chunk_pos) as Hpage.
  fold total in Hpage. case_decide; simpl; lia.
Qed.

End fetch_cost.

(** X17. A complete fetch costs one request per page of the data and one
    more per worker. When the server answers every request with status 200
    and the page of the chunk size that starts at the offset, and the 32-bit
    counter has room for the data and one more chunk per worker, then, once
    all workers have been joined, the number of requests sent is the number
    of pages plus the number of workers: each worker has left on the one
    empty page it asked for. *)
Theorem complete_fetch_request_count (chunk_size : Z) (object : Model)
    (server : Server) (dataset : list Element) (num_processes : Z)
    (sched : list nat) :
  1 ≤ chunk_size → 1 ≤ num_processes →
  serves dataset chunk_size server →
  Z.of_nat (length dataset) + (num_processes + 1) * chunk_size < 2 ^ 31 →
  let final := run chunk_size object server sched (spawn num_processes) in
  joined final →
  length (requests final)
  = (page_count dataset chunk_size + Z.to_nat num_processes)%nat.
Proof.
  intros HC HN Hserved Hroom final Hjoined.
  set (total := Z.of_nat (length dataset)) in *.
  assert (fetch_inv chunk_size object dataset (spawn num_processes))
    as Hspawn.
  { apply (spawn_fetch_inv chunk_size object server); [done..|].
    pose proof (end_offset_lt chunk_size total HC).
    rewrite Z2Nat.id by lia. fold total. lia. }
  pose proof (run_cost chunk_size object server dataset HC Hserved sched
                (spawn num_processes) Hspawn) as Hcost.
  assert (fetch_inv chunk_size object dataset final)
    as [[(k & Hk & Hperm) _ _] _ _ _]
    by (by apply (run_fetch_inv chunk_size object server)).
  fold final in Hcost.
  rewrite (held_joined final Hjoined) in Hperm. simpl in Hperm.
  assert (finished_workers final = Z.to_nat num_processes) as Hall.
  { unfold finished_workers.
    assert (length (workers final) = Z.to_nat num_processes) as <-.
    { unfold final. rewrite run_length. simpl. apply length_replicate. }
    clear -Hjoined. unfold joined in Hjoined.
    induction Hjoined as [|wk ws Hwk _ IH]; simpl; [done|].
    by rewrite Hwk, IH. }
  assert (length (requests final) = k) as Hlen.
  { rewrite Hperm. unfold offsets. by rewrite length_fmap, length_seq. }
  assert (past_the_end dataset (requests final)
          = (k - page_count dataset chunk_size)%nat) as Hpast.
  { rewrite <- (past_the_end_offsets chunk_size dataset HC k).
    unfold past_the_end. by rewrite Hperm. }
  rewrite Hcost in Hpast.
  - rewrite Hall in Hpast. lia.
  - unfold past_the_end, finished_workers. simpl.
    generalize (Z.to_nat num_processes). clear.
    intros n. induction n as [|n IH]; [done | exact IH].
Qed.

(** Three rows in chunks of two, fetched by two workers: two pages, four
    requests. *)
Lemma complete_fetch_request_count_witness :
  let server : Server := λ _ s, Response 200 (Some (page sample_dataset 2 s)) in
  let final :=
    run 2 sample_model server
      [0; 1; 0; 1; 1; 0; 1; 0; 0; 1; 0; 1]%nat (spawn 2) in
  length (requests final) = 4%nat.
Proof.
  intros server final.
  apply (complete_fetch_request_count 2 sample_model server sample_dataset 2
           [0; 1; 0; 1; 1; 0; 1; 0; 0; 1; 0; 1]%nat).
  - lia.
  - lia.
  - intros n s Hs. reflexivity.
  - vm_compute. reflexivity.
  - vm_compute. repeat constructor.
Defined.

End Fetch.

(** ** The metadata sync *)

Module Metadata.
Import Py Xml Store Fetch.

(** The remote end for the metadata feeds: the outcome of [requests.get(url)]. *)
Definition Web := string → http_result.

(** [parse_response_metadata]: the status code of the response is not looked
    at; whatever came back is parsed. *)
Definition parse_response_metadata (web : Web) (url : string)
    (object : Model) : result (list Record) :=
  match web url with
  | ConnectionFailed => Raise RequestError
  | Response _ body =>
      match body with
      | None => Raise ParseError
      | Some entries =>
          out ← parse_entries ∅ [] entries (resp_keys object);
          Ok out.2
      end
  end.

Definition metadata_url (key : string) : string :=
  "https://opendata.cbs.nl/ODataFeed/odata/03759ned/" +:+ key.

(** The database and the requests sent so far, in order. *)
Record Sync := {
  db : DB;
  fetched : list string
}.

(** [get_metadata_from_cbs]: the loop over [models_dict.items()]; an exception
    of the parser is not caught and ends the loop. *)
Fixpoint get_metadata_from_cbs (web : Web) (st : Sync)
    (models_dict : list (string * Model)) : Sync * result () :=
  match models_dict with
  | [] => (st, Ok ())
  | (key, value) :: rest =>
      let url := metadata_url key in
      match parse_response_metadata web url value with
      | Raise e => ({| db := db st; fetched := fetched st ++ [url] |}, Raise e)
      | Ok data =>
          get_metadata_from_cbs web
            {| db := upsert (db st) value data;
               fetched := fetched st ++ [url] |} rest
      end
  end.

Lemma get_metadata_app web st before after st1 :
  get_metadata_from_cbs web st before = (st1, Ok ()) →
  get_metadata_from_cbs web st (before ++ after)
  = get_metadata_from_cbs web st1 after.
Proof.
  revert st. induction before as [|[key value] before IH]; intros st Hst.
  - by injection Hst as <-.
  - simpl in *.
    destruct (parse_response_metadata web (metadata_url key) value);
      [by apply IH | done].
Qed.

(** C7. The metadata fetcher raises a request error exactly when the HTTP
    call itself fails, and a parse error on a body that is not XML; the
    status code of a response is not checked. On the first exception, the
    sync ends with it: the database holds what the kinds before it upserted,
    the failing kind was requested once, and no later kind was requested or
    upserted. *)
Theorem metadata_sync_aborts_on_first_exception (web : Web) (st st1 : Sync)
    (before after : list (string * Model)) (key : string) (value : Model)
    (e : exn) :
  get_metadata_from_cbs web st before = (st1, Ok ()) →
  parse_response_metadata web (metadata_url key) value = Raise e →
  (e = RequestError ↔ web (metadata_url key) = ConnectionFailed)
  ∧ get_metadata_from_cbs web st (before ++ (key, value) :: after)
    = ({| db := db st1; fetched := fetched st1 ++ [metadata_url key] |},
       Raise e).
Proof.
  intros Hbefore Hraise. split.
  - unfold parse_response_metadata in Hraise.
    destruct (web (metadata_url key)) as [|code [entries|]].
    + by injection Hraise as <-.
    + destruct (parse_entries_returns ∅ [] entries (resp_keys value))
        as (out & Hout).
      by rewrite Hout in Hraise.
    + injection Hraise as <-. by split.
  - rewrite (get_metadata_app _ _ _ _ _ Hbefore). simpl. by rewrite Hraise.
Qed.

Definition sample_kinds : list (string * Model) :=
  [("Geslacht",
    {| tablename := "geslacht";
       resp_keys := [("Key", "geslacht_key"); ("Title", "geslacht")];
       natural_key := ["geslacht_key"] |});
   ("Perioden",
    {| tablename := "perioden";
       resp_keys := [("Key", "datum_key"); ("Title", "jaar")];
       natural_key := ["datum_key"] |});
   ("RegioS",
    {| tablename := "regios";
       resp_keys := [("Key", "regio_key"); ("Title", "regio")];
       natural_key := ["regio_key"] |})].

Definition sample_feed (key title : string) : http_result :=
  Response 200
    (Some [Elem "{http://www.w3.org/2005/Atom}entry" None
             [Elem (schema +:+ "Key") (Some key) [];
              Elem (schema +:+ "Title") (Some title) []]]).

(** The second of three kinds cannot be reached. *)
Lemma metadata_sync_aborts_on_first_exception_witness :
  let web : Web := λ url,
    if decide (url = metadata_url "Perioden") then ConnectionFailed
    else sample_feed "T001038" "Totaal mannen en vrouwen" in
  let out :=
    get_metadata_from_cbs web {| db := ∅; fetched := [] |} sample_kinds in
  out.2 = Raise RequestError
  ∧ fetched out.1 = [metadata_url "Geslacht"; metadata_url "Perioden"]
  ∧ dom (db out.1) = {[ "geslacht" ]}.
Proof.
  intros web out.
  destruct (metadata_sync_aborts_on_first_exception web
              {| db := ∅; fetched := [] |}
              (get_metadata_from_cbs web {| db := ∅; fetched := [] |}
                 (take 1 sample_kinds)).1
              (take 1 sample_kinds) (drop 2 sample_kinds) "Perioden"
              (default sample_model (snd <$> sample_kinds !! 1%nat))
              RequestError) as [_ Hsync].
  - reflexivity.
  - reflexivity.
  - unfold out. change sample_kinds with
      (take 1 sample_kinds
         ++ ("Perioden", default sample_model (snd <$> sample_kinds !! 1%nat))
         :: drop 2 sample_kinds).
    rewrite Hsync. split; [reflexivity|]. split; [reflexivity|].
    vm_compute. reflexivity.
Defined.

(** C7, read for every call that does not succeed, fails on the code: a
    response with status 500 and an XML error document for a body raises
    nothing. The fetcher returns an empty list, and the sync upserts it and
    goes on to the next kinds. *)
Lemma http_error_status_is_not_raised :
  let web : Web := λ url,
    if decide (url = metadata_url "Perioden") then Response 500 (Some [])
    else sample_feed "T001038" "Totaal mannen en vrouwen" in
  let out :=
    get_metadata_from_cbs web {| db := ∅; fetched := [] |} sample_kinds in
  parse_response_metadata web (metadata_url "Perioden") sample_model = Ok []
  ∧ out.2 = Ok ()
  ∧ fetched out.1
    = [metadata_url "Geslacht"; metadata_url "Perioden"; metadata_url "RegioS"].
Proof. split; [|split]; vm_compute; reflexivity. Qed.

(** *** A sync that goes through *)

(** The feed of a kind came back as XML. *)
Definition parsable (web : Web) (kind : string * Model) : Prop :=
  ∃ code entries, web (metadata_url kind.1) = Response code (Some entries).

Lemma parse_response_metadata_Ok web url object :
  (∃ code entries, web url = Response code (Some entries))
  ↔ ∃ data, parse_response_metadata web url object = Ok data.
Proof.
  unfold parse_response_metadata. split.
  - intros (code & entries & ->).
    destruct (parse_entries_returns ∅ [] entries (resp_keys object))
      as (out & ->).
    by eexists.
  - intros (data & Hdata).
    destruct (web url) as [|code [entries|]]; [done | eauto | done].
Qed.

(** X6. One page of a metadata feed: whatever the status code of the
    response, a body that is XML gives one record per entry, in the order of
    the feed, and each record is the flattening of its own entry, although
    all of them are built in the one [row] dictionary of the call. *)
Theorem metadata_page_records (web : Web) (url : string) (object : Model)
    (code : Z) (entries : list Element) :
  web url = Response code (Some entries) →
  ∃ data, parse_response_metadata web url object = Ok data
    ∧ Forall2 (λ e rec, flatten e (resp_keys object) = Ok rec) entries data.
Proof.
  intros Hweb. unfold parse_response_metadata. rewrite Hweb.
  destruct (parse_entries_Ok ∅ [] entries (resp_keys object))
    as (row & _ & ->); [set_solver|].
  eexists. split; [reflexivity|]. apply flatten_each.
Qed.

(** A feed of two entries, the second without a title. *)
Lemma metadata_page_records_witness :
  let entries :=
    [Elem "{http://www.w3.org/2005/Atom}entry" None
       [Elem (schema +:+ "Key") (Some "GM0363") [];
        Elem (schema +:+ "Title") (Some "Amsterdam") []];
     Elem "{http://www.w3.org/2005/Atom}entry" None
       [Elem (schema +:+ "Key") (Some "GM0575") []]] in
  let web : Web := λ _, Response 404 (Some entries) in
  let regios :=
    {| tablename := "regios";
       resp_keys := [("Key", "regio_key"); ("Title", "regio")];
       natural_key := ["regio_key"] |} in
  parse_response_metadata web (metadata_url "RegioS") regios
  = Ok [ {[ "regio_key" := Some "GM0363"; "regio" := Some "Amsterdam" ]};
         {[ "regio_key" := Some "GM0575"; "regio" := None ]} ].
Proof.
  intros entries web regios.
  destruct (metadata_page_records web (metadata_url "RegioS") regios 404
              entries) as (data & -> & Hdata); [reflexivity|].
  f_equal.
  apply Forall2_cons_inv_l in Hdata as (r1 & data1 & Hr1 & Hdata & ->).
  apply Forall2_cons_inv_l in Hdata as (r2 & data2 & Hr2 & Hdata & ->).
  apply Forall2_nil_inv_l in Hdata as ->.
  vm_compute in Hr1, Hr2. by injection Hr1 as <-; injection Hr2 as <-.
Defined.

(** X7. With an upsert that does not raise, the metadata sync returns
    normally exactly when the feed of every kind comes back as XML, whatever
    the status codes; it has then requested the feed of each kind once, in
    the order of the dictionary, and nothing else. *)
Theorem metadata_sync_requests_each_kind_once (web : Web) (st : Sync)
    (models_dict : list (string * Model)) :
  let out := get_metadata_from_cbs web st models_dict in
  (out.2 = Ok () ↔ Forall (parsable web) models_dict)
  ∧ (out.2 = Ok () →
     fetched out.1
     = fetched st ++ map (λ kind, metadata_url kind.1) models_dict).
Proof.
  revert st. induction models_dict as [|[key value] rest IH]; intros st.
  - simpl. split; [by split | intros _; by rewrite app_nil_r].
  - simpl.
    pose proof (parse_response_metadata_Ok web (metadata_url key) value)
      as Hparse.
    destruct (parse_response_metadata web (metadata_url key) value)
      as [data|e].
    + destruct (IH {| db := upsert (db st) value data;
                      fetched := fetched st ++ [metadata_url key] |})
        as [Hiff Hfetched].
      split.
      * rewrite Hiff, Forall_cons. split; [|tauto].
        intros Hrest. split; [|done]. apply Hparse. eauto.
      * intros Hok. rewrite (Hfetched Hok). simpl.
        by rewrite <- (assoc_L (++)).
    + simpl. split; [|done]. split; [done|].
      intros [Hkey _]%Forall_cons. apply Hparse in Hkey as [? ?]. done.
Qed.

End Metadata.

(** ** Data frames *)

Module Frames.
Import Py Store.

(** A column of a polars frame. The measures are 64-bit floats (the kernel's
    binary64 numbers), the labels are strings; [None] is polars' null.
    Integer columns, which polars divides as floats, are not modelled
    apart. *)
Inductive Series :=
| Float64 (values : list (option float))
| Utf8 (values : list (option string)).

(** A frame: its named columns, in order. The columns of a polars frame have
    distinct names and one length. *)
Abbreviation DataFrame := (list (string * Series)).

Definition len (s : Series) : nat :=
  match s with
  | Float64 vs => length vs
  | Utf8 vs => length vs
  end.

Definition columns (df : DataFrame) : list string := df.*1.

Definition height (df : DataFrame) : nat :=
  match df with
  | [] => 0
  | (_, s) :: _ => len s
  end.

Definition well_formed (df : DataFrame) : Prop :=
  NoDup (columns df) ∧ Forall (λ c, len c.2 = height df) df.

Fixpoint get (df : DataFrame) (name : string) : option Series :=
  match df with
  | [] => None
  | (n, s) :: rest => if String.eqb n name then Some s else get rest name
  end.

(** [df[name]] and [pl.col(name)] evaluated on [df]. *)
Definition col (df : DataFrame) (name : string) : result Series :=
  match get df name with
  | Some s => Ok s
  | None => Raise ColumnNotFoundError
  end.

(** [df.with_columns(expr.alias(name))]: a column of that name is replaced
    where it stands, a new name is appended. *)
Fixpoint with_column (df : DataFrame) (name : string) (s : Series)
  : DataFrame :=
  match df with
  | [] => [(name, s)]
  | (n, c) :: rest =>
      if String.eqb n name then (n, s) :: rest
      else (n, c) :: with_column rest name s
  end.

(** Arithmetic on two columns, row by row; a null operand gives null, and a
    column of strings is refused. *)
Definition lift2 (op : float → float → float) (x y : option float)
  : option float :=
  match x, y with
  | Some a, Some b => Some (op a b)
  | _, _ => None
  end.

Definition arith (op : float → float → float) (a b : Series)
  : result Series :=
  match a, b with
  | Float64 xs, Float64 ys => Ok (Float64 (zip_with (lift2 op) xs ys))
  | _, _ => Raise InvalidOperationError
  end.

(** The value of a cell as a group key of [over]: nulls form one group, and
    so do the NaNs; 0.0 and -0.0 are one key. *)
Inductive Cell :=
| CNull
| CFloat (x : float)
| CStr (s : string).

Definition cells (s : Series) : list Cell :=
  match s with
  | Float64 vs => map (λ v, match v with Some x => CFloat x | None => CNull end) vs
  | Utf8 vs => map (λ v, match v with Some x => CStr x | None => CNull end) vs
  end.

Definition cell_eqb (a b : Cell) : bool :=
  match a, b with
  | CNull, CNull => true
  | CFloat x, CFloat y =>
      PrimFloat.eqb x y || (PrimFloat.is_nan x && PrimFloat.is_nan y)
  | CStr s, CStr t => String.eqb s t
  | _, _ => false
  end.

(** [expr.shift(1).over(keys)]: each row gets the value of the previous row
    with the same key, null when there is none. [seen] holds the rows
    already passed, the latest first. *)
Definition previous {A} (seen : list (Cell * option A)) (k : Cell)
  : option A :=
  match find (λ kv, cell_eqb kv.1 k) seen with
  | Some (_, v) => v
  | None => None
  end.

Fixpoint shift_over {A} (seen : list (Cell * option A)) (keys : list Cell)
    (vals : list (option A)) : list (option A) :=
  match keys, vals with
  | k :: keys', v :: vals' =>
      previous seen k :: shift_over ((k, v) :: seen) keys' vals'
  | _, _ => []
  end.

Definition shift1_over (keys s : Series) : Series :=
  match s with
  | Float64 vs => Float64 (shift_over [] (cells keys) vs)
  | Utf8 vs => Utf8 (shift_over [] (cells keys) vs)
  end.

(** [df.fill_nan(0)] *)
Definition fill_nan_cell (v : option float) : option float :=
  match v with
  | Some x => if PrimFloat.is_nan x then Some 0%float else Some x
  | None => None
  end.

Definition fill_nan_series (s : Series) : Series :=
  match s with
  | Float64 vs => Float64 (map fill_nan_cell vs)
  | Utf8 vs => Utf8 vs
  end.

Definition fill_nan (df : DataFrame) : DataFrame :=
  map (λ c, (c.1, fill_nan_series c.2)) df.

(** The detour through pandas: [to_pandas] turns a null of a float column
    into NaN, [replace([inf, -inf], 0)] zeroes the infinities, and
    [pl.from_pandas] reads NaN back as null. *)
Definition to_pandas_cell (v : option float) : float := default nan v.

Definition replace_inf (x : float) : float :=
  if PrimFloat.is_infinity x then 0%float else x.

Definition from_pandas_cell (x : float) : option float :=
  if PrimFloat.is_nan x then None else Some x.

Definition through_pandas_series (s : Series) : Series :=
  match s with
  | Float64 vs =>
      Float64 (map (λ v, from_pandas_cell (replace_inf (to_pandas_cell v))) vs)
  | Utf8 vs => Utf8 vs
  end.

Definition through_pandas (df : DataFrame) : DataFrame :=
  map (λ c, (c.1, through_pandas_series c.2)) df.

(** A loop [for column in cols: df = body(df, column)] that an exception
    leaves. *)
Fixpoint for_each (body : DataFrame → string → result DataFrame)
    (df : DataFrame) (cols : list string) : result DataFrame :=
  match cols with
  | [] => Ok df
  | column :: rest => df' ← body df column; for_each body df' rest
  end.

Definition not_excluded (df : DataFrame) (columns_to_exclude : list string)
  : list string :=
  filter (λ c, c ∉ columns_to_exclude) (columns df).

(** One round of the loop of [growth_columns_by_year]. *)
Definition growth_round (df : DataFrame) (column : string)
  : result DataFrame :=
  value ← col df column;
  regio ← col df "regio";
  let df1 :=
    with_column df (column +:+ "_previous_moment") (shift1_over regio value) in
  current ← col df1 column;
  before ← col df1 (column +:+ "_previous_moment");
  difference ← arith PrimFloat.sub current before;
  growth ← arith PrimFloat.div difference before;
  let df2 := with_column df1 (column +:+ "_growth") growth in
  Ok (fill_nan df2).

(** The frame as polars leaves it, before the detour through pandas. *)
Definition growth_rounds (df : DataFrame) (columns_to_exclude : list string)
  : result DataFrame :=
  for_each growth_round df (not_excluded df columns_to_exclude).

Definition growth_columns_by_year (df : DataFrame)
    (columns_to_exclude : list string) : result DataFrame :=
  df' ← growth_rounds df columns_to_exclude;
  Ok (through_pandas df').

(** [divide_columns_by_column]: the frame it returns, or the exception, and
    the caller's list as the call leaves it. *)
Definition divide_round (divide_by_column : string) (df : DataFrame)
    (column : string) : result DataFrame :=
  numerator ← col df column;
  denominator ← col df divide_by_column;
  quotient ← arith PrimFloat.div numerator denominator;
  Ok (with_column df (column +:+ "_relative") quotient).

Definition divide_columns_by_column (df : DataFrame)
    (divide_by_column : string) (columns_to_exclude : list string)
  : result DataFrame * list string :=
  let columns_to_exclude := columns_to_exclude ++ [divide_by_column] in
  let columns_to_divide := not_excluded df columns_to_exclude in
  (for_each (divide_round divide_by_column) df columns_to_divide,
   columns_to_exclude).

(** *** Column names *)

Lemma chars_app a b :
  String.list_ascii_of_string (a +:+ b)
  = String.list_ascii_of_string a ++ String.list_ascii_of_string b.
Proof. induction a as [|c a IH]; simpl; [done | by rewrite IH]. Qed.

Lemma chars_inj a b :
  String.list_ascii_of_string a = String.list_ascii_of_string b → a = b.
Proof.
  intros H. rewrite <- (String.string_of_list_ascii_of_string a), H.
  apply String.string_of_list_ascii_of_string.
Qed.

Lemma suffix_cancel a b s : a +:+ s = b +:+ s → a = b.
Proof.
  intros H. apply chars_inj. apply (f_equal String.list_ascii_of_string) in H.
  rewrite !chars_app in H. by apply app_inv_tail in H.
Qed.

Definition last_char (s : string) : option Ascii.ascii :=
  last (String.list_ascii_of_string s).

Lemma last_char_app a s : s ≠ "" → last_char (a +:+ s) = last_char s.
Proof.
  intros Hs. unfold last_char. rewrite chars_app, last_app.
  destruct (last (String.list_ascii_of_string s)) eqn:Hlast; [done|].
  apply last_None in Hlast. by destruct s.
Qed.

Lemma length_app_string a b :
  String.length (a +:+ b) = (String.length a + String.length b)%nat.
Proof. induction a as [|c a IH]; simpl; [done | by rewrite IH]. Qed.

Lemma previous_ne_growth a b : a +:+ "_previous_moment" ≠ b +:+ "_growth".
Proof.
  intros H. apply (f_equal last_char) in H.
  rewrite !last_char_app in H by done. vm_compute in H. discriminate.
Qed.

Lemma regio_ne_previous a : "regio" ≠ a +:+ "_previous_moment".
Proof.
  intros H. apply (f_equal last_char) in H.
  rewrite last_char_app in H by done. vm_compute in H. discriminate.
Qed.

Lemma regio_ne_growth a : "regio" ≠ a +:+ "_growth".
Proof.
  intros H. apply (f_equal last_char) in H.
  rewrite last_char_app in H by done. vm_compute in H. discriminate.
Qed.

Lemma name_ne_suffixed a s : s ≠ "" → a ≠ a +:+ s.
Proof.
  intros Hs H. apply (f_equal String.length) in H.
  rewrite length_app_string in H. destruct s; [done|]. simpl in H. lia.
Qed.

(** *** Columns of a frame *)

Lemma get_Some_columns df name : is_Some (get df name) ↔ name ∈ columns df.
Proof.
  unfold columns. induction df as [|[n s] df IH]; simpl.
  - split; [by intros [? ?] | by intros ?%elem_of_nil].
  - rewrite elem_of_cons. destruct (String.eqb_spec n name) as [->|Hne].
    + split; eauto.
    + rewrite IH. split; [by right | by intros [?|?]].
Qed.

Lemma get_None_columns df name : get df name = None ↔ name ∉ columns df.
Proof.
  rewrite <- get_Some_columns, eq_None_not_Some. done.
Qed.

Lemma get_with_column_eq df name s : get (with_column df name s) name = Some s.
Proof.
  induction df as [|[n c] df IH]; simpl.
  - by rewrite String.eqb_refl.
  - destruct (String.eqb n name) eqn:Hn; simpl; by rewrite Hn.
Qed.

Lemma get_with_column_ne df name name' s :
  name ≠ name' → get (with_column df name s) name' = get df name'.
Proof.
  intros Hne. induction df as [|[n c] df IH]; simpl.
  - by apply String.eqb_neq in Hne as ->.
  - destruct (String.eqb_spec n name) as [->|Hn]; simpl.
    + by apply String.eqb_neq in Hne as ->.
    + by rewrite IH.
Qed.

Lemma columns_with_column df name s :
  columns (with_column df name s)
  = if decide (name ∈ columns df) then columns df else columns df ++ [name].
Proof.
  unfold columns. induction df as [|[n c] df IH]; csimpl.
  - done.
  - destruct (String.eqb_spec n name) as [->|Hn]; csimpl.
    + rewrite decide_True; [done | by left].
    + rewrite IH. destruct (decide (name ∈ df.*1)) as [Hin|Hin].
      * rewrite decide_True; [done | by right].
      * rewrite decide_False; [done|].
        by intros [?|?]%elem_of_cons.
Qed.

Lemma columns_with_column_subseteq df name s :
  columns df ⊆ columns (with_column df name s).
Proof.
  rewrite columns_with_column. case_decide; set_solver.
Qed.

Lemma NoDup_with_column df name s :
  NoDup (columns df) → NoDup (columns (with_column df name s)).
Proof.
  intros Hdf. rewrite columns_with_column. case_decide as Hin; [done|].
  apply NoDup_app. split; [done|]. split; [|apply NoDup_singleton].
  intros n Hn ->%list_elem_of_singleton. done.
Qed.

Lemma columns_fill_nan df : columns (fill_nan df) = columns df.
Proof.
  unfold columns, fill_nan.
  induction df as [|[n c] df IH]; simpl in *; [done | by f_equal].
Qed.

Lemma get_fill_nan df name :
  get (fill_nan df) name = fill_nan_series <$> get df name.
Proof.
  unfold fill_nan. induction df as [|[n c] df IH]; simpl; [done|].
  by destruct (String.eqb n name).
Qed.

Lemma columns_through_pandas df : columns (through_pandas df) = columns df.
Proof.
  unfold columns, through_pandas.
  induction df as [|[n c] df IH]; simpl in *; [done | by f_equal].
Qed.

Lemma get_through_pandas df name :
  get (through_pandas df) name = through_pandas_series <$> get df name.
Proof.
  unfold through_pandas. induction df as [|[n c] df IH]; simpl; [done|].
  by destruct (String.eqb n name).
Qed.

Lemma len_fill_nan s : len (fill_nan_series s) = len s.
Proof. destruct s; simpl; [apply length_map | done]. Qed.

Lemma len_through_pandas s : len (through_pandas_series s) = len s.
Proof. destruct s; simpl; [apply length_map | done]. Qed.

Lemma length_shift_over {A} seen keys (vals : list (option A)) :
  length (shift_over seen keys vals) = (length keys `min` length vals)%nat.
Proof.
  revert seen vals. induction keys as [|k keys IH]; intros seen [|v vals];
    simpl; try done.
  by rewrite IH.
Qed.

Lemma length_cells s : length (cells s) = len s.
Proof. destruct s; simpl; apply length_map. Qed.

(** All columns have [h] rows. *)
Definition uniform (h : nat) (df : DataFrame) : Prop :=
  ∀ name s, get df name = Some s → len s = h.

Lemma well_formed_uniform df : well_formed df → uniform (height df) df.
Proof.
  intros [_ Hlen] name s Hs. induction df as [|[n c] df IH]; [done|].
  simpl in Hs. apply Forall_cons in Hlen as [Hc Hdf].
  destruct (String.eqb n name); [by injection Hs as <-|].
  clear IH Hc. induction df as [|[n' c'] df IH]; [done|].
  simpl in Hs. apply Forall_cons in Hdf as [Hc' Hdf].
  destruct (String.eqb n' name); [by injection Hs as <-|]. by apply IH.
Qed.

Lemma uniform_well_formed h df :
  NoDup (columns df) → uniform h df → df ≠ [] →
  well_formed df ∧ height df = h.
Proof.
  intros Hnodup Hlen Hdf.
  assert (∀ c, c ∈ df → len c.2 = h) as Hall.
  { intros [n s] Hin. apply (Hlen n). clear Hlen Hdf.
    induction df as [|[n' s'] df IH]; [by apply elem_of_nil in Hin|].
    simpl. apply NoDup_cons in Hnodup as [Hn' Hnodup].
    apply elem_of_cons in Hin as [[= <- <-]|Hin].
    - by rewrite String.eqb_refl.
    - destruct (String.eqb_spec n' n) as [->|_]; [|by apply IH].
      destruct Hn'. apply list_elem_of_fmap. by exists (n, s). }
  assert (height df = h) as Hh.
  { destruct df as [|[n s] df]; [done|]. apply (Hall (n, s)). by left. }
  split; [|done]. split; [done|]. apply Forall_forall. intros c Hc.
  rewrite Hh. by apply Hall.
Qed.

(** *** Loops over columns *)

Lemma for_each_returns (P : DataFrame → Prop) body df cols :
  P df →
  (∀ d c, c ∈ cols → P d → ∃ d', body d c = Ok d' ∧ P d') →
  ∃ out, for_each body df cols = Ok out ∧ P out.
Proof.
  revert df. induction cols as [|c cols IH]; intros df HP Hbody.
  - by exists df.
  - destruct (Hbody df c) as (d' & Hd' & HP'); [by left | done |].
    simpl. rewrite Hd'. simpl. apply IH; [done|].
    intros d c' Hc'. apply Hbody. by right.
Qed.

Lemma for_each_cons_inv body df c cols out :
  for_each body df (c :: cols) = Ok out →
  ∃ d', body df c = Ok d' ∧ for_each body d' cols = Ok out.
Proof.
  simpl. destruct (body df c) as [d'|e]; simpl; [eauto | done].
Qed.

(** *** One round of the growth loop *)

Definition growth_of (vs before : list (option float)) : list (option float) :=
  zip_with (lift2 PrimFloat.div) (zip_with (lift2 PrimFloat.sub) vs before)
    before.

Definition growth_frame (df : DataFrame) (column : string) (regio : Series)
    (vs : list (option float)) : DataFrame :=
  let before := shift_over [] (cells regio) vs in
  fill_nan
    (with_column
       (with_column df (column +:+ "_previous_moment") (Float64 before))
       (column +:+ "_growth") (Float64 (growth_of vs before))).

Lemma growth_round_float df column regio vs :
  get df column = Some (Float64 vs) → get df "regio" = Some regio →
  growth_round df column = Ok (growth_frame df column regio vs).
Proof.
  intros Hc Hr. unfold growth_round, col. rewrite Hc, Hr. simpl.
  rewrite (get_with_column_ne df (column +:+ "_previous_moment") column), Hc
    by (by apply not_eq_sym, name_ne_suffixed).
  simpl. by rewrite get_with_column_eq.
Qed.

Lemma growth_round_inv df column out :
  growth_round df column = Ok out →
  ∃ regio vs, get df column = Some (Float64 vs)
    ∧ get df "regio" = Some regio
    ∧ out = growth_frame df column regio vs.
Proof.
  intros Hout.
  destruct (get df column) as [[vs|ss]|] eqn:Hc.
  - destruct (get df "regio") as [regio|] eqn:Hr.
    + rewrite (growth_round_float _ _ _ _ Hc Hr) in Hout.
      injection Hout as <-. eauto.
    + unfold growth_round, col in Hout. by rewrite Hc, Hr in Hout.
  - unfold growth_round, col in Hout. rewrite Hc in Hout. simpl in Hout.
    destruct (get df "regio") as [regio|]; simpl in Hout; [|done].
    rewrite (get_with_column_ne df (column +:+ "_previous_moment") column),
      Hc in Hout by (by apply not_eq_sym, name_ne_suffixed).
    simpl in Hout. by rewrite get_with_column_eq in Hout.
  - unfold growth_round, col in Hout. by rewrite Hc in Hout.
Qed.

Lemma get_growth_frame df column regio vs name :
  get (growth_frame df column regio vs) name
  = if decide (name = column +:+ "_growth")
    then Some (Float64 (map fill_nan_cell
                          (growth_of vs (shift_over [] (cells regio) vs))))
    else if decide (name = column +:+ "_previous_moment")
    then Some (Float64 (map fill_nan_cell
                          (shift_over [] (cells regio) vs)))
    else fill_nan_series <$> get df name.
Proof.
  unfold growth_frame. rewrite get_fill_nan.
  destruct (decide (name = column +:+ "_growth")) as [->|Hg].
  - by rewrite get_with_column_eq.
  - rewrite get_with_column_ne by done.
    destruct (decide (name = column +:+ "_previous_moment")) as [->|Hp].
    + by rewrite get_with_column_eq.
    + by rewrite get_with_column_ne.
Qed.

Lemma columns_growth_frame df column regio vs :
  columns (growth_frame df column regio vs)
  = columns
      (with_column
         (with_column df (column +:+ "_previous_moment") (Float64 []))
         (column +:+ "_growth") (Float64 [])).
Proof.
  unfold growth_frame. rewrite columns_fill_nan, !columns_with_column.
  done.
Qed.

Lemma length_growth_of vs before :
  length (growth_of vs before) = (length vs `min` length before)%nat.
Proof. unfold growth_of. rewrite !length_zip_with. lia. Qed.

(** What the rounds keep: the number of rows, distinct names, the region
    column, the dtype of the measures, and the names already there. *)
Definition shape_inv (h : nat) (cols : list string) (df0 df : DataFrame)
  : Prop :=
  uniform h df
  ∧ NoDup (columns df)
  ∧ is_Some (get df "regio")
  ∧ (∀ c, c ∈ cols → ∃ vs, get df c = Some (Float64 vs))
  ∧ columns df0 ⊆ columns df.

Lemma growth_round_shape h cols df0 df c :
  shape_inv h cols df0 df → c ∈ cols →
  ∃ df', growth_round df c = Ok df' ∧ shape_inv h cols df0 df'.
Proof.
  intros (Hlen & Hnodup & [regio Hregio] & Hfloat & Hsub) Hc.
  destruct (Hfloat c Hc) as [vs Hvs].
  exists (growth_frame df c regio vs).
  split; [by apply growth_round_float|].
  pose proof (Hlen _ _ Hvs) as Hlvs. pose proof (Hlen _ _ Hregio) as Hlr.
  simpl in Hlvs.
  split; [|split; [|split; [|split]]].
  - intros name s. rewrite get_growth_frame.
    repeat case_decide.
    + intros [= <-]. simpl.
      rewrite length_map, length_growth_of, length_shift_over, length_cells.
      lia.
    + intros [= <-]. simpl.
      rewrite length_map, length_shift_over, length_cells. lia.
    + destruct (get df name) as [s'|] eqn:Hs'; [|done]. intros [= <-].
      rewrite len_fill_nan. by eapply Hlen.
  - rewrite columns_growth_frame. by do 2 apply NoDup_with_column.
  - rewrite get_growth_frame.
    rewrite decide_False by apply regio_ne_growth.
    rewrite decide_False by apply regio_ne_previous.
    by rewrite Hregio.
  - intros c' Hc'. rewrite get_growth_frame. repeat case_decide; eauto.
    destruct (Hfloat c' Hc') as [vs' ->]. simpl. eauto.
  - rewrite columns_growth_frame.
    etrans; [exact Hsub|]. etrans; apply columns_with_column_subseteq.
Qed.

(** The two columns a round adds for a measure. *)
Definition new_columns (c : string) : list string :=
  [c +:+ "_previous_moment"; c +:+ "_growth"].

Lemma new_columns_disjoint c c' n :
  c ≠ c' → n ∈ new_columns c → n ∉ new_columns c'.
Proof.
  unfold new_columns. intros Hne Hn Hn'.
  repeat (apply elem_of_cons in Hn as [->|Hn]);
    repeat (apply elem_of_cons in Hn' as [Hn'|Hn']);
    try (by apply elem_of_nil in Hn); try (by apply elem_of_nil in Hn').
  - by apply suffix_cancel in Hn'.
  - by apply previous_ne_growth in Hn'.
  - symmetry in Hn'. by apply previous_ne_growth in Hn'.
  - by apply suffix_cancel in Hn'.
Qed.

Lemma columns_growth_rounds cols df out :
  for_each growth_round df cols = Ok out → NoDup cols →
  (∀ c n, c ∈ cols → n ∈ new_columns c → n ∉ columns df) →
  columns out = columns df ++ flat_map new_columns cols.
Proof.
  revert df. induction cols as [|c cols IH]; intros df Hout Hnodup Hfresh.
  - injection Hout as <-. simpl. by rewrite app_nil_r.
  - apply for_each_cons_inv in Hout as (d' & Hd' & Hout).
    apply growth_round_inv in Hd' as (regio & vs & _ & _ & ->).
    apply NoDup_cons in Hnodup as [Hc Hnodup].
    assert (columns (growth_frame df c regio vs)
            = columns df ++ new_columns c) as Hcols.
    { rewrite columns_growth_frame, !columns_with_column.
      rewrite (decide_False (P:=c +:+ "_previous_moment" ∈ columns df))
        by (apply (Hfresh c); [by left | by left]).
      rewrite decide_False; [by rewrite <- (assoc_L (++))|].
      rewrite elem_of_app, list_elem_of_singleton. intros [Hin|Heq].
      - revert Hin. apply (Hfresh c); [by left | by right; left].
      - symmetry in Heq. by apply previous_ne_growth in Heq. }
    rewrite (IH _ Hout Hnodup), Hcols; [simpl; by rewrite <- (assoc_L (++))|].
    intros c' n Hc' Hn. rewrite Hcols, elem_of_app. intros [Hin|Hin].
    + revert Hin. apply (Hfresh c'); [by right | done].
    + revert Hin. apply new_columns_disjoint with c'; [|done].
      intros ->. done.
Qed.

Lemma NoDup_not_excluded df columns_to_exclude :
  NoDup (columns df) → NoDup (not_excluded df columns_to_exclude).
Proof. intros Hdf. by apply NoDup_filter. Qed.

(** C9. On a well-formed frame that has a [regio] column and whose
    columns outside the exclusion list are all numeric,
    [growth_columns_by_year] returns a well-formed frame with the same number
    of rows, in which every input column is still present; when none of the
    names [c_previous_moment] and [c_growth] of a column [c] outside the list
    is taken by an input column, the columns of the result are the input
    columns followed by these two for each such [c], in order. *)
Theorem growth_columns_shape (df : DataFrame)
    (columns_to_exclude : list string) :
  well_formed df →
  is_Some (get df "regio") →
  (∀ c, c ∈ not_excluded df columns_to_exclude →
     ∃ vs, get df c = Some (Float64 vs)) →
  ∃ out, growth_columns_by_year df columns_to_exclude = Ok out
    ∧ well_formed out
    ∧ height out = height df
    ∧ columns df ⊆ columns out
    ∧ ((∀ c n, c ∈ not_excluded df columns_to_exclude →
          n ∈ new_columns c → n ∉ columns df) →
       columns out
       = columns df
           ++ flat_map new_columns (not_excluded df columns_to_exclude)).
Proof.
  intros Hwf Hregio Hfloat.
  destruct (for_each_returns
              (shape_inv (height df) (not_excluded df columns_to_exclude) df)
              growth_round df (not_excluded df columns_to_exclude))
    as (out & Hout & Hlen & Hnodup & Hr & _ & Hsub).
  - split; [by apply well_formed_uniform|].
    split; [by destruct Hwf|]. done.
  - intros d c Hc Hd. by eapply growth_round_shape.
  - exists (through_pandas out). unfold growth_columns_by_year, growth_rounds.
    rewrite Hout. simpl. split; [done|].
    rewrite columns_through_pandas.
    assert (well_formed (through_pandas out)
            ∧ height (through_pandas out) = height df) as [? ?].
    { apply uniform_well_formed.
      - by rewrite columns_through_pandas.
      - intros name s. rewrite get_through_pandas.
        destruct (get out name) as [s'|] eqn:Hs'; [|done]. intros [= <-].
        rewrite len_through_pandas. by eapply Hlen.
      - intros Hnil. apply (f_equal columns) in Hnil.
        rewrite columns_through_pandas in Hnil.
        apply get_Some_columns in Hr. rewrite Hnil in Hr.
        by apply elem_of_nil in Hr. }
    do 3 (split; [done|]). intros Hfresh.
    apply columns_growth_rounds; [done | | done].
    apply NoDup_not_excluded. by destruct Hwf.
Qed.

Definition sample_frame : DataFrame :=
  [("regio", Utf8 [Some "Amsterdam"; Some "Noordwijk"; Some "Amsterdam"]);
   ("jaar", Utf8 [Some "2021"; Some "2021"; Some "2022"]);
   ("bevolking_1_januari",
    Float64 [Some 873338%float; Some 44062%float; Some 882633%float]);
   ("totale_oppervlakte",
    Float64 [Some 21949%float; Some 5149%float; Some 21949%float])].

(** Two measures next to the region and the year. *)
Lemma growth_columns_shape_witness :
  ∃ out, growth_columns_by_year sample_frame ["regio"; "jaar"] = Ok out
    ∧ height out = 3%nat
    ∧ columns out
      = ["regio"; "jaar"; "bevolking_1_januari"; "totale_oppervlakte";
         "bevolking_1_januari_previous_moment"; "bevolking_1_januari_growth";
         "totale_oppervlakte_previous_moment"; "totale_oppervlakte_growth"].
Proof.
  destruct (growth_columns_shape sample_frame ["regio"; "jaar"])
    as (out & Hout & _ & Hheight & _ & Hcols).
  - split; [vm_compute; repeat constructor; set_solver|].
    repeat constructor.
  - by eexists.
  - intros c Hc. vm_compute in Hc.
    repeat (apply elem_of_cons in Hc as [->|Hc]);
      [by eexists..|by apply elem_of_nil in Hc].
  - exists out. split; [done|]. split; [done|]. rewrite Hcols; [done|].
    intros c n Hc Hn. vm_compute in Hc.
    repeat (apply elem_of_cons in Hc as [->|Hc]);
      [..|by apply elem_of_nil in Hc];
      repeat (apply elem_of_cons in Hn as [->|Hn]);
      try (by apply elem_of_nil in Hn);
      vm_compute; intros Hin;
      repeat (apply elem_of_cons in Hin as [Hin|Hin]);
      try discriminate; by apply elem_of_nil in Hin.
Defined.

(** C9, as stated for every frame and exclusion list, fails on the code. The
    name of the region column is fixed: on a frame without a [regio] column
    the function raises. And a name taken is overwritten, not added: with the
    columns [a] and [a_growth] outside the list, three columns are new, not
    four. *)
Lemma growth_columns_not_for_every_frame :
  growth_columns_by_year [("a", Float64 [Some 1%float])] []
  = Raise ColumnNotFoundError
  ∧ columns <$> growth_columns_by_year
                   [("regio", Utf8 [Some "Amsterdam"]);
                    ("a", Float64 [Some 1%float]);
                    ("a_growth", Float64 [Some 2%float])] ["regio"]
    = Ok ["regio"; "a"; "a_growth"; "a_previous_moment";
          "a_growth_previous_moment"; "a_growth_growth"].
Proof. split; vm_compute; reflexivity. Qed.

(** *** The first period of a region *)

(** Row [i] is the first row of its region in the column [regio]. *)
Definition first_of_region (regio : list (option string)) (i : nat) : Prop :=
  ∃ k, regio !! i = Some k
    ∧ ∀ j k', (j < i)%nat → regio !! j = Some k' → k' ≠ k.

Definition cell_of_string (v : option string) : Cell :=
  match v with
  | Some x => CStr x
  | None => CNull
  end.

Lemma cell_eqb_string a b :
  a ≠ b → cell_eqb (cell_of_string a) (cell_of_string b) = false.
Proof.
  intros Hne. destruct a as [a|], b as [b|]; simpl; try done.
  apply String.eqb_neq. congruence.
Qed.

Lemma previous_None {A} (seen : list (Cell * option A)) k :
  (∀ kv, kv ∈ seen → cell_eqb kv.1 k = false) → previous seen k = None.
Proof.
  unfold previous. induction seen as [|kv seen IH]; intros Hseen; [done|].
  simpl. rewrite (Hseen kv) by (by left). apply IH.
  intros kv' Hkv'. apply Hseen. by right.
Qed.

Lemma shift_over_first {A} seen keys (vals : list (option A)) i k :
  keys !! i = Some k → (i < length vals)%nat →
  (∀ j k', (j < i)%nat → keys !! j = Some k' → cell_eqb k' k = false) →
  (∀ kv, kv ∈ seen → cell_eqb kv.1 k = false) →
  shift_over seen keys vals !! i = Some None.
Proof.
  revert seen vals i.
  induction keys as [|k0 keys IH]; intros seen [|v vals] i Hk Hi Hfirst Hseen;
    simpl in *; try done; try lia.
  destruct i as [|i]; simpl in *.
  - injection Hk as ->. by rewrite previous_None.
  - apply IH; [done | lia | |].
    + intros j k' Hj. apply (Hfirst (S j)). lia.
    + intros kv [->|Hkv]%elem_of_cons; [|by apply Hseen].
      apply (Hfirst 0%nat); [lia | done].
Qed.

Lemma first_growth_null regio vs i :
  length vs = length regio → first_of_region regio i →
  map fill_nan_cell
    (growth_of vs (shift_over [] (cells (Utf8 regio)) vs)) !! i
  = Some None.
Proof.
  intros Hlen (k & Hk & Hfirst).
  pose proof (lookup_lt_Some _ _ _ Hk) as Hi.
  assert (shift_over [] (cells (Utf8 regio)) vs !! i = Some None) as Hbefore.
  { apply shift_over_first with (cell_of_string k).
    - simpl. change (map ?f regio) with (f <$> regio).
      by rewrite list_lookup_fmap, Hk.
    - lia.
    - intros j c Hj. simpl. change (map ?f regio) with (f <$> regio).
      rewrite list_lookup_fmap.
      destruct (regio !! j) as [k'|] eqn:Hk'; [|done]. intros [= <-].
      apply cell_eqb_string. by eapply Hfirst.
    - by intros kv ?%elem_of_nil. }
  destruct (lookup_lt_is_Some_2 vs i) as [v Hv]; [lia|].
  change (map ?f ?l) with (f <$> l). unfold growth_of.
  rewrite list_lookup_fmap, !lookup_zip_with, Hv, Hbefore. simpl.
  by destruct v.
Qed.

Section first_period.
Variable regio : list (option string).
Variable column : string.
Variable i : nat.
Hypothesis first : first_of_region regio i.

(** The region column is a column of strings of the frame's height. *)
Definition regions_kept (df : DataFrame) : Prop :=
  get df "regio" = Some (Utf8 regio) ∧ uniform (length regio) df.

(** The growth column of [column] has a null in row [i]. *)
Definition null_growth (df : DataFrame) : Prop :=
  ∃ gs, get df (column +:+ "_growth") = Some (Float64 gs)
    ∧ gs !! i = Some None.

Lemma round_regions_kept df c df' :
  regions_kept df → growth_round df c = Ok df' → regions_kept df'.
Proof.
  intros [Hregio Hlen] (r & vs & Hvs & Hr & ->)%growth_round_inv.
  rewrite Hregio in Hr. injection Hr as <-.
  pose proof (Hlen _ _ Hvs) as Hlvs. simpl in Hlvs. split.
  - rewrite get_growth_frame.
    rewrite decide_False by apply regio_ne_growth.
    rewrite decide_False by apply regio_ne_previous.
    by rewrite Hregio.
  - intros name s. rewrite get_growth_frame. repeat case_decide.
    + intros [= <-]. simpl.
      rewrite length_map, length_growth_of, length_shift_over, length_map.
      lia.
    + intros [= <-]. simpl.
      rewrite length_map, length_shift_over, length_map. lia.
    + destruct (get df name) as [s'|] eqn:Hs'; [|done]. intros [= <-].
      rewrite len_fill_nan. by eapply Hlen.
Qed.

Lemma round_null_growth df c df' :
  regions_kept df → growth_round df c = Ok df' →
  c = column ∨ null_growth df → null_growth df'.
Proof.
  intros [Hregio Hlen] (r & vs & Hvs & Hr & ->)%growth_round_inv Hc.
  rewrite Hregio in Hr. injection Hr as <-.
  pose proof (Hlen _ _ Hvs) as Hlvs. simpl in Hlvs.
  unfold null_growth. rewrite get_growth_frame.
  destruct (decide (c = column)) as [->|Hne].
  - rewrite decide_True by done. eexists. split; [done|].
    by apply first_growth_null.
  - destruct Hc as [|(gs & Hgs & Hi)]; [done|].
    rewrite decide_False by (by intros ?%suffix_cancel).
    rewrite decide_False
      by (intros Heq; symmetry in Heq; by apply previous_ne_growth in Heq).
    rewrite Hgs. simpl. eexists. split; [done|].
    change (map ?f ?l) with (f <$> l). by rewrite list_lookup_fmap, Hi.
Qed.

Lemma rounds_null_growth cols df out :
  regions_kept df → for_each growth_round df cols = Ok out →
  column ∈ cols ∨ null_growth df → null_growth out.
Proof.
  revert df. induction cols as [|c cols IH]; intros df Hdf Hout Hc.
  - injection Hout as <-. destruct Hc as [?%elem_of_nil|]; done.
  - apply for_each_cons_inv in Hout as (d' & Hd' & Hout).
    apply (IH d'); [by eapply round_regions_kept | done |].
    destruct (decide (c = column)) as [->|Hne].
    + right. eapply round_null_growth; eauto.
    + destruct Hc as [[|]%elem_of_cons|Hnull]; [congruence | by left |].
      right. eapply round_null_growth; eauto.
Qed.

End first_period.

(** *** Growth rates *)

(** One region observed in two periods. *)
Definition two_periods (a b : float) : DataFrame :=
  [("regio", Utf8 [Some "Amsterdam"; Some "Amsterdam"]);
   ("bevolking_1_januari", Float64 [Some a; Some b])].

Definition growth_column (r : result DataFrame) (column : string)
  : option Series :=
  match r with
  | Ok out => get out (column +:+ "_growth")
  | Raise _ => None
  end.

(** C2. For one region with the values 100 and 150 the growth column is
    null, 0.5; with 100 and 0 it is null, -1; with 0 and 50 polars computes
    an infinite growth, which the returned frame has as 0. In general, in
    the frame returned, the growth of a measure is null in the first row of
    each region. *)
Theorem growth_values_and_first_period :
  growth_column (growth_columns_by_year (two_periods 100 150) ["regio"])
    "bevolking_1_januari"
  = Some (Float64 [None; Some 0.5%float])
  ∧ growth_column (growth_columns_by_year (two_periods 100 0) ["regio"])
      "bevolking_1_januari"
    = Some (Float64 [None; Some (-1)%float])
  ∧ growth_column (growth_rounds (two_periods 0 50) ["regio"])
      "bevolking_1_januari"
    = Some (Float64 [None; Some infinity])
  ∧ growth_column (growth_columns_by_year (two_periods 0 50) ["regio"])
      "bevolking_1_januari"
    = Some (Float64 [None; Some 0%float])
  ∧ ∀ (df out : DataFrame) (columns_to_exclude : list string)
      (regio : list (option string)) (column : string) (i : nat),
      well_formed df →
      get df "regio" = Some (Utf8 regio) →
      column ∈ not_excluded df columns_to_exclude →
      first_of_region regio i →
      growth_columns_by_year df columns_to_exclude = Ok out →
      ∃ gs, get out (column +:+ "_growth") = Some (Float64 gs)
        ∧ gs !! i = Some None.
Proof.
  do 4 (split; [vm_compute; reflexivity|]).
  intros df out columns_to_exclude regio column i Hwf Hregio Hcol Hfirst Hout.
  unfold growth_columns_by_year, growth_rounds in Hout.
  destruct (for_each growth_round df (not_excluded df columns_to_exclude))
    as [out'|e] eqn:Hrounds; [|done].
  injection Hout as <-.
  destruct (rounds_null_growth regio column i Hfirst
              (not_excluded df columns_to_exclude) df out')
    as (gs & Hgs & Hi); [|done|by left|].
  - split; [done|]. pose proof (well_formed_uniform df Hwf) as Hlen.
    pose proof (Hlen _ _ Hregio) as Hh. simpl in Hh. by rewrite Hh.
  - rewrite get_through_pandas, Hgs. simpl. eexists. split; [done|].
    change (map ?f ?l) with (f <$> l). by rewrite list_lookup_fmap, Hi.
Qed.

(** Noordwijk is first seen in the second row of the sample. *)
Lemma growth_values_and_first_period_witness :
  ∃ out gs,
    growth_columns_by_year sample_frame ["regio"; "jaar"] = Ok out
    ∧ get out "bevolking_1_januari_growth" = Some (Float64 gs)
    ∧ gs !! 1%nat = Some None.
Proof.
  destruct (growth_columns_by_year sample_frame ["regio"; "jaar"])
    as [out|e] eqn:Hout; [|by vm_compute in Hout].
  destruct growth_values_and_first_period as (_ & _ & _ & _ & Hfirst).
  destruct (Hfirst sample_frame out ["regio"; "jaar"]
              [Some "Amsterdam"; Some "Noordwijk"; Some "Amsterdam"]
              "bevolking_1_januari" 1%nat) as (gs & Hgs & Hnull).
  - split; [vm_compute; repeat constructor; set_solver|].
    repeat constructor.
  - reflexivity.
  - vm_compute. set_solver.
  - exists (Some "Noordwijk"). split; [reflexivity|].
    intros [|j] k' Hj; [|lia]. by intros [= <-].
  - exact Hout.
  - by exists out, gs.
Defined.

(** *** Relative shares *)

Definition quotient_of (vs ds : list (option float)) : list (option float) :=
  zip_with (lift2 PrimFloat.div) vs ds.

Lemma divide_round_float divide_by_column df column vs ds :
  get df column = Some (Float64 vs) →
  get df divide_by_column = Some (Float64 ds) →
  divide_round divide_by_column df column
  = Ok (with_column df (column +:+ "_relative")
          (Float64 (quotient_of vs ds))).
Proof.
  intros Hc Hd. unfold divide_round, col. by rewrite Hc, Hd.
Qed.

(** The loop of [divide_columns_by_column] over columns whose [_relative]
    names are free. *)
Lemma divide_rounds divide_by_column ds cols df :
  NoDup cols →
  get df divide_by_column = Some (Float64 ds) →
  (∀ c, c ∈ cols → ∃ vs, get df c = Some (Float64 vs)) →
  (∀ c, c ∈ cols → c +:+ "_relative" ∉ columns df) →
  ∃ out, for_each (divide_round divide_by_column) df cols = Ok out
    ∧ columns out = columns df ++ map (λ c, c +:+ "_relative") cols
    ∧ (∀ name, name ∈ columns df → get out name = get df name)
    ∧ (∀ c vs, c ∈ cols → get df c = Some (Float64 vs) →
         get out (c +:+ "_relative") = Some (Float64 (quotient_of vs ds))).
Proof.
  revert df. induction cols as [|c cols IH];
    intros df Hnodup Hd Hfloat Hfresh.
  - exists df. simpl. rewrite app_nil_r.
    do 3 (split; [done|]). by intros c vs ?%elem_of_nil.
  - apply NoDup_cons in Hnodup as [Hc Hnodup].
    destruct (Hfloat c) as [vs Hvs]; [by left|].
    pose proof (Hfresh c ltac:(by left)) as Hnew.
    set (df1 := with_column df (c +:+ "_relative")
                  (Float64 (quotient_of vs ds))).
    assert (columns df1 = columns df ++ [c +:+ "_relative"]) as Hcols1
      by (unfold df1; by rewrite columns_with_column, decide_False).
    assert (∀ name, name ∈ columns df → get df1 name = get df name) as Hold.
    { intros name Hname. unfold df1. apply get_with_column_ne.
      by intros <-. }
    destruct (IH df1) as (out & Hout & Hcols & Hkeep & Hrel); [done|..].
    + rewrite Hold; [done|]. apply get_Some_columns. by rewrite Hd.
    + intros c' Hc'. destruct (Hfloat c') as [vs' Hvs']; [by right|].
      exists vs'. rewrite Hold; [done|]. apply get_Some_columns.
      by rewrite Hvs'.
    + intros c' Hc'. rewrite Hcols1, elem_of_app, list_elem_of_singleton.
      intros [Hin|Heq]; [by apply (Hfresh c'); [right|]|].
      apply suffix_cancel in Heq as ->. done.
    + exists out. simpl.
      rewrite (divide_round_float _ _ _ _ _ Hvs Hd). simpl.
      split; [exact Hout|]. split; [|split].
      * by rewrite Hcols, Hcols1, <- (assoc_L (++)).
      * intros name Hname. rewrite Hkeep, Hold; [done..|].
        rewrite Hcols1. apply elem_of_app. by left.
      * intros c' vs' [->|Hc']%elem_of_cons Hvs'.
        -- rewrite Hkeep by (rewrite Hcols1; set_solver).
           unfold df1. rewrite get_with_column_eq. congruence.
        -- apply Hrel; [done|]. rewrite Hold; [done|].
           apply get_Some_columns. by rewrite Hvs'.
Qed.

(** C10. [divide_columns_by_column] appends the divisor's name to the
    caller's exclusion list, whatever happens next. On numeric columns, with
    the divisor in the frame and the [_relative] names not taken by an input
    column, it returns the input columns unchanged, followed by a column
    [c_relative] with the quotient of [c] and the divisor for each input
    column [c] that is neither in the list nor the divisor, and for no other:
    the divisor gets no [_relative] column. *)
Theorem divide_columns_relative (df : DataFrame) (divide_by_column : string)
    (columns_to_exclude : list string) (ds : list (option float)) :
  let columns_to_divide :=
    filter (λ c, c ∉ columns_to_exclude ∧ c ≠ divide_by_column)
      (columns df) in
  NoDup (columns df) →
  get df divide_by_column = Some (Float64 ds) →
  (∀ c, c ∈ columns_to_divide → ∃ vs, get df c = Some (Float64 vs)) →
  (∀ c, c ∈ columns_to_divide → c +:+ "_relative" ∉ columns df) →
  (divide_columns_by_column df divide_by_column columns_to_exclude).2
  = columns_to_exclude ++ [divide_by_column]
  ∧ ∃ out,
      (divide_columns_by_column df divide_by_column columns_to_exclude).1
      = Ok out
      ∧ columns out
        = columns df ++ map (λ c, c +:+ "_relative") columns_to_divide
      ∧ (∀ name, name ∈ columns df → get out name = get df name)
      ∧ (∀ c vs, c ∈ columns_to_divide → get df c = Some (Float64 vs) →
           get out (c +:+ "_relative")
           = Some (Float64 (quotient_of vs ds)))
      ∧ (divide_by_column +:+ "_relative" ∈ columns out →
         divide_by_column +:+ "_relative" ∈ columns df).
Proof.
  intros columns_to_divide Hnodup Hd Hfloat Hfresh. split; [done|].
  assert (not_excluded df (columns_to_exclude ++ [divide_by_column])
          = columns_to_divide) as Hcols.
  { unfold not_excluded, columns_to_divide. apply list_filter_iff.
    intros c. rewrite elem_of_app, list_elem_of_singleton. tauto. }
  destruct (divide_rounds divide_by_column ds columns_to_divide df)
    as (out & Hout & Hnames & Hkeep & Hrel); [|done..|].
  { by apply NoDup_filter. }
  exists out. unfold divide_columns_by_column. simpl. rewrite Hcols.
  do 4 (split; [done|]).
  rewrite Hnames, elem_of_app. intros [Hin|Hin]; [done|].
  apply list_elem_of_fmap in Hin as (c & Heq & Hc).
  apply suffix_cancel in Heq as <-.
  apply list_elem_of_filter in Hc as [[_ Hc] _]. done.
Qed.

(** The land-use frame divided by its total area. *)
Lemma divide_columns_relative_witness :
  ∃ out,
    divide_columns_by_column sample_frame "totale_oppervlakte"
      ["regio"; "jaar"]
    = (Ok out, ["regio"; "jaar"; "totale_oppervlakte"])
    ∧ columns out
      = ["regio"; "jaar"; "bevolking_1_januari"; "totale_oppervlakte";
         "bevolking_1_januari_relative"].
Proof.
  destruct (divide_columns_relative sample_frame "totale_oppervlakte"
              ["regio"; "jaar"]
              [Some 21949%float; Some 5149%float; Some 21949%float])
    as (Hlist & out & Hout & Hcols & _).
  - vm_compute. repeat constructor; set_solver.
  - reflexivity.
  - intros c Hc. vm_compute in Hc.
    apply elem_of_cons in Hc as [->|Hc]; [by eexists|].
    by apply elem_of_nil in Hc.
  - intros c Hc. vm_compute in Hc.
    apply elem_of_cons in Hc as [->|Hc]; [|by apply elem_of_nil in Hc].
    vm_compute. intros Hin.
    repeat (apply elem_of_cons in Hin as [Hin|Hin]); try discriminate.
    by apply elem_of_nil in Hin.
  - exists out. split; [|by rewrite Hcols].
    destruct (divide_columns_by_column _ _ _) as [r l]. simpl in *.
    by rewrite Hout, Hlist.
Defined.

(** C10, as stated for every input column, fails on the code where a
    [_relative] name is taken: [with_columns] overwrites the input column
    [bebouwd_relative] with the share of [bebouwd], and the column derived
    from it is the share of that share (1), not the input column divided by
    the total (5). One column is new, for two columns divided. *)
Lemma relative_name_taken :
  divide_columns_by_column
    [("totale_oppervlakte", Float64 [Some 2%float]);
     ("bebouwd", Float64 [Some 4%float]);
     ("bebouwd_relative", Float64 [Some 10%float])]
    "totale_oppervlakte" []
  = (Ok [("totale_oppervlakte", Float64 [Some 2%float]);
         ("bebouwd", Float64 [Some 4%float]);
         ("bebouwd_relative", Float64 [Some 2%float]);
         ("bebouwd_relative_relative", Float64 [Some 1%float])],
     ["totale_oppervlakte"]).
Proof. vm_compute. reflexivity. Qed.

(** *** Cleaning of the values *)

(** A cell as [pl.from_pandas(df.to_pandas().replace([inf, -inf], 0))]
    returns it. *)
Definition pandas_cell (v : option float) : option float :=
  from_pandas_cell (replace_inf (to_pandas_cell v)).

(** Null, or a number that is neither NaN nor infinite. *)
Definition finite_or_null (v : option float) : Prop :=
  match v with
  | Some x => PrimFloat.is_nan x = false ∧ PrimFloat.is_infinity x = false
  | None => True
  end.

Lemma pandas_cell_finite v : finite_or_null (pandas_cell v).
Proof.
  unfold pandas_cell, from_pandas_cell, replace_inf, to_pandas_cell.
  destruct v as [x|]; simpl; [|done].
  destruct (PrimFloat.is_infinity x) eqn:Hinf; [done|].
  destruct (PrimFloat.is_nan x) eqn:Hnan; simpl; done.
Qed.

Lemma fill_nan_cell_idem v : fill_nan_cell (fill_nan_cell v) = fill_nan_cell v.
Proof.
  destruct v as [x|]; simpl; [|done].
  destruct (PrimFloat.is_nan x) eqn:Hnan; simpl; [done | by rewrite Hnan].
Qed.

Lemma fill_nan_series_idem s :
  fill_nan_series (fill_nan_series s) = fill_nan_series s.
Proof.
  destruct s as [vs|vs]; simpl; [|done]. f_equal.
  rewrite map_map. apply map_ext. intros v. apply fill_nan_cell_idem.
Qed.

Lemma fill_nan_cell_id v :
  (∀ x, v = Some x → PrimFloat.is_nan x = false) → fill_nan_cell v = v.
Proof.
  destruct v as [x|]; simpl; [|done]. intros Hx. by rewrite (Hx x).
Qed.

(** A column that no round writes goes through [fill_nan] in each round. *)
Lemma growth_round_other d c d' name :
  growth_round d c = Ok d' → name ∉ new_columns c →
  get d' name = fill_nan_series <$> get d name.
Proof.
  intros (regio & vs & _ & _ & ->)%growth_round_inv Hname.
  rewrite get_growth_frame.
  rewrite decide_False by (intros ->; apply Hname; by right; left).
  rewrite decide_False by (intros ->; apply Hname; by left). done.
Qed.

Lemma growth_rounds_other cols d out name :
  for_each growth_round d cols = Ok out →
  (∀ c, c ∈ cols → name ∉ new_columns c) →
  get out name
  = (if decide (cols = []) then id else fill_nan_series) <$> get d name.
Proof.
  revert d. induction cols as [|c cols IH]; intros d Hout Hname.
  - injection Hout as <-. rewrite decide_True by done.
    by destruct (get d name).
  - apply for_each_cons_inv in Hout as (d' & Hd' & Hout).
    rewrite (IH d' Hout) by (intros c' Hc'; apply Hname; by right).
    rewrite (growth_round_other d c d' name Hd')
      by (apply Hname; by left).
    rewrite (decide_False (P:=c :: cols = [])) by done.
    destruct (get d name) as [s|]; simpl; [|done].
    case_decide; simpl; [done | by rewrite fill_nan_series_idem].
Qed.

(** X8. The frame that [growth_columns_by_year] returns holds no NaN and no
    infinity: every cell of every numeric column, input columns and
    excluded columns included, is null or a finite number. *)
Theorem growth_frame_has_no_nan_no_infinity (df out : DataFrame)
    (columns_to_exclude : list string) (name : string)
    (vs : list (option float)) :
  growth_columns_by_year df columns_to_exclude = Ok out →
  get out name = Some (Float64 vs) →
  Forall finite_or_null vs.
Proof.
  unfold growth_columns_by_year.
  destruct (growth_rounds df columns_to_exclude) as [out'|e]; [|done].
  simpl. intros [= <-]. rewrite get_through_pandas.
  destruct (get out' name) as [[vs'|ss]|]; simpl; [|done..].
  intros [= <-]. apply Forall_forall. intros v Hv.
  change (map ?f ?l) with (f <$> l) in Hv.
  apply list_elem_of_fmap in Hv as (v' & -> & _).
  apply (pandas_cell_finite v').
Qed.

(** One region whose first value is zero: the raw growth is infinite. *)
Lemma growth_frame_has_no_nan_no_infinity_witness :
  ∃ out vs,
    growth_columns_by_year (two_periods 0 50) ["regio"] = Ok out
    ∧ get out "bevolking_1_januari_growth" = Some (Float64 vs)
    ∧ Forall finite_or_null vs.
Proof.
  destruct (growth_columns_by_year (two_periods 0 50) ["regio"])
    as [out|e] eqn:Hout; [|by vm_compute in Hout].
  destruct (get out "bevolking_1_januari_growth") as [[vs|ss]|] eqn:Hvs.
  - exists out, vs. split; [done|]. split; [done|].
    exact (growth_frame_has_no_nan_no_infinity _ out ["regio"] _ vs
             Hout Hvs).
  - vm_compute in Hout. injection Hout as <-. by vm_compute in Hvs.
  - vm_compute in Hout. injection Hout as <-. by vm_compute in Hvs.
Defined.

(** X9. [growth_columns_by_year] also rewrites the columns it was given,
    the excluded ones included. A column whose name no round writes comes
    back with the same strings if it holds strings; if it holds numbers, its
    infinities come back as 0 and its NaNs as 0 when at least one column is
    outside the exclusion list, and as null when all are excluded. *)
Theorem growth_rewrites_the_input_columns (df out : DataFrame)
    (columns_to_exclude : list string) (name : string) :
  growth_columns_by_year df columns_to_exclude = Ok out →
  (∀ c, c ∈ not_excluded df columns_to_exclude → name ∉ new_columns c) →
  get out name
  = match get df name with
    | Some (Utf8 ss) => Some (Utf8 ss)
    | Some (Float64 vs) =>
        Some (Float64
                (map (λ v, if decide (not_excluded df columns_to_exclude = [])
                           then pandas_cell v
                           else pandas_cell (fill_nan_cell v)) vs))
    | None => None
    end.
Proof.
  unfold growth_columns_by_year, growth_rounds.
  destruct (for_each growth_round df (not_excluded df columns_to_exclude))
    as [out'|e] eqn:Hrounds; [|done].
  simpl. intros [= <-] Hname.
  rewrite get_through_pandas, (growth_rounds_other _ _ _ _ Hrounds Hname).
  destruct (get df name) as [[vs|ss]|]; simpl; [|by case_decide|done].
  case_decide; simpl; [done|]. by rewrite map_map.
Qed.

(** An excluded column with a NaN and an infinity, next to one measure. *)
Lemma growth_rewrites_the_input_columns_witness :
  let df :=
    [("regio", Utf8 [Some "Amsterdam"; Some "Amsterdam"]);
     ("dichtheid", Float64 [Some nan; Some infinity]);
     ("bevolking_1_januari", Float64 [Some 100%float; Some 150%float])] in
  ∃ out,
    growth_columns_by_year df ["regio"; "dichtheid"] = Ok out
    ∧ get out "dichtheid" = Some (Float64 [Some 0%float; Some 0%float])
    ∧ get out "regio" = Some (Utf8 [Some "Amsterdam"; Some "Amsterdam"]).
Proof.
  intros df.
  destruct (growth_columns_by_year df ["regio"; "dichtheid"])
    as [out|e] eqn:Hout; [|by vm_compute in Hout].
  assert (∀ name, name ∈ ["regio"; "dichtheid"] →
            ∀ c, c ∈ not_excluded df ["regio"; "dichtheid"] →
              name ∉ new_columns c) as Hfree.
  { intros name Hname c Hc. vm_compute in Hc.
    apply elem_of_cons in Hc as [->|Hc]; [|by apply elem_of_nil in Hc].
    repeat (apply elem_of_cons in Hname as [->|Hname]);
      [..|by apply elem_of_nil in Hname];
      vm_compute; intros Hin;
      repeat (apply elem_of_cons in Hin as [Hin|Hin]);
      try discriminate; by apply elem_of_nil in Hin. }
  exists out. split; [done|]. split.
  - rewrite (growth_rewrites_the_input_columns df out ["regio"; "dichtheid"]
               "dichtheid" Hout); [|apply Hfree; set_solver].
    vm_compute. reflexivity.
  - rewrite (growth_rewrites_the_input_columns df out ["regio"; "dichtheid"]
               "regio" Hout); [|apply Hfree; set_solver].
    reflexivity.
Defined.

(** *** Shifting within a group *)

(** [expr.shift(n).over(keys)] for a positive [n]: each row gets the value
    [n] rows back among the rows with its key, null when there are fewer.
    [seen] holds the rows already passed, the latest first. *)
Definition nth_previous {A} (n : positive) (seen : list (Cell * option A))
    (k : Cell) : option A :=
  match filter (λ kv, cell_eqb kv.1 k = true) seen !! (Pos.to_nat n - 1)%nat
  with
  | Some (_, v) => v
  | None => None
  end.

Fixpoint shift_n_over {A} (n : positive) (seen : list (Cell * option A))
    (keys : list Cell) (vals : list (option A)) : list (option A) :=
  match keys, vals with
  | k :: keys', v :: vals' =>
      nth_previous n seen k :: shift_n_over n ((k, v) :: seen) keys' vals'
  | _, _ => []
  end.

Definition shift_by_over (n : positive) (keys s : Series) : Series :=
  match s with
  | Float64 vs => Float64 (shift_n_over n [] (cells keys) vs)
  | Utf8 vs => Utf8 (shift_n_over n [] (cells keys) vs)
  end.

(** The rows before row [i] that have the key [k], the latest first. *)
Definition same_key_before {A} (keys : list Cell) (vals : list (option A))
    (i : nat) (k : Cell) : list (Cell * option A) :=
  reverse (filter (λ kv, cell_eqb kv.1 k = true)
             (zip (take i keys) (take i vals))).

Lemma nth_previous_one {A} (seen : list (Cell * option A)) k :
  nth_previous 1 seen k = previous seen k.
Proof.
  unfold nth_previous, previous. simpl.
  induction seen as [|kv seen IH]; simpl; [done|].
  rewrite filter_cons. case_decide as Hkv; [by rewrite Hkv|].
  by destruct (cell_eqb kv.1 k).
Qed.

Lemma shift_n_over_one {A} seen keys (vals : list (option A)) :
  shift_n_over 1 seen keys vals = shift_over seen keys vals.
Proof.
  revert seen vals. induction keys as [|k keys IH]; intros seen [|v vals];
    simpl; try done.
  by rewrite nth_previous_one, IH.
Qed.

Lemma shift_by_over_one keys s : shift_by_over 1 keys s = shift1_over keys s.
Proof. destruct s; simpl; by rewrite shift_n_over_one. Qed.

Lemma length_shift_n_over {A} n seen keys (vals : list (option A)) :
  length (shift_n_over n seen keys vals)
  = (length keys `min` length vals)%nat.
Proof.
  revert seen vals. induction keys as [|k keys IH]; intros seen [|v vals];
    simpl; try done.
  by rewrite IH.
Qed.

Lemma shift_n_over_lookup {A} n seen keys (vals : list (option A)) i k :
  keys !! i = Some k → (i < length vals)%nat →
  shift_n_over n seen keys vals !! i
  = Some (nth_previous n
            (reverse (zip (take i keys) (take i vals)) ++ seen) k).
Proof.
  revert seen vals i. induction keys as [|k0 keys IH];
    intros seen [|v vals] i Hk Hi; simpl in *; try done; try lia.
  destruct i as [|i]; simpl in *; [by injection Hk as ->|].
  rewrite (IH _ _ i Hk) by lia.
  by rewrite reverse_cons, <- (assoc_L (++)).
Qed.

(** Row [i] of the shifted column holds the value of the [n]-th of the
    earlier rows with its key, counted backwards. *)
Lemma shift_n_over_spec {A} n keys (vals : list (option A)) i k :
  keys !! i = Some k → (i < length vals)%nat →
  shift_n_over n [] keys vals !! i
  = Some (match same_key_before keys vals i k !! (Pos.to_nat n - 1)%nat with
          | Some (_, v) => v
          | None => None
          end).
Proof.
  intros Hk Hi. rewrite (shift_n_over_lookup n [] keys vals i k Hk Hi).
  unfold nth_previous, same_key_before.
  by rewrite app_nil_r, filter_reverse.
Qed.

Lemma filter_none {A} (P : A → Prop) `{∀ x, Decision (P x)} (l : list A) :
  Forall (λ x, ¬ P x) l → filter P l = [].
Proof.
  induction 1 as [|x l Hx _ IH]; [done|].
  by rewrite filter_cons, decide_False.
Qed.

(** The latest earlier row with the key. *)
Lemma same_key_before_latest {A} keys (vals : list (option A)) i j k kj v :
  (j < i)%nat → keys !! j = Some kj → vals !! j = Some v →
  cell_eqb kj k = true →
  (∀ m km, (j < m < i)%nat → keys !! m = Some km → cell_eqb km k = false) →
  same_key_before keys vals i k !! 0%nat = Some (kj, v).
Proof.
  intros Hj Hkj Hv Hsame Hbetween. unfold same_key_before.
  set (rows := zip (take i keys) (take i vals)).
  assert (rows !! j = Some (kj, v)) as Hrow.
  { unfold rows. rewrite lookup_zip_with, !lookup_take_lt by done.
    by rewrite Hkj, Hv. }
  rewrite <- (take_drop_middle rows j _ Hrow), filter_app, filter_cons.
  rewrite decide_True by done.
  rewrite (filter_none _ (drop (S j) rows)).
  - by rewrite reverse_app.
  - apply Forall_lookup. intros m [km vm]. rewrite lookup_drop. unfold rows.
    intros (km' & vm' & [= -> ->] & Hkm & _)%lookup_zip_with_Some.
    apply lookup_take_Some in Hkm as [Hkm Hlt]. simpl.
    rewrite (Hbetween (S j + m)%nat km'); [done | lia | done].
Qed.

(** *** The growth of a row *)

(** Row [j] is the previous row of the region of row [i]; the rows without
    a region name form one group. *)
Definition previous_row (regio : list (option string)) (j i : nat) : Prop :=
  (j < i)%nat
  ∧ is_Some (regio !! i)
  ∧ regio !! j = regio !! i
  ∧ ∀ m, (j < m < i)%nat → regio !! m ≠ regio !! i.

Lemma cell_eqb_string_refl a :
  cell_eqb (cell_of_string a) (cell_of_string a) = true.
Proof. destruct a as [a|]; simpl; [apply String.eqb_refl | done]. Qed.

Lemma shift_over_previous_row regio (vs : list (option float)) i j :
  length vs = length regio → previous_row regio j i →
  ∃ p, vs !! j = Some p
    ∧ shift_over [] (cells (Utf8 regio)) vs !! i = Some p.
Proof.
  intros Hlen (Hj & [k Hk] & Hsame & Hbetween).
  pose proof (lookup_lt_Some _ _ _ Hk) as Hi.
  destruct (lookup_lt_is_Some_2 vs j) as [p Hp]; [lia|].
  exists p. split; [done|].
  assert (∀ m, cells (Utf8 regio) !! m = cell_of_string <$> regio !! m)
    as Hcells.
  { intros m. simpl. change (map ?f regio) with (f <$> regio).
    rewrite list_lookup_fmap. by destruct (regio !! m) as [[?|]|]. }
  rewrite <- shift_n_over_one.
  rewrite (shift_n_over_spec 1 _ _ i (cell_of_string k));
    [|by rewrite Hcells, Hk | lia].
  rewrite (same_key_before_latest _ _ i j _ (cell_of_string k) p); try done.
  - by rewrite Hcells, Hsame, Hk.
  - apply cell_eqb_string_refl.
  - intros m km Hm. rewrite Hcells.
    destruct (regio !! m) as [k'|] eqn:Hk'; [|done]. intros [= <-].
    apply cell_eqb_string. intros ->. apply (Hbetween m Hm). congruence.
Qed.

Lemma for_each_app body df cols1 cols2 out :
  for_each body df (cols1 ++ cols2) = Ok out →
  ∃ d, for_each body df cols1 = Ok d ∧ for_each body d cols2 = Ok out.
Proof.
  revert df. induction cols1 as [|c cols1 IH]; intros df Hout; [by exists df|].
  simpl in *. destruct (body df c) as [d'|e]; simpl in *; [by apply IH|done].
Qed.

(** X10. The growth of a measure in a row is computed from the previous row
    of the same region, wherever that row stands in the frame. For a measure
    without NaN whose column no other round writes: the [_previous_moment]
    column holds the measure of the previous row of the region, and the
    [_growth] column their difference divided by that value, each with NaN
    and the infinities replaced by 0 (a null stays null). *)
Theorem growth_from_previous_row (df out : DataFrame)
    (columns_to_exclude : list string) (regio : list (option string))
    (column : string) (vs : list (option float)) (i j : nat) :
  well_formed df →
  get df "regio" = Some (Utf8 regio) →
  get df column = Some (Float64 vs) →
  column ∈ not_excluded df columns_to_exclude →
  (∀ c, c ∈ not_excluded df columns_to_exclude → column ∉ new_columns c) →
  Forall (λ v, ∀ x, v = Some x → PrimFloat.is_nan x = false) vs →
  previous_row regio j i →
  growth_columns_by_year df columns_to_exclude = Ok out →
  ∃ v p ps gs,
    vs !! i = Some v ∧ vs !! j = Some p
    ∧ get out (column +:+ "_previous_moment") = Some (Float64 ps)
    ∧ get out (column +:+ "_growth") = Some (Float64 gs)
    ∧ ps !! i = Some (pandas_cell p)
    ∧ gs !! i
      = Some (pandas_cell
                (fill_nan_cell
                   (lift2 PrimFloat.div (lift2 PrimFloat.sub v p) p))).
Proof.
  intros Hwf Hregio Hvs Hcol Hfree Hnan Hprev.
  unfold growth_columns_by_year, growth_rounds.
  destruct (for_each growth_round df (not_excluded df columns_to_exclude))
    as [out'|e] eqn:Hrounds; [|done].
  simpl. intros [= <-].
  pose proof (well_formed_uniform df Hwf) as Hlen.
  assert (length vs = length regio) as Hlvs.
  { pose proof (Hlen _ _ Hvs) as H1. pose proof (Hlen _ _ Hregio) as H2.
    simpl in *. congruence. }
  assert (NoDup (not_excluded df columns_to_exclude)) as Hnodup
    by (apply NoDup_not_excluded; by destruct Hwf).
  apply list_elem_of_split in Hcol as (before & after & Hsplit).
  rewrite Hsplit in Hrounds, Hnodup, Hfree.
  apply for_each_app in Hrounds as (d1 & Hbefore & Hrounds).
  apply for_each_cons_inv in Hrounds as (d2 & Hround & Hafter).
  apply NoDup_app in Hnodup as (_ & Hnotin & [Hnotafter _]%NoDup_cons).
  assert (fill_nan_series (Float64 vs) = Float64 vs) as Hfill.
  { simpl. f_equal. rewrite <- (map_id vs) at 2. apply map_ext_Forall.
    eapply Forall_impl; [exact Hnan|]. intros v. apply fill_nan_cell_id. }
  assert (get d1 column = Some (Float64 vs)) as Hvs1.
  { rewrite (growth_rounds_other _ _ _ _ Hbefore), Hvs.
    - simpl. case_decide; [done | by rewrite Hfill].
    - intros c Hc. apply Hfree, elem_of_app. by left. }
  assert (get d1 "regio" = Some (Utf8 regio)) as Hregio1.
  { rewrite (growth_rounds_other _ _ _ _ Hbefore), Hregio.
    - simpl. by case_decide.
    - intros c Hc [Heq|[Heq|?%elem_of_nil]%elem_of_cons]%elem_of_cons;
        [by apply regio_ne_previous in Heq
        |by apply regio_ne_growth in Heq|done]. }
  rewrite (growth_round_float _ _ _ _ Hvs1 Hregio1) in Hround.
  injection Hround as <-.
  destruct (shift_over_previous_row regio vs i j Hlvs Hprev)
    as (p & Hp & Hshift).
  destruct Hprev as (Hj & [k Hk] & _).
  destruct (lookup_lt_is_Some_2 vs i) as [v Hv].
  { apply lookup_lt_Some in Hk. lia. }
  assert (∀ name, name ∈ new_columns column →
            get out' name
            = get (growth_frame d1 column (Utf8 regio) vs) name) as Hkept.
  { intros name Hname.
    rewrite (growth_rounds_other _ _ _ _ Hafter).
    - unfold growth_frame. rewrite get_fill_nan.
      destruct (get _ name) as [s|]; simpl; [|by try case_decide].
      case_decide; simpl; [done | by rewrite fill_nan_series_idem].
    - intros c Hc. apply new_columns_disjoint with column; [|done].
      intros ->. done. }
  exists v, p. eexists _, _. split; [done|]. split; [done|].
  assert (column +:+ "_previous_moment" ∈ new_columns column) as Hin1
    by (by left).
  assert (column +:+ "_growth" ∈ new_columns column) as Hin2
    by (by right; left).
  rewrite !get_through_pandas, (Hkept _ Hin1), (Hkept _ Hin2),
    !get_growth_frame.
  rewrite decide_False by apply previous_ne_growth.
  rewrite !decide_True by done. simpl.
  split; [reflexivity|]. split; [reflexivity|].
  change (map ?f ?l) with (f <$> l). rewrite !list_lookup_fmap.
  simpl in Hshift. unfold growth_of.
  rewrite !lookup_zip_with, Hshift, Hv. simpl.
  pose proof (Forall_lookup_1 _ _ _ _ Hnan Hp) as Hpnan.
  rewrite (fill_nan_cell_id p Hpnan). done.
Qed.

(** Amsterdam in the third row of the sample, after Noordwijk. *)
Lemma growth_from_previous_row_witness :
  ∃ out gs,
    growth_columns_by_year sample_frame ["regio"; "jaar"] = Ok out
    ∧ get out "bevolking_1_januari_growth" = Some (Float64 gs)
    ∧ gs !! 2%nat
      = Some (Some (PrimFloat.div (PrimFloat.sub 882633 873338) 873338)).
Proof.
  destruct (growth_columns_by_year sample_frame ["regio"; "jaar"])
    as [out|e] eqn:Hout; [|by vm_compute in Hout].
  destruct (growth_from_previous_row sample_frame out ["regio"; "jaar"]
              [Some "Amsterdam"; Some "Noordwijk"; Some "Amsterdam"]
              "bevolking_1_januari"
              [Some 873338%float; Some 44062%float; Some 882633%float]
              2 0)
    as (v & p & ps & gs & Hv & Hp & _ & Hgs & _ & Hi).
  - split; [vm_compute; repeat constructor; set_solver|].
    repeat constructor.
  - reflexivity.
  - reflexivity.
  - vm_compute. set_solver.
  - intros c Hc. vm_compute in Hc.
    repeat (apply elem_of_cons in Hc as [->|Hc]);
      [..|by apply elem_of_nil in Hc];
      vm_compute; intros Hin;
      repeat (apply elem_of_cons in Hin as [Hin|Hin]);
      try discriminate; by apply elem_of_nil in Hin.
  - repeat constructor; intros x [= <-]; reflexivity.
  - split; [lia|]. split; [by eexists|]. split; [reflexivity|].
    intros m Hm. assert (m = 1%nat) as -> by lia. discriminate.
  - exact Hout.
  - injection Hv as <-. injection Hp as <-.
    exists out, gs. split; [done|]. split; [exact Hgs|].
    rewrite Hi. vm_compute. reflexivity.
Defined.

(** *** A divisor that is not a column *)

Lemma divide_rounds_without_divisor divide_by_column df cols :
  get df divide_by_column = None →
  (∀ c, c ∈ cols → is_Some (get df c)) →
  for_each (divide_round divide_by_column) df cols
  = match cols with
    | [] => Ok df
    | _ :: _ => Raise ColumnNotFoundError
    end.
Proof.
  intros Hd Hcols. destruct cols as [|c cols]; [done|].
  destruct (Hcols c) as [s Hs]; [by left|].
  simpl. unfold divide_round, col. by rewrite Hs, Hd.
Qed.

(** X11. When the divisor is not a column of the frame,
    [divide_columns_by_column] raises if any column is outside the
    exclusion list, and returns the frame as it is if all are excluded; the
    divisor is appended to the caller's list in both cases. *)
Theorem divide_by_a_missing_column (df : DataFrame)
    (divide_by_column : string) (columns_to_exclude : list string) :
  divide_by_column ∉ columns df →
  divide_columns_by_column df divide_by_column columns_to_exclude
  = (if decide (Forall (λ c, c ∈ columns_to_exclude) (columns df))
     then Ok df else Raise ColumnNotFoundError,
     columns_to_exclude ++ [divide_by_column]).
Proof.
  intros Hd. unfold divide_columns_by_column. f_equal.
  rewrite divide_rounds_without_divisor.
  - destruct (not_excluded df (columns_to_exclude ++ [divide_by_column]))
      as [|c cols] eqn:Hcols.
    + rewrite decide_True; [done|]. apply Forall_forall. intros c Hc.
      destruct (decide (c ∈ columns_to_exclude)) as [|Hout]; [done|].
      assert (c ∈ not_excluded df (columns_to_exclude ++ [divide_by_column]))
        as Hin; [|rewrite Hcols in Hin; by apply elem_of_nil in Hin].
      apply list_elem_of_filter. split; [|done].
      rewrite elem_of_app, list_elem_of_singleton. intros [?| ->]; done.
    + rewrite decide_False; [done|]. intros Hall.
      assert (c ∈ not_excluded df (columns_to_exclude ++ [divide_by_column]))
        as [Hout Hc]%list_elem_of_filter by (rewrite Hcols; by left).
      apply Hout, elem_of_app. left.
      by eapply Forall_forall in Hall.
  - by apply get_None_columns.
  - intros c [_ Hc]%list_elem_of_filter. by apply get_Some_columns.
Qed.

(** The land-use frame without its total area. *)
Lemma divide_by_a_missing_column_witness :
  divide_columns_by_column sample_frame "oppervlakte" ["regio"; "jaar"]
  = (Raise ColumnNotFoundError, ["regio"; "jaar"; "oppervlakte"])
  ∧ divide_columns_by_column [("regio", Utf8 [Some "Amsterdam"])]
      "oppervlakte" ["regio"]
    = (Ok [("regio", Utf8 [Some "Amsterdam"])], ["regio"; "oppervlakte"]).
Proof.
  split.
  - rewrite divide_by_a_missing_column.
    + rewrite decide_False; [done|]. intros Hall. vm_compute in Hall.
      apply Forall_cons in Hall as [_ Hall].
      apply Forall_cons in Hall as [_ Hall].
      apply Forall_cons in Hall as [Hin _]. set_solver.
    + vm_compute. set_solver.
  - rewrite divide_by_a_missing_column.
    + rewrite decide_True; [done|]. vm_compute. repeat constructor.
    + vm_compute. set_solver.
Defined.

(** *** A column of strings outside the exclusion list *)

(** A round returns, or fails on the arithmetic. *)
Lemma growth_round_result d c :
  is_Some (get d c) → is_Some (get d "regio") →
  (∃ d', growth_round d c = Ok d')
  ∨ growth_round d c = Raise InvalidOperationError.
Proof.
  intros [value Hc] [regio Hregio].
  destruct value as [vs|ss].
  - left. eexists. by apply growth_round_float.
  - right. unfold growth_round, col. rewrite Hc, Hregio. simpl.
    rewrite (get_with_column_ne d (c +:+ "_previous_moment") c), Hc
      by (by apply not_eq_sym, name_ne_suffixed).
    simpl. by rewrite get_with_column_eq.
Qed.

Lemma growth_round_keeps d c d' name :
  growth_round d c = Ok d' → is_Some (get d name) → is_Some (get d' name).
Proof.
  intros (regio & vs & _ & _ & ->)%growth_round_inv [s Hs].
  rewrite get_growth_frame, Hs. repeat case_decide; by eexists.
Qed.

Lemma growth_rounds_raise cols d c ss :
  get d c = Some (Utf8 ss) → c ∈ cols →
  is_Some (get d "regio") →
  (∀ c', c' ∈ cols → is_Some (get d c')) →
  (∀ c', c' ∈ cols → c ∉ new_columns c') →
  for_each growth_round d cols = Raise InvalidOperationError.
Proof.
  revert d. induction cols as [|c0 cols IH];
    intros d Hc Hin Hregio Hcols Hfree; [by apply elem_of_nil in Hin|].
  simpl.
  destruct (growth_round_result d c0) as [[d' Hd']| ->];
    [apply Hcols; by left | done | | done].
  rewrite Hd'. simpl.
  destruct (decide (c0 = c)) as [->|Hne].
  { apply growth_round_inv in Hd' as (? & vs & Hvs & _). congruence. }
  apply elem_of_cons in Hin as [->|Hin]; [done|].
  apply IH; [|done|..].
  - rewrite (growth_round_other d c0 d' c Hd'), Hc; [done|].
    apply Hfree. by left.
  - by eapply growth_round_keeps.
  - intros c' Hc'. eapply growth_round_keeps; [done|]. apply Hcols. by right.
  - intros c' Hc'. apply Hfree. by right.
Qed.

(** X19. A column of strings outside the exclusion list makes
    [growth_columns_by_year] raise: on a frame with a [regio] column, if a
    column that holds strings is not excluded (and no round of another
    column writes it first), the call ends with an invalid-operation error
    and returns no frame. The region column itself is such a column: it has
    to be in the list. *)
Theorem growth_raises_on_a_string_column (df : DataFrame)
    (columns_to_exclude : list string) (column : string)
    (ss : list (option string)) :
  is_Some (get df "regio") →
  get df column = Some (Utf8 ss) →
  column ∉ columns_to_exclude →
  (∀ c, c ∈ not_excluded df columns_to_exclude → column ∉ new_columns c) →
  growth_columns_by_year df columns_to_exclude = Raise InvalidOperationError.
Proof.
  intros Hregio Hcol Hout Hfree.
  unfold growth_columns_by_year, growth_rounds.
  rewrite (growth_rounds_raise _ df column ss); try done.
  - apply list_elem_of_filter. split; [done|].
    apply get_Some_columns. by rewrite Hcol.
  - intros c [_ Hc]%list_elem_of_filter. by apply get_Some_columns.
Qed.

(** The sample frame with only the year excluded: the region is a column of
    strings. *)
Lemma growth_raises_on_a_string_column_witness :
  growth_columns_by_year sample_frame ["jaar"] = Raise InvalidOperationError.
Proof.
  apply (growth_raises_on_a_string_column sample_frame ["jaar"] "regio"
           [Some "Amsterdam"; Some "Noordwijk"; Some "Amsterdam"]).
  - by eexists.
  - reflexivity.
  - set_solver.
  - intros c _. intros [Heq|[Heq|?%elem_of_nil]%elem_of_cons]%elem_of_cons;
      [by apply regio_ne_previous in Heq | by apply regio_ne_growth in Heq
      | done].
Defined.

End Frames.

(** ** The load stage *)

Module Load.
Import Py Xml Store Frames.

Section load.

(** How [cast(pl.Utf8)] writes a float; the text is polars' business. *)
Variable float_to_string : float → string.

Definition cast_utf8 (s : Series) : list (option string) :=
  match s with
  | Float64 vs => map (option_map float_to_string) vs
  | Utf8 vs => vs
  end.

(** [df.cast(pl.Utf8)] *)
Definition cast (df : DataFrame) : DataFrame :=
  map (λ c, (c.1, Utf8 (cast_utf8 c.2))) df.

(** [pl.col(...).is_in(regios)] on one value: null on a null. *)
Definition is_in (regios : list (option string)) (v : option string)
  : option bool :=
  match v with
  | None => None
  | Some k => Some (bool_decide (Some k ∈ regios))
  end.

(** [df.filter(mask)] keeps the rows where the mask is true. *)
Fixpoint keep {A} (mask : list (option bool)) (vs : list A) : list A :=
  match mask, vs with
  | m :: mask', v :: vs' =>
      match m with
      | Some true => v :: keep mask' vs'
      | _ => keep mask' vs'
      end
  | _, _ => []
  end.

Definition filter_series (mask : list (option bool)) (s : Series) : Series :=
  match s with
  | Float64 vs => Float64 (keep mask vs)
  | Utf8 vs => Utf8 (keep mask vs)
  end.

Definition filter_frame (mask : list (option bool)) (df : DataFrame)
  : DataFrame :=
  map (λ c, (c.1, filter_series mask c.2)) df.

(** [df.to_dicts()] on a frame of strings: one dictionary per row. *)
Definition cell_text (s : Series) (i : nat) : option string :=
  default None (cast_utf8 s !! i).

Definition to_dicts (df : DataFrame) : list Record :=
  map (λ i, list_to_map (map (λ c, (c.1, cell_text c.2 i)) df))
    (seq 0 (height df)).

(** [pl.read_parquet(path)] over the chunk files on disk, each one a frame
    that the fetch stage wrote whole; a file that is there but is no parquet
    file is not modelled. *)
Definition read_parquet (disk : gmap string DataFrame) (path : string)
  : result DataFrame :=
  match disk !! path with
  | Some df => Ok df
  | None => Raise FileNotFoundError
  end.

(** [parse_parquet_to_db] up to the call of [upsert]: the objects it hands
    over. [regios] is the series of region keys of the caller, a column of
    strings, and the model classes, which are not part of this source, are
    taken to accept every row. *)
Definition list_of_objects (disk : gmap string DataFrame) (path : string)
    (regios : list (option string)) : result (list Record) :=
  df ← read_parquet disk path;
  let df := cast df in
  regio_key ← col df "regio_key";
  let df := filter_frame (map (is_in regios) (cast_utf8 regio_key)) df in
  Ok (to_dicts df).

Definition parse_parquet_to_db (disk : gmap string DataFrame) (path : string)
    (object : Model) (db : DB) (regios : list (option string)) : result DB :=
  data ← list_of_objects disk path regios;
  Ok (upsert db object data).

(** *** Facts about the load stage *)

Lemma get_map_series (f : Series → Series) df name :
  get (map (λ c, (c.1, f c.2)) df) name = f <$> get df name.
Proof.
  induction df as [|[n s] df IH]; simpl; [done|].
  by destruct (String.eqb n name).
Qed.

Lemma lookup_row (f : Series → option string) (df : DataFrame) name :
  (list_to_map (map (λ c, (c.1, f c.2)) df) : Record) !! name
  = f <$> get df name.
Proof.
  induction df as [|[n s] df IH]; simpl; [done|].
  destruct (String.eqb_spec n name) as [->|Hne].
  - by rewrite lookup_insert_eq.
  - by rewrite lookup_insert_ne.
Qed.

Lemma length_keep {A B} mask (vs : list A) (ws : list B) :
  length vs = length ws → length (keep mask vs) = length (keep mask ws).
Proof.
  revert vs ws. induction mask as [|m mask IH]; intros [|v vs] [|w ws] Hlen;
    simpl in *; try done.
  destruct m as [[|]|]; simpl; auto.
Qed.

Lemma keep_is_in regios (vs : list (option string)) v :
  v ∈ keep (map (is_in regios) vs) vs → is_in regios v = Some true.
Proof.
  induction vs as [|v0 vs IH]; simpl; [by intros ?%elem_of_nil|].
  destruct (is_in regios v0) as [[|]|] eqn:Hv0; [|done..].
  intros [->|Hin]%elem_of_cons; [done | by apply IH].
Qed.

Lemma get_cast df name :
  get (cast df) name = (λ s, Utf8 (cast_utf8 s)) <$> get df name.
Proof. apply (get_map_series (λ s, Utf8 (cast_utf8 s))). Qed.

Lemma length_cast_utf8 s : length (cast_utf8 s) = len s.
Proof. destruct s; simpl; [apply length_map | done]. Qed.

Lemma height_filter_cast mask df name s :
  well_formed df → get df name = Some s →
  height (filter_frame mask (cast df)) = length (keep mask (cast_utf8 s)).
Proof.
  intros Hwf Hs. pose proof (well_formed_uniform df Hwf _ _ Hs) as Hlen.
  destruct df as [|[n0 s0] df]; [done|]. simpl in *.
  apply length_keep. by rewrite !length_cast_utf8.
Qed.

(** The database after a call of [parse_parquet_to_db], returned or raised. *)
Definition database_after (disk : gmap string DataFrame) (path : string)
    (object : Model) (regios : list (option string)) (db : DB) : DB :=
  match parse_parquet_to_db disk path object db regios with
  | Ok db' => db'
  | Raise _ => db
  end.

(** C3. Loading a chunk file a second time leaves the database as the first
    load left it, for every chunk file, entity class and set of allowed
    regions. *)
Theorem load_twice_same (disk : gmap string DataFrame) (path : string)
    (object : Model) (regios : list (option string)) (db : DB) :
  database_after disk path object regios
    (database_after disk path object regios db)
  = database_after disk path object regios db.
Proof.
  unfold database_after, parse_parquet_to_db.
  destruct (list_of_objects disk path regios) as [data|e]; simpl; [|done].
  apply upsert_idem.
Qed.

(** C5. Every object that [parse_parquet_to_db] hands to the upsert has a
    region key, and that key is one of the allowed regions. *)
Theorem only_allowed_regions_upserted (disk : gmap string DataFrame)
    (path : string) (regios : list (option string)) (df : DataFrame)
    (data : list Record) :
  disk !! path = Some df → well_formed df →
  list_of_objects disk path regios = Ok data →
  ∀ row, row ∈ data →
    ∃ k, row !! "regio_key" = Some (Some k) ∧ Some k ∈ regios.
Proof.
  intros Hdisk Hwf. unfold list_of_objects, read_parquet, col.
  rewrite Hdisk. simpl. rewrite get_cast.
  destruct (get df "regio_key") as [s|] eqn:Hs; simpl; [|done].
  intros [= <-] row Hrow. unfold to_dicts in Hrow.
  change (map ?f ?l) with (f <$> l) in Hrow.
  apply list_elem_of_fmap in Hrow as (i & -> & Hi%elem_of_seq).
  rewrite (height_filter_cast _ _ _ _ Hwf Hs) in Hi.
  change (list_fmap _ _ ?f ?l) with (map f l).
  rewrite (lookup_row (λ s, cell_text s i)).
  unfold filter_frame. rewrite get_map_series, get_cast, Hs. simpl.
  unfold cell_text. simpl.
  destruct (lookup_lt_is_Some_2
              (keep (map (is_in regios) (cast_utf8 s)) (cast_utf8 s)) i)
    as [v Hv]; [lia|].
  rewrite Hv. simpl.
  pose proof (keep_is_in regios (cast_utf8 s) v
                ltac:(by eapply list_elem_of_lookup_2)) as Hin.
  destruct v as [k|]; [|done]. exists k. split; [done|].
  injection Hin as Hin. by apply bool_decide_eq_true in Hin.
Qed.

End load.

Definition sample_chunk : DataFrame :=
  [("id", Utf8 [Some "0"; Some "1"; Some "2"; Some "3"]);
   ("regio_key", Utf8 [Some "GM0363"; Some "GM9999"; None; Some "NL01  "]);
   ("totale_oppervlakte", Utf8 [Some "21949"; Some "1"; Some "2"; None])].

(** A chunk with a discontinued region and a row without region. *)
Lemma only_allowed_regions_upserted_witness :
  list_of_objects (λ _, "") {[ "Bodemgebruik_10000.parquet" := sample_chunk ]}
    "Bodemgebruik_10000.parquet" [Some "GM0363"; Some "NL01  "]
  = Ok [ {[ "id" := Some "0"; "regio_key" := Some "GM0363";
            "totale_oppervlakte" := Some "21949" ]};
         {[ "id" := Some "3"; "regio_key" := Some "NL01  ";
            "totale_oppervlakte" := None ]} ]
  ∧ ∀ row,
      row ∈ [ ({[ "id" := Some "0"; "regio_key" := Some "GM0363";
                  "totale_oppervlakte" := Some "21949" ]} : Record);
              {[ "id" := Some "3"; "regio_key" := Some "NL01  ";
                 "totale_oppervlakte" := None ]} ] →
      ∃ k, row !! "regio_key" = Some (Some k)
        ∧ Some k ∈ [Some "GM0363"; Some "NL01  "].
Proof.
  split; [vm_compute; reflexivity|].
  apply (only_allowed_regions_upserted (λ _, "")
           {[ "Bodemgebruik_10000.parquet" := sample_chunk ]}
           "Bodemgebruik_10000.parquet" _ sample_chunk).
  - reflexivity.
  - split; [vm_compute; repeat constructor; set_solver|].
    repeat constructor.
  - vm_compute. reflexivity.
Defined.

Section rows.
Variable float_to_string : float → string.

(** *** Rows of a filtered frame *)

(** Row [i] of [to_dicts]. *)
Definition row_of (df : DataFrame) (i : nat) : Record :=
  list_to_map (map (λ c, (c.1, cell_text float_to_string c.2 i)) df).

(** The test of the filter, read off a row dictionary. *)
Definition allowed (regios : list (option string)) (row : Record) : bool :=
  match row !! "regio_key" with
  | Some (Some k) => bool_decide (Some k ∈ regios)
  | _ => false
  end.

Lemma keep_map {A B} (f : A → B) mask (vs : list A) :
  keep mask (map f vs) = map f (keep mask vs).
Proof.
  revert vs. induction mask as [|m mask IH]; intros [|v vs]; simpl; try done.
  destruct m as [[|]|]; simpl; by rewrite IH.
Qed.

Lemma keep_seq_ge mask (n len j : nat) :
  j ∈ keep mask (seq n len) → (n ≤ j)%nat.
Proof.
  revert n len. induction mask as [|m mask IH]; intros n [|len]; simpl;
    try (by intros ?%elem_of_nil).
  assert (j ∈ keep mask (seq (S n) len) → (n ≤ j)%nat) as Htail
    by (intros Hj%IH; lia).
  destruct m as [[|]|]; [|done..].
  intros [->|Hj]%elem_of_cons; [lia | auto].
Qed.

(** The rows a mask keeps, by their indices. *)
Lemma lookup_keep {A} mask (vs : list A) (n i : nat) :
  keep mask vs !! i
  = keep mask (seq n (length vs)) !! i ≫= λ j, vs !! (j - n)%nat.
Proof.
  revert vs n i. induction mask as [|m mask IH]; intros [|v vs] n i;
    simpl; try done.
  assert (∀ i, keep mask vs !! i
               = keep mask (seq (S n) (length vs)) !! i
                   ≫= λ j, (v :: vs) !! (j - n)%nat) as Htail.
  { intros i'. rewrite (IH vs (S n) i').
    destruct (keep mask (seq (S n) (length vs)) !! i') as [j|] eqn:Hj;
      [|done].
    simpl. apply list_elem_of_lookup_2, keep_seq_ge in Hj.
    by replace (j - n)%nat with (S (j - S n)) by lia. }
  destruct m as [[|]|]; [|apply Htail..].
  destruct i as [|i]; simpl; [by rewrite Nat.sub_diag | apply Htail].
Qed.

Lemma cast_utf8_filter mask s :
  cast_utf8 float_to_string (filter_series mask s)
  = keep mask (cast_utf8 float_to_string s).
Proof. destruct s; simpl; [by rewrite keep_map | done]. Qed.

Lemma height_filter_frame mask df :
  height (filter_frame mask df) = length (keep mask (seq 0 (height df))).
Proof.
  destruct df as [|[n s] df]; simpl; [by destruct mask|].
  destruct s; simpl; apply length_keep; by rewrite length_seq.
Qed.

Lemma row_of_filter mask df i j :
  Forall (λ c, len c.2 = height df) df →
  keep mask (seq 0 (height df)) !! i = Some j →
  row_of (filter_frame mask df) i = row_of df j.
Proof.
  intros Hlen Hj. unfold row_of, filter_frame. rewrite map_map. f_equal.
  apply map_ext_Forall. eapply Forall_impl; [exact Hlen|].
  intros [n s] Hs. simpl in *. f_equal. unfold cell_text.
  rewrite cast_utf8_filter, (lookup_keep _ _ 0), length_cast_utf8, Hs, Hj.
  simpl. by rewrite Nat.sub_0_r.
Qed.

(** [filter] and [to_dicts] commute: the dictionaries of the filtered frame
    are the dictionaries of the rows kept. *)
Lemma to_dicts_filter mask df :
  Forall (λ c, len c.2 = height df) df →
  to_dicts float_to_string (filter_frame mask df)
  = keep mask (to_dicts float_to_string df).
Proof.
  intros Hlen. unfold to_dicts.
  change (λ i, list_to_map (map (λ c, (c.1, cell_text float_to_string c.2 i))
                              ?d))
    with (row_of d).
  rewrite keep_map, height_filter_frame.
  apply list_eq. intros i. change (map ?f ?l) with (f <$> l).
  rewrite !list_lookup_fmap.
  destruct (keep mask (seq 0 (height df)) !! i) as [j|] eqn:Hj; simpl.
  - rewrite lookup_seq_lt by (by eapply lookup_lt_Some). simpl.
    f_equal. by apply row_of_filter.
  - rewrite lookup_seq_ge; [done|]. by apply lookup_ge_None.
Qed.

Lemma keep_filter {A B} (f : A → option bool) (P : B → Prop)
    `{∀ y, Decision (P y)} (xs : list A) (ys : list B) :
  Forall2 (λ x y, f x = Some true ↔ P y) xs ys →
  keep (map f xs) ys = filter P ys.
Proof.
  induction 1 as [|x y xs ys Hxy _ IH]; simpl; [done|].
  rewrite filter_cons, IH.
  destruct (f x) as [[|]|]; case_decide as Hy; try done;
    try (apply Hxy in Hy; done); exfalso; apply Hy, Hxy; done.
Qed.

Lemma height_cast df : height (cast float_to_string df) = height df.
Proof. destruct df as [|[n s] df]; [done|]. apply length_cast_utf8. Qed.

Lemma lookup_to_dicts df i :
  (i < height df)%nat →
  to_dicts float_to_string df !! i = Some (row_of df i).
Proof.
  intros Hi. unfold to_dicts. change (map ?f ?l) with (f <$> l).
  by rewrite list_lookup_fmap, lookup_seq_lt.
Qed.

(** X12. The filter of the load stage is exact: on a chunk file with a
    [regio_key] column, the objects handed to the upsert are the rows of the
    chunk, every column cast to text, whose region key is not null and is one
    of the allowed regions; all of them, in the order of the file, and each
    once per row. *)
Theorem allowed_rows_all_upserted (disk : gmap string DataFrame)
    (path : string) (regios : list (option string)) (df : DataFrame) :
  disk !! path = Some df → well_formed df → "regio_key" ∈ columns df →
  list_of_objects float_to_string disk path regios
  = Ok (filter (λ row, allowed regios row = true)
          (to_dicts float_to_string (cast float_to_string df))).
Proof.
  intros Hdisk Hwf [s Hs]%get_Some_columns.
  unfold list_of_objects, read_parquet, col.
  rewrite Hdisk. simpl. rewrite get_cast, Hs. simpl. f_equal.
  pose proof (well_formed_uniform df Hwf _ _ Hs) as Hlen.
  assert (Forall (λ c, len c.2 = height (cast float_to_string df))
            (cast float_to_string df)) as Hcast.
  { rewrite height_cast. destruct Hwf as [_ Hall]. unfold cast.
    apply Forall_forall. intros c Hc. change (map ?f ?l) with (f <$> l) in Hc.
    apply list_elem_of_fmap in Hc as (c0 & -> & Hc0). simpl.
    rewrite length_cast_utf8. by eapply Forall_forall in Hall. }
  rewrite to_dicts_filter by done. apply keep_filter.
  apply Forall2_same_length_lookup_2.
  - unfold to_dicts. by rewrite length_map, length_seq, height_cast,
      length_cast_utf8.
  - intros i k row Hk Hrow.
    assert (i < height (cast float_to_string df))%nat as Hi.
    { apply lookup_lt_Some in Hk.
      by rewrite height_cast, <- Hlen, <- (length_cast_utf8 float_to_string). }
    rewrite lookup_to_dicts in Hrow by done. injection Hrow as <-.
    unfold allowed, row_of.
    rewrite (lookup_row (λ s, cell_text float_to_string s i)), get_cast, Hs.
    simpl. unfold cell_text. simpl. rewrite Hk. simpl.
    destruct k as [k|]; simpl; [|done]. split; congruence.
Qed.

End rows.

(** A chunk with a discontinued region and a row without region. *)
Lemma allowed_rows_all_upserted_witness :
  list_of_objects (λ _, "") {[ "Bodemgebruik_10000.parquet" := sample_chunk ]}
    "Bodemgebruik_10000.parquet" [Some "GM0363"; Some "NL01  "; None]
  = Ok [ {[ "id" := Some "0"; "regio_key" := Some "GM0363";
            "totale_oppervlakte" := Some "21949" ]};
         {[ "id" := Some "3"; "regio_key" := Some "NL01  ";
            "totale_oppervlakte" := None ]} ].
Proof.
  rewrite (allowed_rows_all_upserted (λ _, "") _ _ _ sample_chunk).
  - vm_compute. reflexivity.
  - reflexivity.
  - split; [vm_compute; repeat constructor; set_solver|].
    repeat constructor.
  - vm_compute. set_solver.
Defined.

End Load.

(** ** The page of the municipalities *)

Module Pages.
Import Py Frames Load.

(** The order of the values of a column: numbers by value, strings byte by
    byte. *)
Definition cell_ltb (a b : Cell) : bool :=
  match a, b with
  | CFloat x, CFloat y => PrimFloat.ltb x y
  | CStr s, CStr t => String.ltb s t
  | _, _ => false
  end.

(** One step of [max] along a column: a null is passed over, and so is a NaN
    beside a number. *)
Definition greater (acc c : Cell) : Cell :=
  match acc, c with
  | CNull, _ => c
  | _, CNull => acc
  | CFloat x, CFloat y =>
      if PrimFloat.is_nan x then c
      else if PrimFloat.is_nan y then acc
      else if cell_ltb acc c then c else acc
  | _, _ => if cell_ltb acc c then c else acc
  end.

(** [pl.col(name).max()]: null when the column holds no value. *)
Definition series_max (s : Series) : Cell := foldl greater CNull (cells s).

(** The rows of the latest year, [pl.col("jaar") == pl.col("jaar").max()],
    as a mask over the column: null on a null year. *)
Definition latest (jaar : Series) : list (option bool) :=
  let highest := series_max jaar in
  map (λ c, match c, highest with
            | CNull, _ | _, CNull => None
            | _, _ => Some (cell_eqb c highest)
            end) (cells jaar).

(** [drop_nulls(name)] keeps the rows whose value is not null. *)
Definition not_null (s : Series) : list (option bool) :=
  map (λ c, match c with CNull => Some false | _ => Some true end) (cells s).

(** [s.is_in(other)] row by row: null on a null. *)
Definition is_in_series (s other : Series) : list (option bool) :=
  map (λ c, match c with
            | CNull => None
            | _ => Some (existsb (cell_eqb c) (cells other))
            end) (cells s).

(** Lines 114-117: the regions with a population in the latest year. *)
Definition active_gemeentes (df : DataFrame) : result Series :=
  jaar ← col df "jaar";
  let active := filter_frame (latest jaar) df in
  bevolking ← col active "bevolking_1_januari";
  let active := filter_frame (not_null bevolking) active in
  col active "regio".

(** Lines 120-133: the population five rows back in the region, and the
    growth since, relative and absolute. *)
Definition five_year_growth (df : DataFrame) : result DataFrame :=
  value ← col df "bevolking_1_januari";
  regio ← col df "regio";
  let df := with_column df "previous_moment" (shift_by_over 5 regio value) in
  current ← col df "bevolking_1_januari";
  before ← col df "previous_moment";
  difference ← arith PrimFloat.sub current before;
  percentage ← arith PrimFloat.div difference before;
  let df := with_column df "percentage_growth" percentage in
  current ← col df "bevolking_1_januari";
  before ← col df "previous_moment";
  difference ← arith PrimFloat.sub current before;
  Ok (with_column df "absolute_growth" difference).

Definition extract_top5 (df : DataFrame) (only_active : bool)
  : result DataFrame :=
  df ← (if only_active then
          active ← active_gemeentes df;
          regio ← col df "regio";
          Ok (filter_frame (is_in_series regio active) df)
        else Ok df);
  five_year_growth df.

(** *** Growth over five rows *)

(** The value [n] rows back in the group of row [i]. *)
Definition value_before {A} (n : nat) (keys : list Cell)
    (vals : list (option A)) (i : nat) (k : Cell) : option A :=
  match same_key_before keys vals i k !! n with
  | Some (_, v) => v
  | None => None
  end.

(** The frame that the function returns on a numeric population column. *)
Definition five_year_frame (df : DataFrame) (regio : Series)
    (vs : list (option float)) : DataFrame :=
  let ps := shift_n_over 5 [] (cells regio) vs in
  let ds := zip_with (lift2 PrimFloat.sub) vs ps in
  let gs := zip_with (lift2 PrimFloat.div) ds ps in
  with_column
    (with_column (with_column df "previous_moment" (Float64 ps))
       "percentage_growth" (Float64 gs))
    "absolute_growth" (Float64 ds).

Lemma five_year_growth_float df regio vs :
  get df "regio" = Some regio →
  get df "bevolking_1_januari" = Some (Float64 vs) →
  five_year_growth df = Ok (five_year_frame df regio vs).
Proof.
  intros Hregio Hvs. unfold five_year_growth, col.
  rewrite Hvs, Hregio. simpl.
  repeat (first [rewrite get_with_column_eq
                |rewrite get_with_column_ne by done
                |rewrite Hvs]; simpl).
  done.
Qed.

(** X14. Without the filter on active regions, [extract_top5] returns on any
    frame with a [regio] column and a numeric [bevolking_1_januari] column.
    It writes three columns and leaves the others as they are. In a row,
    [previous_moment] is the population five rows back among the rows of the
    same region, null when the region has fewer than five earlier rows;
    [absolute_growth] is the difference with the population of the row and
    [percentage_growth] that difference divided by the earlier population,
    with no normalization of NaN or infinite quotients. *)
Theorem five_year_growth_of_a_row (df : DataFrame) (regio : Series)
    (vs : list (option float)) :
  get df "regio" = Some regio →
  get df "bevolking_1_januari" = Some (Float64 vs) →
  ∃ out ps gs ds,
    extract_top5 df false = Ok out
    ∧ get out "previous_moment" = Some (Float64 ps)
    ∧ get out "percentage_growth" = Some (Float64 gs)
    ∧ get out "absolute_growth" = Some (Float64 ds)
    ∧ (∀ name,
         name ∉ ["previous_moment"; "percentage_growth"; "absolute_growth"] →
         get out name = get df name)
    ∧ ∀ i k v, cells regio !! i = Some k → vs !! i = Some v →
        let p := value_before 4 (cells regio) vs i k in
        ps !! i = Some p
        ∧ gs !! i
          = Some (lift2 PrimFloat.div (lift2 PrimFloat.sub v p) p)
        ∧ ds !! i = Some (lift2 PrimFloat.sub v p)
        ∧ ((length (same_key_before (cells regio) vs i k) < 5)%nat →
           ps !! i = Some None ∧ gs !! i = Some None ∧ ds !! i = Some None).
Proof.
  intros Hregio Hvs.
  set (ps := shift_n_over 5 [] (cells regio) vs).
  set (gs := zip_with (lift2 PrimFloat.div)
               (zip_with (lift2 PrimFloat.sub) vs ps) ps).
  set (ds := zip_with (lift2 PrimFloat.sub) vs ps).
  exists (five_year_frame df regio vs), ps, gs, ds.
  split.
  { unfold extract_top5. simpl. by apply five_year_growth_float. }
  unfold five_year_frame. fold ps. fold ds. fold gs.
  do 3 (split; [by repeat first [rewrite get_with_column_eq
                                |rewrite get_with_column_ne by done]|]).
  split.
  { intros name Hname. rewrite !get_with_column_ne; [done|..];
      intros <-; apply Hname; set_solver. }
  intros i k v Hk Hv. set (p := value_before 4 (cells regio) vs i k).
  assert (ps !! i = Some p) as Hp.
  { unfold ps, p, value_before.
    rewrite (shift_n_over_spec 5 _ _ i k Hk); [done|].
    by eapply lookup_lt_Some. }
  assert (gs !! i = Some (lift2 PrimFloat.div (lift2 PrimFloat.sub v p) p)
          ∧ ds !! i = Some (lift2 PrimFloat.sub v p)) as [Hg Hd].
  { unfold gs, ds. by rewrite !lookup_zip_with, Hv, Hp. }
  do 3 (split; [done|]). intros Hfew.
  assert (p = None) as Hnone.
  { unfold p, value_before. rewrite lookup_ge_None_2; [done | lia]. }
  rewrite Hp, Hg, Hd, Hnone. by destruct v.
Qed.

(** *** Filtering whole regions *)

Lemma get_filter_frame mask df name :
  get (filter_frame mask df) name = filter_series mask <$> get df name.
Proof. apply (get_map_series (filter_series mask)). Qed.

Lemma filter_frame_with_column mask df name s :
  filter_frame mask (with_column df name s)
  = with_column (filter_frame mask df) name (filter_series mask s).
Proof.
  induction df as [|[n c] df IH]; simpl; [done|].
  destruct (String.eqb n name); simpl; [done | by rewrite IH].
Qed.

Lemma keep_zip_with {A B C} (f : A → B → C) mask xs ys :
  keep mask (zip_with f xs ys) = zip_with f (keep mask xs) (keep mask ys).
Proof.
  assert (∀ l : list A, zip_with f l [] = []) as Hnil by (by intros []).
  revert xs ys. induction mask as [|m mask IH]; intros [|x xs] [|y ys];
    try done; simpl; destruct m as [[|]|]; rewrite ?Hnil, ?IH; done.
Qed.

Lemma arith_filter op mask a b :
  arith op (filter_series mask a) (filter_series mask b)
  = filter_series mask <$> arith op a b.
Proof.
  destruct a as [xs|xs], b as [ys|ys]; simpl; try done.
  by rewrite keep_zip_with.
Qed.

Lemma cells_filter mask s :
  cells (filter_series mask s) = keep mask (cells s).
Proof. destruct s; simpl; by rewrite keep_map. Qed.

Lemma shift_n_over_nil_r {A} n seen keys :
  shift_n_over (A:=A) n seen keys [] = [].
Proof. by destruct keys. Qed.

(** A mask that keeps or drops whole groups. *)
Definition by_group (h : Cell → option bool) : Prop :=
  ∀ a b, cell_eqb a b = true → h a = h b.

Lemma nth_previous_filter {A} (h : Cell → option bool) n
    (seen : list (Cell * option A)) k :
  by_group h → h k = Some true →
  nth_previous n (filter (λ kv, h kv.1 = Some true) seen) k
  = nth_previous n seen k.
Proof.
  intros Hh Hk. unfold nth_previous. rewrite list_filter_filter.
  rewrite (list_filter_iff _ (λ kv, cell_eqb kv.1 k = true)); [done|].
  intros kv. split; [by intros [? _]|]. intros Hkv. split; [done|].
  by rewrite (Hh _ _ Hkv).
Qed.

(** Dropping whole groups and shifting within the groups commute. *)
Lemma keep_shift_n_over {A} (h : Cell → option bool) n seen keys
    (vals : list (option A)) :
  by_group h →
  keep (map h keys) (shift_n_over n seen keys vals)
  = shift_n_over n (filter (λ kv, h kv.1 = Some true) seen)
      (keep (map h keys) keys) (keep (map h keys) vals).
Proof.
  intros Hh. revert seen vals.
  induction keys as [|k keys IH]; intros seen [|v vals]; simpl; try done.
  - by rewrite shift_n_over_nil_r.
  - rewrite IH, filter_cons. simpl.
    destruct (h k) as [[|]|] eqn:Hk; simpl; [|done..].
    by rewrite nth_previous_filter.
Qed.

Lemma shift_by_over_filter h n regio value :
  by_group h →
  shift_by_over n (filter_series (map h (cells regio)) regio)
    (filter_series (map h (cells regio)) value)
  = filter_series (map h (cells regio)) (shift_by_over n regio value).
Proof.
  intros Hh. destruct value as [vs|vs]; simpl;
    by rewrite cells_filter, (keep_shift_n_over h n []).
Qed.

Lemma five_year_growth_filter h df regio :
  by_group h → get df "regio" = Some regio →
  five_year_growth (filter_frame (map h (cells regio)) df)
  = filter_frame (map h (cells regio)) <$> five_year_growth df.
Proof.
  intros Hh Hregio. set (mask := map h (cells regio)).
  unfold five_year_growth, col.
  rewrite !get_filter_frame, Hregio.
  destruct (get df "bevolking_1_januari") as [value|]; simpl; [|done].
  unfold mask. rewrite shift_by_over_filter by done. fold mask.
  rewrite <- filter_frame_with_column.
  set (df1 := with_column df "previous_moment" _).
  rewrite !get_filter_frame.
  destruct (get df1 "bevolking_1_januari") as [current|]; simpl; [|done].
  destruct (get df1 "previous_moment") as [before|]; simpl; [|done].
  rewrite arith_filter.
  destruct (arith PrimFloat.sub current before) as [difference|e]; simpl;
    [|done].
  rewrite arith_filter.
  destruct (arith PrimFloat.div difference before) as [percentage|e]; simpl;
    [|done].
  rewrite <- filter_frame_with_column.
  set (df2 := with_column df1 "percentage_growth" _).
  rewrite !get_filter_frame.
  destruct (get df2 "bevolking_1_januari") as [current'|]; simpl; [|done].
  destruct (get df2 "previous_moment") as [before'|]; simpl; [|done].
  rewrite arith_filter.
  destruct (arith PrimFloat.sub current' before') as [difference'|e]; simpl;
    [|done].
  by rewrite <- filter_frame_with_column.
Qed.

(** The rows that two successive filters keep. *)
Lemma elem_of_keep_keep {A B} (f : A → option bool) mask (xs : list A)
    (ys : list B) y :
  y ∈ keep (map f (keep mask xs)) (keep mask ys)
  ↔ ∃ i x, mask !! i = Some (Some true) ∧ xs !! i = Some x
      ∧ f x = Some true ∧ ys !! i = Some y.
Proof.
  revert xs ys. induction mask as [|m mask IH]; intros xs ys.
  - simpl. split; [by intros ?%elem_of_nil | by intros (i & ? & ? & _)].
  - destruct xs as [|x xs].
    { simpl. split; [by intros ?%elem_of_nil|].
      by intros (i & ? & _ & ? & _). }
    destruct ys as [|y0 ys].
    { assert (keep (m :: mask) ([] : list B) = []) as -> by done.
      assert (∀ l : list (option bool), keep l ([] : list B) = []) as Hnil
        by (by intros [|? ?]).
      rewrite Hnil. split; [by intros ?%elem_of_nil|].
      by intros (i & ? & _ & _ & _ & ?). }
    assert ((∃ i x', (m :: mask) !! i = Some (Some true)
               ∧ (x :: xs) !! i = Some x' ∧ f x' = Some true
               ∧ (y0 :: ys) !! i = Some y)
            ↔ (m = Some true ∧ f x = Some true ∧ y0 = y)
              ∨ ∃ i x', mask !! i = Some (Some true) ∧ xs !! i = Some x'
                  ∧ f x' = Some true ∧ ys !! i = Some y) as ->.
    { split.
      - intros ([|i] & x' & Hm & Hx & Hf & Hy); simplify_eq/=; eauto 10.
      - intros [(-> & Hf & ->)|(i & x' & Hrest)].
        + exists 0%nat, x. eauto.
        + exists (S i), x'. eauto. }
    rewrite <- IH. simpl.
    destruct m as [[|]|]; simpl.
    + destruct (f x) as [[|]|]; rewrite ?elem_of_cons; naive_solver.
    + naive_solver.
    + naive_solver.
Qed.

Lemma existsb_cell_of_string s (actives : list (option string)) :
  existsb (cell_eqb (CStr s)) (cells (Utf8 actives))
  = bool_decide (Some s ∈ actives).
Proof.
  induction actives as [|a actives IH]; simpl in *; [done|].
  rewrite IH. destruct a as [a|]; simpl.
  - destruct (String.eqb_spec s a) as [->|Hne]; simpl.
    + symmetry. apply bool_decide_eq_true. by left.
    + apply bool_decide_ext. rewrite elem_of_cons. naive_solver.
  - apply bool_decide_ext. rewrite elem_of_cons. naive_solver.
Qed.

(** The mask of the filter on active regions, on a column of strings. *)
Definition is_active (actives : list (option string)) (c : Cell)
  : option bool :=
  match c with
  | CStr s => Some (bool_decide (Some s ∈ actives))
  | _ => None
  end.

Lemma is_active_by_group actives : by_group (is_active actives).
Proof.
  intros [|x|s] [|y|t]; simpl; try done.
  by intros ->%String.eqb_eq.
Qed.

Lemma is_in_series_strings regio actives :
  is_in_series (Utf8 regio) (Utf8 actives)
  = map (is_active actives) (cells (Utf8 regio)).
Proof.
  unfold is_in_series. apply map_ext_in. intros c Hc.
  simpl in Hc. apply in_map_iff in Hc as ([s|] & <- & _); [|done].
  unfold is_active. by rewrite existsb_cell_of_string.
Qed.

(** *** The latest year *)

Lemma string_compare_trans a b c :
  String.compare a b = Lt → String.compare b c = Lt → String.compare a c = Lt.
Proof.
  revert b c. induction a as [|x a IH]; intros [|y b] [|z c]; simpl; try done.
  unfold Ascii.compare.
  destruct (N.compare_spec (Ascii.N_of_ascii x) (Ascii.N_of_ascii y));
    destruct (N.compare_spec (Ascii.N_of_ascii y) (Ascii.N_of_ascii z));
    destruct (N.compare_spec (Ascii.N_of_ascii x) (Ascii.N_of_ascii z));
    try done; try lia.
  apply IH.
Qed.

Ltac compare_cases :=
  repeat match goal with
         | H : context [Z.compare ?a ?b] |- _ =>
             destruct (Z.compare_spec a b); subst
         | H : context [PosDef.Pos.compare_cont Eq ?a ?b] |- _ =>
             change (PosDef.Pos.compare_cont Eq a b) with (Pos.compare a b)
               in H;
             destruct (Pos.compare_spec a b); subst
         | |- context [Z.compare ?a ?b] =>
             destruct (Z.compare_spec a b); subst
         | |- context [PosDef.Pos.compare_cont Eq ?a ?b] =>
             change (PosDef.Pos.compare_cont Eq a b) with (Pos.compare a b);
             destruct (Pos.compare_spec a b); subst
         end.

Ltac by_signs :=
  simpl; try done;
  repeat match goal with s : bool |- _ => destruct s end;
  try done; intros; compare_cases; simpl in *; try done; try lia.

Lemma SFcompare_trans a b c :
  SFcompare a b = Some Lt → SFcompare b c = Some Lt → SFcompare a c = Some Lt.
Proof.
  destruct a as [s1|s1| |s1 m1 e1], b as [s2|s2| |s2 m2 e2],
    c as [s3|s3| |s3 m3 e3]; by_signs.
Qed.

Lemma SFcompare_total a b :
  a ≠ S754_nan → b ≠ S754_nan →
  SFcompare a b ≠ Some Lt → SFcompare b a ≠ Some Lt →
  SFcompare a b = Some Eq.
Proof.
  destruct a as [s1|s1| |s1 m1 e1], b as [s2|s2| |s2 m2 e2]; by_signs.
Qed.

Lemma SFcompare_eq_lt a b c :
  SFcompare a b = Some Eq → SFcompare a c = Some Lt → SFcompare b c = Some Lt.
Proof.
  destruct a as [s1|s1| |s1 m1 e1], b as [s2|s2| |s2 m2 e2],
    c as [s3|s3| |s3 m3 e3]; by_signs.
Qed.

(** A value that [max] does not pass over. *)
Definition proper (c : Cell) : Prop :=
  match c with
  | CNull => False
  | CFloat x => PrimFloat.is_nan x = false
  | CStr _ => True
  end.

(** Two values of one type. *)
Definition comparable (a b : Cell) : Prop :=
  match a, b with
  | CFloat _, CFloat _ | CStr _, CStr _ => True
  | _, _ => False
  end.

Lemma not_nan_spec x : PrimFloat.is_nan x = false → Prim2SF x ≠ S754_nan.
Proof.
  unfold PrimFloat.is_nan. rewrite FloatAxioms.eqb_spec. intros Hx Hnan.
  by rewrite Hnan in Hx.
Qed.

Lemma cell_ltb_trans a b c :
  cell_ltb a b = true → cell_ltb b c = true → cell_ltb a c = true.
Proof.
  destruct a as [|x|s], b as [|y|t], c as [|z|u]; simpl; try done.
  - rewrite !ltb_spec. unfold SFltb.
    destruct (SFcompare (Prim2SF x) (Prim2SF y)) as [[| |]|] eqn:Hxy;
      try done.
    destruct (SFcompare (Prim2SF y) (Prim2SF z)) as [[| |]|] eqn:Hyz;
      try done.
    by rewrite (SFcompare_trans _ _ _ Hxy Hyz).
  - unfold String.ltb.
    destruct (String.compare s t) eqn:Hst; try done.
    destruct (String.compare t u) eqn:Htu; try done.
    by rewrite (string_compare_trans _ _ _ Hst Htu).
Qed.

Lemma cell_ltb_total a b :
  proper a → proper b → comparable a b →
  cell_ltb a b = false → cell_ltb b a = false → cell_eqb a b = true.
Proof.
  destruct a as [|x|s], b as [|y|t]; simpl; try done.
  - intros Hx%not_nan_spec Hy%not_nan_spec _.
    rewrite !ltb_spec, FloatAxioms.eqb_spec. unfold SFltb, SFeqb.
    intros Hxy Hyx.
    rewrite (SFcompare_total _ _ Hx Hy); [done|..].
    + intros Hlt. by rewrite Hlt in Hxy.
    + intros Hlt. by rewrite Hlt in Hyx.
  - intros _ _ _. unfold String.ltb. rewrite (String.compare_antisym t s).
    destruct (String.compare s t) eqn:Hst; try done.
    intros _ _. apply String.compare_eq_iff in Hst as ->.
    apply String.eqb_refl.
Qed.

Lemma cell_eqb_ltb a b c :
  proper a → cell_eqb a b = true → cell_ltb a c = true →
  cell_ltb b c = true.
Proof.
  destruct a as [|x|s], b as [|y|t], c as [|z|u]; simpl; try done.
  - intros ->. rewrite andb_false_l, orb_false_r.
    rewrite !ltb_spec, FloatAxioms.eqb_spec. unfold SFltb, SFeqb.
    destruct (SFcompare (Prim2SF x) (Prim2SF y)) as [[| |]|] eqn:Hxy;
      try done.
    destruct (SFcompare (Prim2SF x) (Prim2SF z)) as [[| |]|] eqn:Hxz;
      try done.
    by rewrite (SFcompare_eq_lt _ _ _ Hxy Hxz).
  - by intros _ ->%String.eqb_eq.
Qed.

Lemma cell_ltb_irrefl a : proper a → cell_ltb a a = false.
Proof.
  destruct a as [|x|s]; simpl; try done.
  - intros Hx%not_nan_spec. rewrite ltb_spec. unfold SFltb.
    assert (SFcompare (Prim2SF x) (Prim2SF x) = Some Eq) as ->; [|done].
    destruct (Prim2SF x) as [[]|[]| |[] m e]; simpl; try done;
      by rewrite Z.compare_refl, Pos.compare_cont_refl.
  - intros _. unfold String.ltb.
    pose proof (String.compare_antisym s s) as Hanti.
    by destruct (String.compare s s).
Qed.

Lemma greater_proper a b :
  proper a → proper b → comparable a b →
  greater a b = if cell_ltb a b then b else a.
Proof.
  destruct a as [|x|s], b as [|y|t]; simpl; try done.
  by intros -> ->.
Qed.

(** [max] returns a value of the column that none exceeds; on a column of
    nulls it returns null. *)
Lemma foldl_greater cs acc :
  (∀ c, c ∈ acc :: cs → c = CNull ∨ proper c) →
  (∀ a b, a ∈ acc :: cs → b ∈ acc :: cs → proper a → proper b →
          comparable a b) →
  (foldl greater acc cs = CNull ∧ ∀ c, c ∈ acc :: cs → c = CNull)
  ∨ (foldl greater acc cs ∈ acc :: cs ∧ proper (foldl greater acc cs)
     ∧ ∀ c, c ∈ acc :: cs → cell_ltb (foldl greater acc cs) c = false).
Proof.
  revert acc. induction cs as [|c cs IH]; intros acc Hproper Hkind.
  - simpl. destruct (Hproper acc) as [->|Hacc]; [by left| |].
    + left. split; [done|]. by intros c ->%list_elem_of_singleton.
    + right. split; [by left|]. split; [done|].
      intros c ->%list_elem_of_singleton. by apply cell_ltb_irrefl.
  - simpl.
    assert (∀ x, x ∈ acc :: c :: cs → x = CNull ∨ proper x) as Hp by done.
    destruct (Hproper acc) as [->|Hacc]; [by left| |].
    { (* nothing in hand yet *)
      assert (greater CNull c = c) as -> by done.
      destruct (IH c) as [[Hm Hnull]|(Hin & Hm & Hmax)].
      - intros x Hx. apply Hproper. by right.
      - intros a b Ha Hb. apply Hkind; by right.
      - left. split; [done|]. intros x [->|Hx]%elem_of_cons; [done|].
        by apply Hnull.
      - right. split; [by right|]. split; [done|].
        intros x [->|Hx]%elem_of_cons; [by destruct (foldl greater c cs)|].
        by apply Hmax. }
    destruct (Hproper c) as [->|Hc]; [by right; left| |].
    { (* a null is passed over *)
      assert (greater acc CNull = acc) as -> by (by destruct acc).
      destruct (IH acc) as [[Hm Hnull]|(Hin & Hm & Hmax)].
      - intros x [->|Hx]%elem_of_cons; apply Hproper; [by left|].
        by right; right.
      - intros a b [->|Ha]%elem_of_cons [->|Hb]%elem_of_cons; apply Hkind;
          set_solver.
      - rewrite (Hnull acc) in Hacc by (by left). done.
      - right. split; [set_solver|]. split; [done|].
        intros x [->|[->|Hx]%elem_of_cons]%elem_of_cons.
        + apply Hmax. by left.
        + by destruct (foldl greater acc cs).
        + apply Hmax. by right. }
    assert (comparable acc c) as Hcomp.
    { apply Hkind; [by left | by right; left | done..]. }
    rewrite (greater_proper acc c Hacc Hc Hcomp).
    set (acc' := if cell_ltb acc c then c else acc).
    assert (acc' ∈ acc :: c :: cs) as Hacc'.
    { unfold acc'. destruct (cell_ltb acc c); set_solver. }
    destruct (IH acc') as [[Hm Hnull]|(Hin & Hm & Hmax)].
    + intros x [->|Hx]%elem_of_cons; apply Hproper; [done|]. by right; right.
    + intros a b Ha Hb. apply Hkind; set_solver.
    + exfalso. pose proof (Hnull acc' ltac:(by left)) as Hnone.
      unfold acc' in Hnone. destruct (cell_ltb acc c); subst; done.
    + set (m := foldl greater acc' cs) in *.
      assert (m ∈ acc :: c :: cs) as Hm'.
      { apply elem_of_cons in Hin as [Hin|Hin]; [by rewrite Hin|].
        by right; right. }
      right. split; [done|]. split; [done|].
      assert (cell_ltb m acc' = false) as Htop by (apply Hmax; by left).
      assert (cell_ltb m acc = false ∧ cell_ltb m c = false) as [Ha Hb].
      { unfold acc' in Htop. destruct (cell_ltb acc c) eqn:Hlt.
        - split; [|done].
          destruct (cell_ltb m acc) eqn:Hma; [|done].
          by rewrite (cell_ltb_trans _ _ _ Hma Hlt) in Htop.
        - split; [done|].
          destruct (cell_ltb m c) eqn:Hmc; [|done].
          destruct (cell_ltb acc m) eqn:Ham.
          + by rewrite (cell_ltb_trans _ _ _ Ham Hmc) in Hlt.
          + assert (cell_eqb m acc = true) as Heq.
            { apply cell_ltb_total; [done..| |done|done].
              apply Hkind; [done | by left | done..]. }
            by rewrite (cell_eqb_ltb _ _ _ Hm Heq Hmc) in Hlt. }
      intros x [->|[->|Hx]%elem_of_cons]%elem_of_cons; [done..|].
      apply Hmax. by right.
Qed.

(** A column without NaN. *)
Definition no_nan (s : Series) : Prop :=
  ∀ x, CFloat x ∈ cells s → PrimFloat.is_nan x = false.

Lemma cells_proper s c : no_nan s → c ∈ cells s → c = CNull ∨ proper c.
Proof.
  intros Hnan Hc. destruct c as [|x|t]; [by left|..]; right; simpl; [|done].
  by apply Hnan.
Qed.

Lemma cells_comparable s a b :
  a ∈ cells s → b ∈ cells s → proper a → proper b → comparable a b.
Proof.
  destruct s as [vs|ss]; simpl; intros Ha Hb;
    apply list_elem_of_fmap in Ha as ([x|] & -> & _);
    apply list_elem_of_fmap in Hb as ([y|] & -> & _); done.
Qed.

(** The mask of the latest year marks the rows whose year is not null and
    is exceeded by no year of the column. *)
Lemma latest_spec jaar i :
  no_nan jaar →
  latest jaar !! i = Some (Some true)
  ↔ ∃ y, cells jaar !! i = Some y ∧ y ≠ CNull
      ∧ ∀ y', y' ∈ cells jaar → cell_ltb y y' = false.
Proof.
  intros Hnan. unfold latest, series_max.
  change (map ?f ?l) with (f <$> l). rewrite list_lookup_fmap.
  set (m := foldl greater CNull (cells jaar)).
  assert (∀ y, y ∈ cells jaar → y ≠ CNull →
            m ∈ cells jaar ∧ proper m
            ∧ ∀ c, c ∈ cells jaar → cell_ltb m c = false) as Hmax.
  { intros y Hy Hnull.
    destruct (foldl_greater (cells jaar) CNull) as [[_ Hall]|(Hin & Hm & Hle)].
    - intros c [->|Hc]%elem_of_cons; [by left|]. by apply (cells_proper jaar).
    - intros a b [->|Ha]%elem_of_cons [->|Hb]%elem_of_cons; try done.
      by apply (cells_comparable jaar).
    - exfalso. apply Hnull, Hall. by right.
    - fold m in Hin, Hm, Hle. split; [|split; [done|]].
      + apply elem_of_cons in Hin as [Hin|Hin]; [|done].
        by rewrite Hin in Hm.
      + intros c Hc. apply Hle. by right. }
  destruct (cells jaar !! i) as [y|] eqn:Hy; simpl.
  - pose proof (list_elem_of_lookup_2 _ _ _ Hy) as Hin.
    assert (y = CNull ∨ y ≠ CNull) as [->|Hnull]
      by (destruct y; [by left | by right..]).
    { split; [done|]. by intros (? & [= <-] & ? & _). }
    destruct (Hmax y Hin Hnull) as (Hm & Hpm & Hle).
    assert (proper y) as Hpy.
    { by destruct (cells_proper jaar y Hnan Hin). }
    assert (match y, m with
            | CNull, _ | _, CNull => None
            | _, _ => Some (cell_eqb y m)
            end = Some (cell_eqb y m)) as ->.
    { by destruct y, m. }
    split.
    + intros [= Heq]. exists y. split; [done|]. split; [done|].
      intros y' Hy'. destruct (cell_ltb y y') eqn:Hlt; [|done].
      pose proof (cell_eqb_ltb _ _ _ Hpy Heq Hlt) as Habs.
      by rewrite (Hle y' Hy') in Habs.
    + intros (? & [= <-] & _ & Htop). do 2 f_equal.
      apply cell_ltb_total; [done..| | |].
      * by apply (cells_comparable jaar).
      * by apply Htop.
      * by apply Hle.
  - split; [done|]. by intros (? & ? & _).
Qed.

(** X15. With the filter on active regions, [extract_top5] keeps the rows
    whose region is not null and is the region of some row of the latest
    year with a population that is not null, and drops the others; the
    latest year is the year that no year of the column exceeds, numbers
    compared by value and strings byte by byte. The growth columns of the
    rows kept are those that the function computes without the filter:
    dropping whole regions does not change which row is five rows back in a
    region. *)
Theorem only_active_keeps_whole_regions (df : DataFrame)
    (regio : list (option string)) (jaar : Series)
    (vs : list (option float)) :
  get df "regio" = Some (Utf8 regio) →
  get df "jaar" = Some jaar →
  no_nan jaar →
  get df "bevolking_1_januari" = Some (Float64 vs) →
  ∃ actives,
    active_gemeentes df = Ok (Utf8 actives)
    ∧ (∀ r, r ∈ actives
            ↔ ∃ i y x, cells jaar !! i = Some y ∧ y ≠ CNull
                ∧ (∀ y', y' ∈ cells jaar → cell_ltb y y' = false)
                ∧ vs !! i = Some (Some x) ∧ regio !! i = Some r)
    ∧ extract_top5 df true
      = filter_frame
          (map (λ r, match r with
                     | Some s => Some (bool_decide (Some s ∈ actives))
                     | None => None
                     end) regio)
        <$> extract_top5 df false.
Proof.
  intros Hregio Hjaar Hnan Hvs.
  set (actives :=
         keep (map (λ v : option float,
                      match v with Some _ => Some true | None => Some false end)
                 (keep (latest jaar) vs))
           (keep (latest jaar) regio)).
  assert (active_gemeentes df = Ok (Utf8 actives)) as Hactive.
  { unfold active_gemeentes, col. rewrite Hjaar. simpl.
    rewrite !get_filter_frame, Hvs. simpl.
    rewrite !get_filter_frame, Hregio. simpl.
    unfold actives, not_null. simpl. rewrite map_map.
    do 3 f_equal. apply map_ext. by intros [x|]. }
  exists actives. split; [done|]. split.
  { intros r. unfold actives. rewrite elem_of_keep_keep.
    split.
    - intros (i & [x|] & Hm & Hx & Hf & Hr); [|done].
      apply (latest_spec jaar i Hnan) in Hm as (y & Hy & Hnull & Htop).
      eauto 10.
    - intros (i & y & x & Hy & Hnull & Htop & Hx & Hr).
      exists i, (Some x). split; [|done].
      apply (latest_spec jaar i Hnan). eauto. }
  unfold extract_top5. rewrite Hactive. simpl. unfold col at 1.
  rewrite Hregio. simpl. rewrite is_in_series_strings.
  rewrite (five_year_growth_filter _ _ _ (is_active_by_group actives) Hregio).
  destruct (five_year_growth df) as [out|e]; simpl; [|done].
  do 2 f_equal. rewrite map_map. apply map_ext. by intros [s|].
Qed.

(** X18. Without the filter on active regions, [extract_top5] raises in two
    cases only: a column-not-found error when the frame lacks the [regio]
    or the [bevolking_1_januari] column, and an invalid-operation error
    when the population column holds strings. With the filter it also needs
    the [jaar] column. *)
Theorem extract_top5_raises (df : DataFrame) (e : exn) :
  (extract_top5 df false = Raise e
   ↔ ((get df "bevolking_1_januari" = None ∨ get df "regio" = None)
      ∧ e = ColumnNotFoundError)
     ∨ ((∃ ss, get df "bevolking_1_januari" = Some (Utf8 ss))
        ∧ is_Some (get df "regio") ∧ e = InvalidOperationError))
  ∧ (get df "jaar" = None →
     extract_top5 df true = Raise ColumnNotFoundError).
Proof.
  split.
  - destruct (get df "bevolking_1_januari") as [[vs|ss]|] eqn:Hvs.
    + destruct (get df "regio") as [regio|] eqn:Hregio.
      * unfold extract_top5. simpl.
        rewrite (five_year_growth_float df regio vs Hregio Hvs).
        split; [done|]. intros [[[?|?] _]|[[? ?] _]]; done.
      * unfold extract_top5, five_year_growth, col. simpl.
        rewrite Hvs, Hregio. simpl. split.
        -- intros [= <-]. left. auto.
        -- intros [[_ ->]|(_ & [? ?] & _)]; done.
    + destruct (get df "regio") as [regio|] eqn:Hregio.
      * unfold extract_top5, five_year_growth, col. simpl.
        rewrite Hvs, Hregio. simpl.
        repeat (first [rewrite get_with_column_eq
                      |rewrite get_with_column_ne by done
                      |rewrite Hvs]; simpl).
        split.
        -- intros [= <-]. right. eauto.
        -- intros [[[?|?] _]|(_ & _ & ->)]; done.
      * unfold extract_top5, five_year_growth, col. simpl.
        rewrite Hvs, Hregio. simpl. split.
        -- intros [= <-]. left. auto.
        -- intros [[_ ->]|(_ & [? ?] & _)]; done.
    + unfold extract_top5, five_year_growth, col. simpl.
      rewrite Hvs. simpl. split.
      * intros [= <-]. left. auto.
      * intros [[_ ->]|([? ?] & _)]; done.
  - intros Hjaar. unfold extract_top5, active_gemeentes, col.
    by rewrite Hjaar.
Qed.

(** One region over six years, from no inhabitants to 50. *)
Definition six_years : DataFrame :=
  [("regio", Utf8 (replicate 6 (Some "Noordwijk")));
   ("bevolking_1_januari",
    Float64 [Some 0%float; Some 1%float; Some 2%float; Some 3%float;
             Some 4%float; Some 50%float])].

Lemma five_year_growth_of_a_row_witness :
  ∃ out gs,
    extract_top5 six_years false = Ok out
    ∧ get out "percentage_growth" = Some (Float64 gs)
    ∧ gs !! 4%nat = Some None
    ∧ gs !! 5%nat = Some (Some infinity).
Proof.
  destruct (five_year_growth_of_a_row six_years
              (Utf8 (replicate 6 (Some "Noordwijk")))
              [Some 0%float; Some 1%float; Some 2%float; Some 3%float;
               Some 4%float; Some 50%float])
    as (out & ps & gs & ds & Hout & _ & Hgs & _ & _ & Hrows);
    [reflexivity..|].
  exists out, gs. split; [done|]. split; [done|]. split.
  - destruct (Hrows 4%nat (CStr "Noordwijk") (Some 4%float))
      as (_ & _ & _ & Hfew); [reflexivity..|].
    apply Hfew. vm_compute. lia.
  - destruct (Hrows 5%nat (CStr "Noordwijk") (Some 50%float))
      as (_ & -> & _); [reflexivity..|].
    vm_compute. reflexivity.
Defined.

(** Two regions over two years; the second has no population in 2022. *)
Definition two_regions : DataFrame :=
  [("regio", Utf8 [Some "Amsterdam"; Some "Zevenaar"; Some "Amsterdam";
                   Some "Zevenaar"]);
   ("jaar", Utf8 [Some "2021"; Some "2021"; Some "2022"; Some "2022"]);
   ("bevolking_1_januari",
    Float64 [Some 873338%float; Some 43000%float; Some 882633%float; None])].

Lemma only_active_keeps_whole_regions_witness :
  ∃ out,
    extract_top5 two_regions true = Ok out
    ∧ get out "regio" = Some (Utf8 [Some "Amsterdam"; Some "Amsterdam"])
    ∧ get out "absolute_growth" = Some (Float64 [None; None]).
Proof.
  destruct (only_active_keeps_whole_regions two_regions
              [Some "Amsterdam"; Some "Zevenaar"; Some "Amsterdam";
               Some "Zevenaar"]
              (Utf8 [Some "2021"; Some "2021"; Some "2022"; Some "2022"])
              [Some 873338%float; Some 43000%float; Some 882633%float; None])
    as (actives & Hactives & _ & ->); [reflexivity..| |reflexivity|].
  { intros x Hx. simpl in Hx. set_solver. }
  vm_compute in Hactives. injection Hactives as <-.
  eexists. split; [vm_compute; reflexivity|].
  split; vm_compute; reflexivity.
Defined.

End Pages.
